(** * Shallow embedding of overwatch-league-schedule-parser (src/main.go)

    The program fetches a page, walks the JSON payload to the schedule
    tables, parses each table fragment with Go's encoding/xml into rows,
    resolves each row's date and time with Go's time package, sorts the
    rows stably by the Almaty instant and writes two reports.

    Go panics are modelled as an error result.  Go strings are byte
    strings, modelled as Stdlib [string] (lists of [ascii]). *)

From Stdlib Require Import ZArith List Bool Ascii String Lia.
From Stdlib Require Import Sorting.Sorted Sorting.Permutation.
Import ListNotations.
Open Scope Z_scope.

(** ** Results: a value or the reason the Go code panics *)

Inductive go_error : Type :=
  | ErrParse            (* time.Parse / xml.Unmarshal returned an error *)
  | ErrSliceOutOfRange  (* runtime panic: slice bounds out of range *)
  | ErrTypeAssertion.   (* runtime panic: failed type assertion *)

Inductive result (A : Type) : Type :=
  | Ok : A -> result A
  | Err : go_error -> result A.
Arguments Ok {A} _.
Arguments Err {A} _.

Definition bind {A B} (r : result A) (k : A -> result B) : result B :=
  match r with Ok a => k a | Err e => Err e end.

Notation "x <- r ;; k" := (bind r (fun x => k))
  (at level 61, r at next level, right associativity).

(** ** Package strings *)

Module GoStrings.

(** [strings.HasPrefix] *)
Fixpoint has_prefix (s pre : string) : bool :=
  match pre, s with
  | EmptyString, _ => true
  | String c pre', String d s' => Ascii.eqb c d && has_prefix s' pre'
  | String _ _, EmptyString => false
  end.

(** [strings.HasSuffix(s, suf)]:
    [len(s) >= len(suf) && s[len(s)-len(suf):] == suf] *)
Definition has_suffix (s suf : string) : bool :=
  (String.length suf <=? String.length s)%nat &&
  String.eqb (substring (String.length s - String.length suf)
                        (String.length suf) s) suf.

(** [strings.ReplaceAll(s, old, new)] for a one-byte [old]. *)
Fixpoint replace_all_char (s : string) (old : ascii) (new : string) : string :=
  match s with
  | EmptyString => EmptyString
  | String c s' =>
      if Ascii.eqb c old then (new ++ replace_all_char s' old new)%string
      else String c (replace_all_char s' old new)
  end.

(** Go's slice expression [s[:n]], which panics unless [0 <= n <= len(s)]. *)
Definition slice_to (s : string) (n : Z) : result string :=
  if (0 <=? n) && (n <=? Z.of_nat (String.length s))
  then Ok (substring 0 (Z.to_nat n) s)
  else Err ErrSliceOutOfRange.

(** Whether the byte [c] occurs in [s]: [strings.ContainsRune] for ASCII. *)
Fixpoint contains_char (s : string) (c : ascii) : bool :=
  match s with
  | EmptyString => false
  | String d s' => Ascii.eqb d c || contains_char s' c
  end.

End GoStrings.

(** ** Rows: [Td], [Tr], [Tr.GetField], [Tr.ToTranslation] *)

Record Td : Type := mkTd {
  Key : string;    (* xml:"class,attr" *)
  Value : string   (* xml:",chardata" *)
}.

Record Tr : Type := mkTr { Tr_Td : list Td }.

(** [func (tr Tr) GetField(name string) string] *)
Fixpoint get_field_tds (tds : list Td) (name : string) : string :=
  match tds with
  | [] => EmptyString
  | td :: rest => if String.eqb (Key td) name then Value td
                  else get_field_tds rest name
  end.

Definition GetField (tr : Tr) (name : string) : string :=
  get_field_tds (Tr_Td tr) name.

Module Translation.
Record t : Type := mk {
  Date : string;
  Tournament : string;
  Region : string;
  Time : string;
  Broadcast : string
}.
End Translation.

(** [func (tr Tr) ToTranslation() Translation] *)
Definition ToTranslation (tr : Tr) : Translation.t :=
  {| Translation.Date := GetField tr "dateBody";
     Translation.Tournament := GetField tr "tournamentBody";
     Translation.Region := GetField tr "regionBody";
     Translation.Time := GetField tr "timeBody";
     Translation.Broadcast := GetField tr "broadcastBody" |}.

(** ** Package time *)

Module GoTime.

(** Days from 1970-01-01 to the proleptic Gregorian date [y-m-d]; linear
    in [d], so an out-of-range day is carried over as Go's [Date] does. *)
Definition days_from_civil (y m d : Z) : Z :=
  let y' := if m <=? 2 then y - 1 else y in
  let era := y' / 400 in
  let yoe := y' - era * 400 in
  let mp := if 2 <? m then m - 3 else m + 9 in
  let doy := (153 * mp + 2) / 5 + d - 1 in
  let doe := yoe * 365 + yoe / 4 - yoe / 100 + doy in
  era * 146097 + doe - 719468.

(** The (year, month, day) of a day number, inverse of [days_from_civil]. *)
Definition civil_from_days (days : Z) : Z * Z * Z :=
  let z := days + 719468 in
  let era := z / 146097 in
  let doe := z - era * 146097 in
  let yoe := (doe - doe / 1460 + doe / 36524 - doe / 146096) / 365 in
  let y := yoe + era * 400 in
  let doy := doe - (365 * yoe + yoe / 4 - yoe / 100) in
  let mp := (5 * doy + 2) / 153 in
  let d := doy - (153 * mp + 2) / 5 + 1 in
  let m := if mp <? 10 then mp + 3 else mp - 9 in
  (if m <=? 2 then y + 1 else y, m, d).

Definition secondsPerDay : Z := 86400.

(** [isLeap] and [daysIn] *)
Definition isLeap (year : Z) : bool :=
  (year mod 4 =? 0) && (negb (year mod 100 =? 0) || (year mod 400 =? 0)).

Definition daysIn (month year : Z) : Z :=
  if (month =? 2) && isLeap year then 29
  else days_from_civil (if month =? 12 then year + 1 else year)
                       (if month =? 12 then 1 else month + 1) 1
       - days_from_civil year month 1.

(** The answer of [Location.lookup(sec)]: zone name, offset east of UTC in
    seconds, and the interval [start, end) over which it is valid. *)
Record zone_info : Type := mkZoneInfo {
  zi_name : string;
  zi_offset : Z;
  zi_start : Z;
  zi_end : Z
}.

(** A [*time.Location]: its zone table (name, offset), which
    [lookupName] scans, and its [lookup] function. *)
Record location : Type := mkLocation {
  loc_name : string;
  loc_zone : list (string * Z);
  loc_lookup : Z -> zone_info
}.

Definition alpha : Z := - 2 ^ 63.
Definition omega : Z := 2 ^ 63 - 1.

(** [time.UTC]: no zones, [lookup] answers "UTC", offset 0. *)
Definition UTC : location :=
  {| loc_name := "UTC"; loc_zone := [];
     loc_lookup := fun _ => mkZoneInfo "UTC" 0 alpha omega |}.

(** [time.FixedZone(name, offset)] *)
Definition FixedZone (name : string) (offset : Z) : location :=
  {| loc_name := name; loc_zone := [(name, offset)];
     loc_lookup := fun _ => mkZoneInfo name offset alpha omega |}.

(** Day of the month of the [n]-th Sunday of [month] in [year]
    (the [Mm.n.0] rule of a TZ string, as [tzruleTime] evaluates it). *)
Definition nth_sunday (year month n : Z) : Z :=
  let dow := (days_from_civil year month 1 + 4) mod 7 in
  1 + (7 - dow) mod 7 + 7 * (n - 1).

(** America/Los_Angeles as Go's [tzset] evaluates the rule
    "PST8PDT,M3.2.0,M11.1.0" of the tz database (the rule in force since
    2007): PDT from the second Sunday of March 02:00 PST to the first
    Sunday of November 02:00 PDT, PST otherwise.  As in [tzset], the
    interval returned for standard time ends at the year's boundaries.
    The lookup is exact from 2007 on only: it applies this rule to every
    year, while the tz database has the earlier US and California rules
    before 2007 (so 2006-04-01 is PST there, PDT here) and LMT before
    1883. *)
Definition la_lookup (sec : Z) : zone_info :=
  let '(year, _, _) := civil_from_days (sec / secondsPerDay) in
  let ystart := days_from_civil year 1 1 * secondsPerDay in
  let startSec := days_from_civil year 3 (nth_sunday year 3 2) * secondsPerDay
                  + 2 * 3600 + 8 * 3600 in
  let endSec := days_from_civil year 11 (nth_sunday year 11 1) * secondsPerDay
                + 2 * 3600 + 7 * 3600 in
  if sec <? startSec then mkZoneInfo "PST" (-28800) ystart startSec
  else if endSec <=? sec then
    mkZoneInfo "PST" (-28800) endSec (ystart + 365 * secondsPerDay)
  else mkZoneInfo "PDT" (-25200) startSec endSec.

Definition laLocation : location :=
  {| loc_name := "America/Los_Angeles";
     loc_zone := [("LMT", -28378); ("PDT", -25200); ("PST", -28800);
                  ("PWT", -25200); ("PPT", -25200)]%string;
     loc_lookup := la_lookup |}.

(** Asia/Almaty since 2005: +06, and +05 from 2024-03-01 00:00 local
    (tz database 2024a).  The lookup is exact from 2005 on only: it gives
    +06 for every earlier instant, while the tz database has +06/+07 with
    summer time until 2004, +05 in 1924-1930 and LMT before 1924. *)
Definition almaty_lookup (sec : Z) : zone_info :=
  if sec <? 1709229600 then mkZoneInfo "+06" 21600 alpha 1709229600
  else mkZoneInfo "+05" 18000 1709229600 omega.

Definition almatyLocation : location :=
  {| loc_name := "Asia/Almaty";
     loc_zone := [("LMT", 18468); ("+05", 18000); ("+06", 21600);
                  ("+07", 25200)]%string;
     loc_lookup := almaty_lookup |}.

(** [time.Time]: an instant (Unix seconds; all parsed times have zero
    nanoseconds) and the location it is displayed in. *)
Record time : Type := mkTime { unix : Z; loc : location }.

(** [t.In(loc)] only replaces the location. *)
Definition In (t : time) (l : location) : time := mkTime (unix t) l.

(** [t.Before(u)] compares instants. *)
Definition Before (t u : time) : bool := unix t <? unix u.

(** [t.Equal(u)] *)
Definition Equal (t u : time) : bool := unix t =? unix u.

(** [Location.lookupName(name, unix)] *)
Definition lookupName (l : location) (name : string) (sec : Z) : option Z :=
  let in_effect :=
    find (fun z => String.eqb (fst z) name &&
                   String.eqb (zi_name (loc_lookup l (sec - snd z))) (fst z))
         (loc_zone l) in
  match in_effect with
  | Some z => Some (zi_offset (loc_lookup l (sec - snd z)))
  | None =>
      match find (fun z => String.eqb (fst z) name) (loc_zone l) with
      | Some z => Some (snd z)
      | None => None
      end
  end.

(** [time.Date(year, month, day, hour, min, sec, 0, loc)] *)
Definition Date (year month day hour min sec : Z) (l : location) : time :=
  let year := year + (month - 1) / 12 in
  let month := (month - 1) mod 12 + 1 in
  let u := days_from_civil year month day * secondsPerDay
           + hour * 3600 + min * 60 + sec in
  let zi := loc_lookup l u in
  let offset := zi_offset zi in
  if offset =? 0 then mkTime u l
  else
    let utc := u - offset in
    let offset := if (utc <? zi_start zi) || (zi_end zi <=? utc)
                  then zi_offset (loc_lookup l utc) else offset in
    mkTime (u - offset) l.

(** The wall clock (year, month, day, hour, minute) of [t] in its location. *)
Definition wall_clock (t : time) : Z * Z * Z * Z * Z :=
  let local := unix t + zi_offset (loc_lookup (loc t) (unix t)) in
  let '(y, m, d) := civil_from_days (local / secondsPerDay) in
  let s := local mod secondsPerDay in
  (y, m, d, s / 3600, (s mod 3600) / 60).

End GoTime.

(** ** [time.Parse] and [time.ParseInLocation] *)

Module GoParse.
Import GoTime.

(** The chunks [nextStdChunk] splits a layout into: literal text and the
    standard elements the program's two layouts use. *)
Inductive chunk : Type :=
  | Lit (s : string)
  | StdLongYear     (* "2006" *)
  | StdZeroMonth    (* "01" *)
  | StdZeroDay      (* "02" *)
  | StdHour12       (* "3" *)
  | StdZeroMinute   (* "04" *)
  | StdPM           (* "PM" *)
  | StdTZ.          (* "MST" *)

Definition is_digit (c : ascii) : bool :=
  (48 <=? nat_of_ascii c)%nat && (nat_of_ascii c <=? 57)%nat.

Definition digit_val (c : ascii) : Z := Z.of_nat (nat_of_ascii c) - 48.

Definition is_upper (c : ascii) : bool :=
  (65 <=? nat_of_ascii c)%nat && (nat_of_ascii c <=? 90)%nat.

Fixpoint cutspace (s : string) : string :=
  match s with
  | String " " s' => cutspace s'
  | _ => s
  end.

(** [skip(value, prefix)]: a run of spaces in the prefix matches a run of
    spaces in the value. *)
Fixpoint skip_fuel (fuel : nat) (value prefix : string) : result string :=
  match fuel with
  | O => Ok value
  | S fuel' =>
      match prefix with
      | EmptyString => Ok value
      | String " " _ =>
          match value with
          | String c _ => if Ascii.eqb c " " then
                            skip_fuel fuel' (cutspace value) (cutspace prefix)
                          else Err ErrParse
          | EmptyString => skip_fuel fuel' (cutspace value) (cutspace prefix)
          end
      | String p prefix' =>
          match value with
          | String c value' => if Ascii.eqb c p then skip_fuel fuel' value' prefix'
                               else Err ErrParse
          | EmptyString => Err ErrParse
          end
      end
  end.

Definition skip (value prefix : string) : result string :=
  skip_fuel (S (String.length prefix)) value prefix.

(** [getnum(s, fixed)] *)
Definition getnum (s : string) (fixed : bool) : result (Z * string) :=
  match s with
  | String c0 rest =>
      if is_digit c0 then
        match rest with
        | String c1 rest' =>
            if is_digit c1 then Ok (digit_val c0 * 10 + digit_val c1, rest')
            else if fixed then Err ErrParse else Ok (digit_val c0, rest)
        | EmptyString => if fixed then Err ErrParse else Ok (digit_val c0, rest)
        end
      else Err ErrParse
  | EmptyString => Err ErrParse
  end.

(** [leadingInt(s)], with its overflow checks. *)
Fixpoint leading_int_acc (s : string) (x : Z) : option (Z * string) :=
  match s with
  | String c s' =>
      if is_digit c then
        if 2 ^ 63 / 10 <? x then None
        else
          let x' := x * 10 + digit_val c in
          if 2 ^ 63 <? x' then None else leading_int_acc s' x'
      else Some (x, s)
  | EmptyString => Some (x, s)
  end.

Definition leadingInt (s : string) : option (Z * string) := leading_int_acc s 0.

(** [atoi(s)] *)
Definition atoi (s : string) : option Z :=
  let '(neg, s') :=
    match s with
    | String "-" s' => (true, s')
    | String "+" s' => (false, s')
    | _ => (false, s)
    end in
  match leadingInt s' with
  | Some (q, EmptyString) => Some (if neg then - q else q)
  | _ => None
  end.

(** [parseSignedOffset(value)]: length of a "+hh"/"-hh" prefix, 0 if none. *)
Definition parseSignedOffset (value : string) : nat :=
  match value with
  | String sign rest =>
      if Ascii.eqb sign "-" || Ascii.eqb sign "+" then
        match leadingInt rest with
        | Some (x, rem) =>
            if String.eqb rest rem then 0%nat
            else if 23 <? x then 0%nat
            else (String.length value - String.length rem)%nat
        | None => 0%nat
        end
      else 0%nat
  | EmptyString => 0%nat
  end.

(** [parseGMT(value)] *)
Definition parseGMT (value : string) : nat :=
  let value := substring 3 (String.length value - 3) value in
  match value with
  | EmptyString => 3%nat
  | _ => (3 + parseSignedOffset value)%nat
  end.

(** Number of leading upper-case letters, counting at most six. *)
Fixpoint count_upper (fuel : nat) (s : string) : nat :=
  match fuel, s with
  | S fuel', String c s' => if is_upper c then S (count_upper fuel' s') else O
  | _, _ => O
  end.

Definition has_sign (value : string) : bool :=
  match value with
  | String c _ => Ascii.eqb c "+" || Ascii.eqb c "-"
  | EmptyString => false
  end.

(** [parseTimeZone(value)]: the length of the zone abbreviation at the
    start of [value], or [None] when it does not look like one. *)
Definition parseTimeZone (value : string) : option nat :=
  if (String.length value <? 3)%nat then None
  else if (4 <=? String.length value)%nat &&
          (String.eqb (substring 0 4 value) "ChST" ||
           String.eqb (substring 0 4 value) "MeST") then Some 4%nat
  else if String.eqb (substring 0 3 value) "GMT" then Some (parseGMT value)
  else if has_sign value then
    let n := parseSignedOffset value in
    if (0 <? n)%nat then Some n else None
  else
    match count_upper 6 value with
    | 5%nat => if String.eqb (substring 4 1 value) "T" then Some 5%nat else None
    | 4%nat => if String.eqb (substring 3 1 value) "T" ||
                  String.eqb (substring 0 4 value) "WITA" then Some 4%nat else None
    | 3%nat => Some 3%nat
    | _ => None
    end.

(** The local variables of [parse] that the layouts set. *)
Record pstate : Type := mkPState {
  year : Z; month : Z; day : Z; hour : Z; min : Z;
  pmSet : bool; amSet : bool;
  z : option location;
  zoneName : string
}.

Definition init_pstate : pstate :=
  mkPState 0 (-1) (-1) 0 0 false false None EmptyString.

Definition set_year st v := mkPState v (month st) (day st) (hour st) (min st) (pmSet st) (amSet st) (z st) (zoneName st).
Definition set_month st v := mkPState (year st) v (day st) (hour st) (min st) (pmSet st) (amSet st) (z st) (zoneName st).
Definition set_day st v := mkPState (year st) (month st) v (hour st) (min st) (pmSet st) (amSet st) (z st) (zoneName st).
Definition set_hour st v := mkPState (year st) (month st) (day st) v (min st) (pmSet st) (amSet st) (z st) (zoneName st).
Definition set_min st v := mkPState (year st) (month st) (day st) (hour st) v (pmSet st) (amSet st) (z st) (zoneName st).
Definition set_pm st := mkPState (year st) (month st) (day st) (hour st) (min st) true (amSet st) (z st) (zoneName st).
Definition set_am st := mkPState (year st) (month st) (day st) (hour st) (min st) (pmSet st) true (z st) (zoneName st).
Definition set_z st v := mkPState (year st) (month st) (day st) (hour st) (min st) (pmSet st) (amSet st) (Some v) (zoneName st).
Definition set_zoneName st v := mkPState (year st) (month st) (day st) (hour st) (min st) (pmSet st) (amSet st) (z st) v.

Definition drop (n : nat) (s : string) : string :=
  substring n (String.length s - n) s.

Definition starts_with_digit (s : string) : bool :=
  match s with String c _ => is_digit c | EmptyString => false end.

(** One iteration of the main loop of [parse]: [skip] for the literal
    prefix, or the [switch std & stdMask] case of a standard element; an
    error stands for both [rangeErrString] and [err]. *)
Definition parse_chunk (c : chunk) (value : string) (st : pstate)
  : result (string * pstate) :=
  match c with
  | Lit p => v <- skip value p ;; Ok (v, st)
  | StdLongYear =>
      if (String.length value <? 4)%nat || negb (starts_with_digit value)
      then Err ErrParse
      else match atoi (substring 0 4 value) with
           | Some y => Ok (drop 4 value, set_year st y)
           | None => Err ErrParse
           end
  | StdZeroMonth =>
      mv <- getnum value true ;;
      if (fst mv <=? 0) || (12 <? fst mv) then Err ErrParse
      else Ok (snd mv, set_month st (fst mv))
  | StdZeroDay =>
      dv <- getnum value true ;; Ok (snd dv, set_day st (fst dv))
  | StdHour12 =>
      hv <- getnum value false ;;
      if (fst hv <? 0) || (12 <? fst hv) then Err ErrParse
      else Ok (snd hv, set_hour st (fst hv))
  | StdZeroMinute =>
      mv <- getnum value true ;;
      if (fst mv <? 0) || (60 <=? fst mv) then Err ErrParse
      else Ok (snd mv, set_min st (fst mv))
  | StdPM =>
      if (String.length value <? 2)%nat then Err ErrParse
      else
        let p := substring 0 2 value in
        if String.eqb p "PM" then Ok (drop 2 value, set_pm st)
        else if String.eqb p "AM" then Ok (drop 2 value, set_am st)
        else Err ErrParse
  | StdTZ =>
      if (3 <=? String.length value)%nat && String.eqb (substring 0 3 value) "UTC"
      then Ok (drop 3 value, set_z st UTC)
      else match parseTimeZone value with
           | Some n => Ok (drop n value, set_zoneName st (substring 0 n value))
           | None => Err ErrParse
           end
  end.

Fixpoint parse_chunks (layout : list chunk) (value : string) (st : pstate)
  : result pstate :=
  match layout with
  | [] => match value with
          | EmptyString => Ok st
          | _ => Err ErrParse    (* ": extra text: " *)
          end
  | c :: layout' => vs <- parse_chunk c value st ;;
                    parse_chunks layout' (fst vs) (snd vs)
  end.

(** [parse(layout, value, defaultLocation, local)] after the loop. *)
Definition parse (layout : list chunk) (value : string)
                 (defaultLocation local : location) : result time :=
  st <- parse_chunks layout value init_pstate ;;
  let hour := if pmSet st && (hour st <? 12) then hour st + 12
              else if amSet st && (hour st =? 12) then 0 else hour st in
  let month := if month st <? 0 then 1 else month st in
  let day := if day st <? 0 then 1 else day st in
  let year := year st in
  if (day <? 1) || (daysIn month year <? day) then Err ErrParse
  else match z st with
  | Some zl => Ok (Date year month day hour (min st) 0 zl)
  | None =>
      if negb (String.eqb (zoneName st) EmptyString) then
        let t := Date year month day hour (min st) 0 UTC in
        match lookupName local (zoneName st) (unix t) with
        | Some offset => Ok (mkTime (unix t - offset) local)
        | None =>
            let zn := zoneName st in
            let offset :=
              if (3 <? String.length zn)%nat && String.eqb (substring 0 3 zn) "GMT"
              then match atoi (drop 3 zn) with Some o => o * 3600 | None => 0 end
              else 0 in
            Ok (mkTime (unix t) (FixedZone zn offset))
        end
      else Ok (Date year month day hour (min st) 0 defaultLocation)
  end.

(** [time.Parse(layout, value)]: UTC by default, abbreviations looked up
    in the process's local zone [local] ([time.Local]). *)
Definition Parse (layout : list chunk) (value : string) (local : location) :=
  parse layout value UTC local.

(** [time.ParseInLocation(layout, value, loc)] *)
Definition ParseInLocation (layout : list chunk) (value : string) (l : location) :=
  parse layout value l l.

(** The layouts "01-02-2006 3:04 PM" and "01-02-2006 3:04 PM MST". *)
Definition layout_pt : list chunk :=
  [StdZeroMonth; Lit "-"; StdZeroDay; Lit "-"; StdLongYear; Lit " ";
   StdHour12; Lit ":"; StdZeroMinute; Lit " "; StdPM].

Definition layout_mst : list chunk := layout_pt ++ [Lit " "; StdTZ].

End GoParse.

(** ** [Translation.ToTypedTranslation] *)

Module TypedTranslation.
Record t : Type := mk {
  AlmatyTime : GoTime.time;
  Tournament : string;
  Region : string;
  Broadcast : string;
  OriginalTime : GoTime.time;
  OriginalDate : string
}.
End TypedTranslation.

Section Resolver.
Import GoStrings GoTime GoParse.

(** [local] is [time.Local], the zone of the machine running the program,
    which [time.Parse] consults for zone abbreviations. *)
Variable local : location.

Definition ToTypedTranslation (t : Translation.t) : result TypedTranslation.t :=
  let tm := Translation.Time t in
  timeVal <-
    (if has_suffix tm "PT" then
       s <- slice_to tm (Z.of_nat (String.length tm) - 3) ;;
       ParseInLocation layout_pt (Translation.Date t ++ " " ++ s)%string laLocation
     else Parse layout_mst (Translation.Date t ++ " " ++ tm)%string local) ;;
  Ok {| TypedTranslation.OriginalDate := (Translation.Date t ++ " " ++ tm)%string;
        TypedTranslation.Tournament := Translation.Tournament t;
        TypedTranslation.Region := Translation.Region t;
        TypedTranslation.AlmatyTime := In timeVal almatyLocation;
        TypedTranslation.OriginalTime := timeVal;
        TypedTranslation.Broadcast := Translation.Broadcast t |}.

End Resolver.

(** ** Package encoding/xml, for the elements, attributes, text, comments,
    CDATA sections, processing instructions and directives a table
    fragment consists of.

    The lexer follows [Decoder.rawToken] and [Decoder.text] byte by byte
    in strict mode, including the final UTF-8 and character-range check
    of [Decoder.text] and the [<?xml?>] declaration check.  Names are read
    with the ASCII part of Go's name tables: a name byte of 128 or more,
    which Go accepts for some Unicode letters, is reported as an error
    here. *)

Module GoXml.
Import GoParse.

Inductive token : Type :=
  | TStart (name : string) (attrs : list (string * string))
  | TEnd (name : string)
  | TChar (data : string)
  | TOther  (* a comment, a processing instruction or a directive *)
  | TErr.   (* the syntax error that stops the decoder *)

Definition code (c : ascii) : nat := nat_of_ascii c.

(** [isNameByte] on ASCII; a name must start with a letter, '_' or ':'. *)
Definition is_letter (c : ascii) : bool :=
  ((65 <=? code c) && (code c <=? 90) || (97 <=? code c) && (code c <=? 122))%nat.
Definition is_name_start (c : ascii) : bool :=
  is_letter c || Ascii.eqb c "_" || Ascii.eqb c ":".
Definition is_name_byte (c : ascii) : bool :=
  is_name_start c || is_digit c || Ascii.eqb c "." || Ascii.eqb c "-".

(** [Decoder.space] skips these. *)
Definition is_space (c : ascii) : bool :=
  Ascii.eqb c " " || Ascii.eqb c "009" || Ascii.eqb c "010" || Ascii.eqb c "013".

Definition snoc (s : string) (c : ascii) : string := (s ++ String c EmptyString)%string.

(** [strings.Count(s, ":")]: [Decoder.nsname] refuses a name with more
    than one colon. *)
Fixpoint colons (s : string) : nat :=
  match s with
  | EmptyString => 0
  | String c s' => ((if Ascii.eqb c ":" then 1 else 0) + colons s')%nat
  end.

(** [strings.Cut(s, ":")] *)
Fixpoint cut_colon (s : string) : option (string * string) :=
  match s with
  | EmptyString => None
  | String c s' =>
      if Ascii.eqb c ":" then Some (EmptyString, s')
      else match cut_colon s' with
           | Some (a, b) => Some (String c a, b)
           | None => None
           end
  end.

(** [Name.Local] as [Decoder.nsname] sets it: the part after the colon
    when the name has a non-empty prefix and a non-empty rest, otherwise
    the whole name. *)
Definition local_name (s : string) : string :=
  match cut_colon s with
  | Some (String _ _, String c r) => String c r
  | _ => s
  end.

(** The predefined entities [lt], [gt], [amp], [apos], [quot]. *)
Definition named_entity (name : string) : option string :=
  if String.eqb name "lt" then Some "<"%string
  else if String.eqb name "gt" then Some ">"%string
  else if String.eqb name "amp" then Some "&"%string
  else if String.eqb name "apos" then Some (String "039" EmptyString)
  else if String.eqb name "quot" then Some (String "034" EmptyString)
  else None.

(** [isInCharacterRange] *)
Definition in_char_range (r : Z) : bool :=
  (r =? 9) || (r =? 10) || (r =? 13) || ((32 <=? r) && (r <=? 55295)) ||
  ((57344 <=? r) && (r <=? 65533)) || ((65536 <=? r) && (r <=? 1114111)).

(** [string(rune(n))]: UTF-8, surrogates become U+FFFD. *)
Definition byte (n : Z) : string := String (ascii_of_nat (Z.to_nat n)) EmptyString.
Definition utf8 (n : Z) : string :=
  let n := if (55296 <=? n) && (n <=? 57343) then 65533 else n in
  if n <? 128 then byte n
  else if n <? 2048 then
    (byte (192 + n / 64) ++ byte (128 + n mod 64))%string
  else if n <? 65536 then
    (byte (224 + n / 4096) ++ byte (128 + (n / 64) mod 64) ++ byte (128 + n mod 64))%string
  else (byte (240 + n / 262144) ++ byte (128 + (n / 4096) mod 64) ++
        byte (128 + (n / 64) mod 64) ++ byte (128 + n mod 64))%string.

(** A UTF-8 continuation byte, 0x80 to 0xBF. *)
Definition cont (c : ascii) : bool := ((128 <=? code c) && (code c <=? 191))%nat.

(** The second byte of a sequence led by [b1], as [utf8.DecodeRune]
    accepts it (its [acceptRanges]). *)
Definition second_ok (b1 : nat) (c : ascii) : bool :=
  if (b1 =? 224)%nat then ((160 <=? code c) && (code c <=? 191))%nat
  else if (b1 =? 237)%nat then ((128 <=? code c) && (code c <=? 159))%nat
  else if (b1 =? 240)%nat then ((144 <=? code c) && (code c <=? 191))%nat
  else if (b1 =? 244)%nat then ((128 <=? code c) && (code c <=? 143))%nat
  else cont c.

Definition zc (c : ascii) : Z := Z.of_nat (code c).

(** The check at the end of [Decoder.text]: decoding the data rune by rune
    with [utf8.DecodeRune] never gives [RuneError] of size 1 ("invalid
    UTF-8"), and every rune is in [isInCharacterRange] ("illegal character
    code"). *)
Fixpoint text_ok (s : string) : bool :=
  match s with
  | EmptyString => true
  | String c1 s1 =>
      if (code c1 <? 128)%nat then in_char_range (zc c1) && text_ok s1
      else if ((194 <=? code c1) && (code c1 <=? 223))%nat then
        match s1 with
        | String c2 s2 =>
            cont c2 && in_char_range ((zc c1 - 192) * 64 + (zc c2 - 128)) && text_ok s2
        | EmptyString => false
        end
      else if ((224 <=? code c1) && (code c1 <=? 239))%nat then
        match s1 with
        | String c2 (String c3 s3) =>
            second_ok (code c1) c2 && cont c3 &&
            in_char_range ((zc c1 - 224) * 4096 + (zc c2 - 128) * 64 + (zc c3 - 128)) &&
            text_ok s3
        | _ => false
        end
      else if ((240 <=? code c1) && (code c1 <=? 244))%nat then
        match s1 with
        | String c2 (String c3 (String c4 s4)) =>
            second_ok (code c1) c2 && cont c3 && cont c4 &&
            in_char_range ((zc c1 - 240) * 262144 + (zc c2 - 128) * 4096 +
                           (zc c3 - 128) * 64 + (zc c4 - 128)) &&
            text_ok s4
        | _ => false
        end
      else false
  end.

Definition hex_val (c : ascii) : option Z :=
  if is_digit c then Some (digit_val c)
  else if ((97 <=? code c) && (code c <=? 102))%nat then Some (Z.of_nat (code c) - 87)
  else if ((65 <=? code c) && (code c <=? 70))%nat then Some (Z.of_nat (code c) - 55)
  else None.

(** Digits of a character reference, up to the byte after them. *)
Fixpoint char_ref_digits (hex : bool) (s : string) (acc : Z) (n : nat)
  : Z * nat * string :=
  match s with
  | String c s' =>
      match (if hex then hex_val c else if is_digit c then Some (digit_val c) else None) with
      | Some v => char_ref_digits hex s' (acc * (if hex then 16 else 10) + v) (S n)
      | None => (acc, n, s)
      end
  | EmptyString => (acc, n, s)
  end.

Fixpoint name_prefix (s : string) : string * string :=
  match s with
  | String c s' => if is_name_byte c then let '(n, r) := name_prefix s' in (String c n, r)
                   else (EmptyString, s)
  | EmptyString => (EmptyString, EmptyString)
  end.

(** The entity after a '&': its text and the rest, or the strict-mode
    error "invalid character entity".  A character reference up to
    [unicode.MaxRune] is accepted here; its range is checked with the rest
    of the text by [text_ok]. *)
Definition entity (s : string) : option (string * string) :=
  match s with
  | String "#" s' =>
      let '(hex, s'') := match s' with
                         | String "x" r => (true, r)
                         | _ => (false, s')
                         end in
      match char_ref_digits hex s'' 0 0 with
      | (v, S _, String ";" rest) =>
          if v <=? 1114111 then Some (utf8 v, rest) else None
      | _ => None
      end
  | _ =>
      match name_prefix s with
      | (nm, String ";" rest) =>
          match named_entity nm with Some t => Some (t, rest) | None => None end
      | _ => None
      end
  end.

(** The loop of [Decoder.text]: decode the raw bytes of a text run
    ([inattr] false) or of a quoted attribute value ([inattr] true);
    [b0], [b1] are the last two raw bytes, as in the source, reset after
    an entity. *)
Fixpoint decode_fuel (fuel : nat) (inattr : bool) (b0 b1 : ascii) (raw : string)
  : option string :=
  match fuel with
  | O => None
  | S fuel' =>
  match raw with
  | EmptyString => Some EmptyString
  | String c rest =>
      if Ascii.eqb c "&" then
        match entity rest with
        | Some (t, rest') =>
            match decode_fuel fuel' inattr "000" "000" rest' with
            | Some d => Some (t ++ d)%string
            | None => None
            end
        | None => None
        end
      else if negb inattr && Ascii.eqb b0 "]" && Ascii.eqb b1 "]" && Ascii.eqb c ">"
      then None
      else
        match decode_fuel fuel' inattr b1 c rest with
        | Some d =>
            if Ascii.eqb c "013" then Some (String "010" d)
            else if Ascii.eqb b1 "013" && Ascii.eqb c "010" then Some d
            else Some (String c d)
        | None => None
        end
  end
  end.

(** [Decoder.text]: the loop, then the check of the whole data. *)
Definition decode (inattr : bool) (raw : string) : option string :=
  match decode_fuel (S (String.length raw)) inattr "000" "000" raw with
  | Some d => if text_ok d then Some d else None
  | None => None
  end.

(** The [\r] and [\r\n] rewriting of [Decoder.text] inside a CDATA section
    (no entities there); [b1] is the previous raw byte. *)
Fixpoint cr_fold (b1 : ascii) (s : string) : string :=
  match s with
  | EmptyString => EmptyString
  | String c s' =>
      if Ascii.eqb c "013" then String "010" (cr_fold c s')
      else if Ascii.eqb b1 "013" && Ascii.eqb c "010" then cr_fold c s'
      else String c (cr_fold c s')
  end.

(** [data[0 : len(data)-2]] *)
Definition chop2 (s : string) : string := substring 0 (String.length s - 2) s.

(** [strings.IndexByte(s, q)] and the prefix before it. *)
Fixpoint upto (q : ascii) (s : string) : option string :=
  match s with
  | EmptyString => None
  | String c s' => if Ascii.eqb c q then Some EmptyString
                   else option_map (String c) (upto q s')
  end.

(** The loop of [procInst(param, s)] on [sub = s[i:]]: find [param=]
    followed by a quote, skipping occurrences followed by anything else,
    and return the text up to the closing quote, or "". *)
Fixpoint proc_inst_fuel (fuel : nat) (p sub : string) : string :=
  match fuel with
  | O => EmptyString
  | S fuel' =>
      match sub with
      | EmptyString => EmptyString
      | String _ sub' =>
          if GoStrings.has_prefix sub p then
            match substring (String.length p) (String.length sub) sub with
            | String q rest =>
                if Ascii.eqb q "'" || Ascii.eqb q "034" then
                  match upto q rest with Some v => v | None => EmptyString end
                else proc_inst_fuel fuel' p rest
            | EmptyString => EmptyString
            end
          else proc_inst_fuel fuel' p sub'
      end
  end.

Definition proc_inst (param s : string) : string :=
  proc_inst_fuel (S (String.length s)) (param ++ "=") s.

(** ASCII lower case, for [strings.EqualFold(enc, "utf-8")] (no other
    rune folds to one of these letters). *)
Fixpoint lower (s : string) : string :=
  match s with
  | EmptyString => EmptyString
  | String c s' =>
      String (if ((65 <=? code c) && (code c <=? 90))%nat
              then ascii_of_nat (code c + 32) else c) (lower s')
  end.

(** The [<?xml ...?>] check: version "" or "1.0", and encoding "" or
    UTF-8 (there is no [CharsetReader]). *)
Definition xml_decl_ok (body : string) : bool :=
  let ver := proc_inst "version" body in
  let enc := proc_inst "encoding" body in
  (String.eqb ver "" || String.eqb ver "1.0") &&
  (String.eqb enc "" || String.eqb (lower enc) "utf-8").

(** The decoder's position inside the markup: what [rawToken] is in the
    middle of reading.  [LText raw] is text, or between tokens when [raw]
    is empty. *)
Inductive lexstate : Type :=
  | LText (raw : string)
  | LLt                                         (* after "<" *)
  | LStartName (name : string)
  | LInTag (name : string) (attrs : list (string * string))
  | LSlash (name : string) (attrs : list (string * string))  (* "/" in a tag *)
  | LAttrName (name : string) (attrs : list (string * string)) (an : string)
  | LAttrEq (name : string) (attrs : list (string * string)) (an : string)
  | LAttrQuote (name : string) (attrs : list (string * string)) (an : string)
  | LAttrVal (name : string) (attrs : list (string * string)) (an : string)
             (q : ascii) (raw : string)
  | LEndLt                                      (* after "</" *)
  | LEndName (name : string)
  | LEndSpace (name : string)
  | LPiLt                                       (* after "<?" *)
  | LPiTarget (target : string)
  | LPiSpace (target : string)
  | LPiBody (target : string) (data : string) (q : bool)  (* q: last byte '?' *)
  | LBang                                       (* after "<!" *)
  | LBangDash                                   (* after "<!-" *)
  | LComment (b0 b1 : bool)                     (* last two bytes were '-' *)
  | LCDataOpen (k : nat)                        (* k bytes of "CDATA[" read *)
  | LCData (raw : string) (b0 b1 : ascii)
  | LDir (inquote : option ascii) (depth : nat)
  | LDirLt (depth : nat) (k : nat)              (* '<', then k bytes of "!--" *)
  | LDirComment (depth : nat) (b0 b1 : bool)
  | LErr.

Definition lex_error : lexstate * list token := (LErr, [TErr]).

(** Inside a start tag, after its name or an attribute. *)
Definition step_intag (name : string) (attrs : list (string * string)) (c : ascii)
  : lexstate * list token :=
  if is_space c then (LInTag name attrs, [])
  else if Ascii.eqb c "/" then (LSlash name attrs, [])
  else if Ascii.eqb c ">" then (LText EmptyString, [TStart name attrs])
  else if is_name_start c then (LAttrName name attrs (String c EmptyString), [])
  else lex_error.

Definition step_attreq (name : string) (attrs : list (string * string)) (an : string)
  (c : ascii) : lexstate * list token :=
  if is_space c then (LAttrEq name attrs an, [])
  else if Ascii.eqb c "=" then (LAttrQuote name attrs an, [])
  else lex_error.   (* attribute name without = in element *)

Definition step_endspace (name : string) (c : ascii) : lexstate * list token :=
  if is_space c then (LEndSpace name, [])
  else if Ascii.eqb c ">" then (LText EmptyString, [TEnd name])
  else lex_error.   (* invalid characters between </name and > *)

(** The body of a processing instruction, up to "?>". *)
Definition step_pibody (target data : string) (q : bool) (c : ascii)
  : lexstate * list token :=
  let data := snoc data c in
  if q && Ascii.eqb c ">" then
    if String.eqb target "xml" && negb (xml_decl_ok (chop2 data)) then lex_error
    else (LText EmptyString, [TOther])
  else (LPiBody target data (Ascii.eqb c "?"), []).

(** The switch of a directive on a byte ([HandleB] in the source). *)
Definition step_dir (inquote : option ascii) (depth : nat) (c : ascii)
  : lexstate * list token :=
  match inquote with
  | Some q => if Ascii.eqb c q then (LDir None depth, []) else (LDir inquote depth, [])
  | None =>
      if Ascii.eqb c "'" || Ascii.eqb c "034" then (LDir (Some c) depth, [])
      else if Ascii.eqb c ">" then (LDir None (pred depth), [])
      else if Ascii.eqb c "<" then (LDirLt depth 0, [])
      else (LDir None depth, [])
  end.

(** One byte of input. *)
Definition lex_step (st : lexstate) (c : ascii) : lexstate * list token :=
  match st with
  | LText raw =>
      if Ascii.eqb c "<" then
        match raw with
        | EmptyString => (LLt, [])
        | _ => match decode false raw with
               | Some d => (LLt, [TChar d])
               | None => lex_error
               end
        end
      else (LText (snoc raw c), [])
  | LLt =>
      if Ascii.eqb c "/" then (LEndLt, [])
      else if Ascii.eqb c "!" then (LBang, [])
      else if Ascii.eqb c "?" then (LPiLt, [])
      else if is_name_start c then (LStartName (String c EmptyString), [])
      else lex_error
  | LStartName name =>
      if is_name_byte c then (LStartName (snoc name c), [])
      else if (128 <=? code c)%nat then lex_error
      else if (1 <? colons name)%nat then lex_error   (* expected element name after < *)
      else step_intag name [] c
  | LInTag name attrs => step_intag name attrs c
  | LSlash name attrs =>
      if Ascii.eqb c ">" then (LText EmptyString, [TStart name attrs; TEnd name])
      else lex_error   (* expected /> in element *)
  | LAttrName name attrs an =>
      if is_name_byte c then (LAttrName name attrs (snoc an c), [])
      else if (128 <=? code c)%nat then lex_error
      else if (1 <? colons an)%nat then lex_error   (* expected attribute name *)
      else step_attreq name attrs an c
  | LAttrEq name attrs an => step_attreq name attrs an c
  | LAttrQuote name attrs an =>
      if is_space c then (LAttrQuote name attrs an, [])
      else if Ascii.eqb c "034" then (LAttrVal name attrs an c EmptyString, [])
      else if Ascii.eqb c "'" then (LAttrVal name attrs an c EmptyString, [])
      else lex_error   (* unquoted or missing attribute value *)
  | LAttrVal name attrs an q raw =>
      if Ascii.eqb c "<" then lex_error   (* unescaped < inside quoted-string *)
      else if Ascii.eqb c q then
        match decode true raw with
        | Some v => (LInTag name (attrs ++ [(an, v)]), [])
        | None => lex_error
        end
      else (LAttrVal name attrs an q (snoc raw c), [])
  | LEndLt =>
      if is_name_start c then (LEndName (String c EmptyString), []) else lex_error
  | LEndName name =>
      if is_name_byte c then (LEndName (snoc name c), [])
      else if (128 <=? code c)%nat then lex_error
      else if (1 <? colons name)%nat then lex_error   (* expected element name after </ *)
      else step_endspace name c
  | LEndSpace name => step_endspace name c
  | LPiLt =>
      if is_name_start c then (LPiTarget (String c EmptyString), [])
      else lex_error   (* expected target name after <? *)
  | LPiTarget t =>
      if is_name_byte c then (LPiTarget (snoc t c), [])
      else if (128 <=? code c)%nat then lex_error
      else if is_space c then (LPiSpace t, [])
      else step_pibody t EmptyString false c
  | LPiSpace t =>
      if is_space c then (LPiSpace t, []) else step_pibody t EmptyString false c
  | LPiBody t data q => step_pibody t data q c
  | LBang =>
      if Ascii.eqb c "-" then (LBangDash, [])
      else if Ascii.eqb c "[" then (LCDataOpen 0, [])
      else (LDir None 0, [])
  | LBangDash => if Ascii.eqb c "-" then (LComment false false, []) else lex_error
  | LComment b0 b1 =>
      if b0 && b1 then
        if Ascii.eqb c ">" then (LText EmptyString, [TOther])
        else lex_error   (* "--" not allowed in comments *)
      else (LComment b1 (Ascii.eqb c "-"), [])
  | LCDataOpen k =>
      if Ascii.eqb c (match String.get k "CDATA[" with Some x => x | None => "000"%char end)
      then (if (k =? 5)%nat then (LCData EmptyString "000" "000", []) else (LCDataOpen (S k), []))
      else lex_error   (* invalid <![ sequence *)
  | LCData raw b0 b1 =>
      if Ascii.eqb b0 "]" && Ascii.eqb b1 "]" && Ascii.eqb c ">" then
        let d := cr_fold "000" (chop2 raw) in
        if text_ok d then (LText EmptyString, [TChar d]) else lex_error
      else (LCData (snoc raw c) b1 c, [])
  | LDir inquote depth =>
      match inquote with
      | None => if Ascii.eqb c ">" && (depth =? 0)%nat
                then (LText EmptyString, [TOther])
                else step_dir None depth c
      | Some _ => step_dir inquote depth c
      end
  | LDirLt depth k =>
      if Ascii.eqb c (match String.get k "!--" with Some x => x | None => "000"%char end)
      then (if (k =? 2)%nat then (LDirComment depth false false, [])
            else (LDirLt depth (S k), []))
      else step_dir None (S depth) c
  | LDirComment depth b0 b1 =>
      if b0 && b1 && Ascii.eqb c ">" then (LDir None depth, [])
      else (LDirComment depth b1 (Ascii.eqb c "-"), [])
  | LErr => (LErr, [])
  end.

Fixpoint lex_run (st : lexstate) (s : string) : lexstate * list token :=
  match s with
  | EmptyString => (st, [])
  | String c s' =>
      let '(st1, t1) := lex_step st c in
      let '(st2, t2) := lex_run st1 s' in
      (st2, t1 ++ t2)
  end.

(** End of input: trailing text is a last token; anywhere else inside a
    token it is "unexpected EOF". *)
Definition lex_finish (st : lexstate) : list token :=
  match st with
  | LText EmptyString => []
  | LText raw => match decode false raw with
                 | Some d => [TChar d]
                 | None => [TErr]
                 end
  | LErr => []
  | _ => [TErr]
  end.

(** The token stream a [Decoder] reads from the bytes [s]. *)
Definition tokenize (s : string) : list token :=
  let '(st, ts) := lex_run (LText EmptyString) s in ts ++ lex_finish st.

(** An element subtree as [Decoder.Token] delivers it. *)
#[warnings="-register-all"]
Inductive node : Type :=
  | Elem (name : string) (attrs : list (string * string)) (children : list node)
  | Text (data : string).

(** An open element: name, attributes and children so far (last first). *)
Definition frame : Type := (string * list (string * string) * list node)%type.

Definition add_child (nd : node) (f : frame) : frame :=
  let '(n, a, cs) := f in (n, a, nd :: cs).

(** Reads tokens from the first start element to its end element, with the
    checks of [Decoder.Token]: each end element closes the innermost open
    one ("element <x> closed by </y>"), no end element outside any element,
    no end of input inside the element.  Text, comments, processing
    instructions and directives before the first element are skipped, as [Decoder.Decode] does.  Returns the element and
    the tokens never read. *)
Fixpoint build (stk : list frame) (toks : list token) : result (node * list token) :=
  match toks with
  | [] => Err ErrParse
  | t :: rest =>
      match t with
      | TErr => Err ErrParse
      | TStart n a => build ((n, a, []) :: stk) rest
      | TEnd n =>
          match stk with
          | [] => Err ErrParse
          | (m, a, cs) :: stk' =>
              if String.eqb n m then
                let nd := Elem m a (rev cs) in
                match stk' with
                | [] => Ok (nd, rest)
                | f :: stk'' => build (add_child nd f :: stk'') rest
                end
              else Err ErrParse
          end
      | TChar d =>
          match stk with
          | [] => build [] rest
          | f :: stk' => build (add_child (Text d) f :: stk') rest
          end
      | TOther => build stk rest
      end
  end.

End GoXml.

(** ** [xml.Unmarshal] into [HtmlTable] *)

Module HtmlTable.
Import GoXml.

(** The struct: [THead any `xml:"thead"`] is skipped by the decoder (an
    interface field), so only [TBody] is kept. *)
Record t : Type := mk { TBody : list Tr }.

(** The value of the last attribute whose local name is [class]
    ([Td.Key]; the decoder compares [Attr.Name.Local]). *)
Fixpoint class_attr (attrs : list (string * string)) (acc : string) : string :=
  match attrs with
  | [] => acc
  | (n, v) :: rest => class_attr rest (if String.eqb (local_name n) "class" then v else acc)
  end.

(** [Td]: key from the attribute, value from the character data directly
    inside the element (nested elements are skipped). *)
Definition unmarshal_td (attrs : list (string * string)) (cs : list node) : Td :=
  mkTd (class_attr attrs EmptyString)
       (fold_right (fun nd acc => match nd with
                                  | Text d => (d ++ acc)%string
                                  | Elem _ _ _ => acc
                                  end) EmptyString cs).

(** [Tr]: one [Td] per child whose local name is [td], in order (fields
    are matched on [Name.Local]). *)
Definition unmarshal_tr (cs : list node) : Tr :=
  mkTr (flat_map (fun nd => match nd with
                            | Elem n a cs' => if String.eqb (local_name n) "td"
                                              then [unmarshal_td a cs'] else []
                            | Text _ => []
                            end) cs).

(** [TBody]: one [Tr] per child whose local name is [tr]. *)
Definition unmarshal_tbody (cs : list node) : list Tr :=
  flat_map (fun nd => match nd with
                      | Elem n _ cs' => if String.eqb (local_name n) "tr" then [unmarshal_tr cs'] else []
                      | Text _ => []
                      end) cs.

(** [HtmlTable]: the local name of the root must be [table] (the
    [XMLName] tag); the rows of every [tbody] child are appended to
    [TBody.Tr]; [thead] and any other child is skipped. *)
Definition unmarshal_table (nd : node) : result t :=
  match nd with
  | Elem n _ cs =>
      if String.eqb (local_name n) "table" then
        Ok (mk (flat_map (fun c => match c with
                                   | Elem m _ cs' => if String.eqb (local_name m) "tbody"
                                                     then unmarshal_tbody cs' else []
                                   | Text _ => []
                                   end) cs))
      else Err ErrParse   (* expected element type <table> *)
  | Text _ => Err ErrParse
  end.

(** [xml.Unmarshal(data, &htmlTable)] *)
Definition Unmarshal (data : string) : result t :=
  r <- build [] (tokenize data) ;; unmarshal_table (fst r).

End HtmlTable.

(** [func parseArticleRawHtml(articleRaw string) []Translation] *)
Definition parseArticleRawHtml (articleRaw : string) : result (list Translation.t) :=
  let articleRaw := GoStrings.replace_all_char articleRaw "&" "amp;" in
  htmlTable <- HtmlTable.Unmarshal articleRaw ;;
  Ok (map ToTranslation (HtmlTable.TBody htmlTable)).

(** ** The document navigator: [parsePage] after [json.Unmarshal]

    A value decoded by [json.Unmarshal] into [any]: nil, bool, float64
    (numbers are not inspected, kept as [Z]), string, [[]any] or
    [map[string]any].  A map is an association list with distinct keys. *)

#[warnings="-register-all"]
Inductive json : Type :=
  | JNull
  | JBool (b : bool)
  | JNumber (n : Z)
  | JString (s : string)
  | JArray (xs : list json)
  | JObject (kvs : list (string * json)).

Module Navigator.

(** [m[key]] with the comma-ok form: [None] when the key is absent. *)
Fixpoint lookup (m : list (string * json)) (key : string) : option json :=
  match m with
  | [] => None
  | (k, v) :: m' => if String.eqb k key then Some v else lookup m' key
  end.

(** Type assertions; an absent key yields nil, which fails them all. *)
Definition as_map (v : option json) : result (list (string * json)) :=
  match v with Some (JObject m) => Ok m | _ => Err ErrTypeAssertion end.
Definition as_slice (v : option json) : result (list json) :=
  match v with Some (JArray xs) => Ok xs | _ => Err ErrTypeAssertion end.
Definition as_string (v : option json) : result string :=
  match v with Some (JString s) => Ok s | _ => Err ErrTypeAssertion end.

(** [getMap(jsonMap, path...)] *)
Fixpoint getMap (m : list (string * json)) (path : list string)
  : result (list (string * json)) :=
  match path with
  | [] => Err ErrSliceOutOfRange   (* path[0] *)
  | [p] => as_map (lookup m p)
  | p :: path' => m' <- as_map (lookup m p) ;; getMap m' path'
  end.

(** [getString(jsonMap, path...)] *)
Fixpoint getString (m : list (string * json)) (path : list string) : result string :=
  match path with
  | [] => Err ErrSliceOutOfRange
  | [p] => as_string (lookup m p)
  | p :: path' => m' <- as_map (lookup m p) ;; getString m' path'
  end.

(** [getSlice(jsonMap, path)] *)
Definition getSlice (m : list (string * json)) (path : string) : result (list json) :=
  as_slice (lookup m path).

(** The first loop of [parsePage]: the first block whose map has the key
    "tabs" gives [tabsSlice]; every block before it must be a map.  With
    no such block [tabsSlice] stays nil. *)
Fixpoint find_tabs (blocks : list json) : result (list json) :=
  match blocks with
  | [] => Ok []
  | block :: blocks' =>
      bm <- as_map (Some block) ;;
      match lookup bm "tabs" with
      | Some tabs => tm <- as_map (Some tabs) ;; getSlice tm "tabs"
      | None => find_tabs blocks'
      end
  end.

Section Loops.
Variable A : Type.
(** The loop body's call on each fragment ([parseArticleRawHtml]). *)
Variable parse_fragment : string -> result (list A).

(** [for _, block := range blocks { articleRaw := getString(...); ... }] *)
Fixpoint loop_blocks (blocks : list json) : result (list A) :=
  match blocks with
  | [] => Ok []
  | block :: blocks' =>
      bm <- as_map (Some block) ;;
      articleRaw <- getString bm ["richTextEditor"; "articleRawHtml"]%string ;;
      xs <- parse_fragment articleRaw ;;
      ys <- loop_blocks blocks' ;;
      Ok (xs ++ ys)
  end.

(** [for _, tab := range tabsSlice { blocks := tab["blocks"]; ... }] *)
Fixpoint loop_tabs (tabs : list json) : result (list A) :=
  match tabs with
  | [] => Ok []
  | tab :: tabs' =>
      tm <- as_map (Some tab) ;;
      blocks <- as_slice (lookup tm "blocks") ;;
      xs <- loop_blocks blocks ;;
      ys <- loop_tabs tabs' ;;
      Ok (xs ++ ys)
  end.

(** Lines 66-85 of [parsePage], on the decoded [jsonMap]. *)
Definition parse_page_with (jsonMap : list (string * json)) : result (list A) :=
  pp <- getMap jsonMap ["props"; "pageProps"]%string ;;
  blocks <- getSlice pp "blocks" ;;
  tabsSlice <- find_tabs blocks ;;
  loop_tabs tabsSlice.

End Loops.

(** The fragments [parsePage] hands to [parseArticleRawHtml], in order. *)
Definition fragments (jsonMap : list (string * json)) : result (list string) :=
  parse_page_with string (fun s => Ok [s]) jsonMap.

End Navigator.

(** [parsePage] from the decoded JSON map. *)
Definition parsePage (jsonMap : list (string * json)) : result (list Translation.t) :=
  Navigator.parse_page_with Translation.t parseArticleRawHtml jsonMap.

(** ** [sort.SliceStable]

    Go's [stable_func]: insertion sort on blocks of 20 elements, then
    rounds of [symMerge] over pairs of adjacent sorted blocks of doubling
    size.  Each routine works on a sub-slice [data[a:b]]; it is modelled on
    that sub-slice as a list, so [a] is 0 and [b] its length. *)

Module GoSort.
Section Sort.
Variable A : Type.
Variable less : A -> A -> bool.

(** [less(data[i], data[j])] *)
Definition lessAt (d : list A) (i j : nat) : bool :=
  match nth_error d i, nth_error d j with
  | Some x, Some y => less x y
  | _, _ => false
  end.

(** The swaps [for j := i; j > a && less(data[j], data[j-1]); j--] move
    [x] down the sorted prefix, given here last element first. *)
Fixpoint sink (x : A) (rprefix : list A) : list A :=
  match rprefix with
  | [] => [x]
  | y :: r => if less x y then y :: sink x r else x :: y :: r
  end.

(** [insertionSort_func] *)
Definition insertionSort (d : list A) : list A :=
  rev (fold_left (fun r x => sink x r) d []).

(** The binary search [for i < j { h := (i+j)/2; if p(h) { i = h+1 } else { j = h } }] *)
Fixpoint search (fuel : nat) (i j : nat) (p : nat -> bool) : nat :=
  match fuel with
  | O => i
  | S fuel' =>
      if (i <? j)%nat then
        let h := ((i + j) / 2)%nat in
        if p h then search fuel' (S h) j p else search fuel' i h p
      else i
  end.

(** [data[i:j]] *)
Definition sub (d : list A) (i j : nat) : list A := firstn (j - i) (skipn i d).

(** [rotate_func(data, a, m, b)]: swaps the blocks [data[a:m]] and [data[m:b]]. *)
Definition rotate (d : list A) (a m b : nat) : list A :=
  firstn a d ++ sub d m b ++ sub d a m ++ skipn b d.

(** [symMerge_func(data, 0, m, len(data))] *)
Fixpoint symMerge (fuel : nat) (d : list A) (m : nat) : list A :=
  match fuel with
  | O => d
  | S fuel' =>
  let b := List.length d in
  if (m =? 1)%nat then
    (* insert data[a] into data[m:b]: data[a] moves to position i-1 *)
    let i := search b 1 b (fun h => lessAt d h 0) in
    sub d 1 i ++ firstn 1 d ++ skipn i d
  else if (b - m =? 1)%nat then
    (* insert data[m] into data[a:m]: data[m] moves to position i *)
    let i := search b 0 m (fun h => negb (lessAt d m h)) in
    firstn i d ++ skipn m d ++ sub d i m
  else
    let mid := (b / 2)%nat in
    let n := (mid + m)%nat in
    let '(start, r) := if (mid <? m)%nat then ((n - b)%nat, mid) else (0%nat, m) in
    let p := (n - 1)%nat in
    let start := search b start r (fun c => negb (lessAt d (p - c) c)) in
    let end_ := (n - start)%nat in
    let d := if (start <? m)%nat && (m <? end_)%nat then rotate d start m end_ else d in
    let d := if (0 <? start)%nat && (start <? mid)%nat
             then symMerge fuel' (firstn mid d) start ++ skipn mid d else d in
    if (mid <? end_)%nat && (end_ <? b)%nat
    then firstn mid d ++ symMerge fuel' (skipn mid d) (end_ - mid) else d
  end.

(** The first loop of [stable_func]: insertion sort on each block. *)
Fixpoint insertion_blocks (fuel : nat) (blockSize : nat) (d : list A) : list A :=
  match fuel with
  | O => insertionSort d
  | S fuel' =>
      if (blockSize <=? List.length d)%nat && (0 <? blockSize)%nat
      then insertionSort (firstn blockSize d) ++
           insertion_blocks fuel' blockSize (skipn blockSize d)
      else insertionSort d
  end.

(** One round of the second loop: [symMerge(data, a, a+blockSize, b)] over
    pairs of blocks, then the tail if it is longer than one block. *)
Fixpoint merge_round (fuel : nat) (blockSize : nat) (d : list A) : list A :=
  match fuel with
  | O => d
  | S fuel' =>
      if (2 * blockSize <=? List.length d)%nat && (0 <? blockSize)%nat then
        symMerge (2 * blockSize) (firstn (2 * blockSize) d) blockSize ++
        merge_round fuel' blockSize (skipn (2 * blockSize) d)
      else if (blockSize <? List.length d)%nat
      then symMerge (List.length d) d blockSize
      else d
  end.

(** [for blockSize < n { ...; blockSize *= 2 }] *)
Fixpoint merge_rounds (fuel : nat) (blockSize : nat) (d : list A) : list A :=
  match fuel with
  | O => d
  | S fuel' =>
      if (blockSize <? List.length d)%nat
      then merge_rounds fuel' (2 * blockSize) (merge_round (List.length d) blockSize d)
      else d
  end.

(** [sort.SliceStable(x, less)] *)
Definition SliceStable (d : list A) : list A :=
  merge_rounds (List.length d) 20 (insertion_blocks (List.length d) 20 d).

End Sort.
End GoSort.

(** ** [main], between fetching the page and writing the reports *)

(** [for _, tr := range translations { res = append(res, tr.ToTypedTranslation()) }]:
    the first panic aborts the run. *)
Fixpoint map_result {A B} (f : A -> result B) (xs : list A) : result (list B) :=
  match xs with
  | [] => Ok []
  | x :: xs' => y <- f x ;; ys <- map_result f xs' ;; Ok (y :: ys)
  end.

(** The comparator [res[i].AlmatyTime.Before(res[j].AlmatyTime)]. *)
Definition by_almaty (x y : TypedTranslation.t) : bool :=
  GoTime.Before (TypedTranslation.AlmatyTime x) (TypedTranslation.AlmatyTime y).

Definition main_records (local : GoTime.location) (jsonMap : list (string * json))
  : result (list TypedTranslation.t) :=
  translations <- parsePage jsonMap ;;
  res <- map_result (ToTypedTranslation local) translations ;;
  Ok (GoSort.SliceStable TypedTranslation.t by_almaty res).

(** ** [parsePage], lines 56-59: the JSON text between the markers *)

Module PageText.
Import GoStrings GoParse.

(** [strings.Index(s, substr)]: the first position at which [substr]
    occurs in [s], counted from [i]; -1 if it does not occur. *)
Fixpoint index_from (s substr : string) (i : Z) : Z :=
  if has_prefix s substr then i
  else match s with
       | EmptyString => -1
       | String _ s' => index_from s' substr (i + 1)
       end.

Definition Index (s substr : string) : Z := index_from s substr 0.

(** Go's slice expression [s[n:]], which panics unless [0 <= n <= len(s)]. *)
Definition slice_from (s : string) (n : Z) : result string :=
  if (0 <=? n) && (n <=? Z.of_nat (String.length s))
  then Ok (drop (Z.to_nat n) s)
  else Err ErrSliceOutOfRange.

Definition dq : string := String "034" EmptyString.

(** The constants [prefix] and [suffix]. *)
Definition prefix : string :=
  ("<script id=" ++ dq ++ "__NEXT_DATA__" ++ dq ++ " type=" ++ dq ++
   "application/json" ++ dq ++ ">")%string.
Definition suffix : string := "</script>".

(** [jsonString], the text [parsePage] hands to [json.Unmarshal]. *)
Definition jsonString (bodyString : string) : result string :=
  let prefixIdx := Index bodyString prefix in
  bodyString <- slice_from bodyString (prefixIdx + Z.of_nat (String.length prefix)) ;;
  let suffixIdx := Index bodyString suffix in
  slice_to bodyString suffixIdx.

End PageText.

(** ** [reportCsv]: the text written to overwatch-translations.csv *)

Module Report.
Import GoTime.

Definition digit (u : Z) : ascii := ascii_of_nat (Z.to_nat (48 + u)).

(** The decimal digits of [u >= 0] before [acc] (an [int] has at most 19). *)
Fixpoint decimal_fuel (fuel : nat) (u : Z) (acc : string) : string :=
  match fuel with
  | O => acc
  | S fuel' =>
      if u <? 10 then String (digit u) acc
      else decimal_fuel fuel' (u / 10) (String (digit (u mod 10)) acc)
  end.

(** [appendInt(b, x, 2)]: a sign, then two digits, or all the digits of a
    number above 99. *)
Definition appendInt2 (x : Z) : string :=
  let sign := if x <? 0 then "-"%string else EmptyString in
  let u := Z.abs x in
  String.append sign
    (if u <? 100 then String (digit (u / 10)) (String (digit (u mod 10)) EmptyString)
     else decimal_fuel 20 u EmptyString).

(** [month.String()[:3]] for the months 1 to 12. *)
Definition month_abbr (m : Z) : string :=
  nth (Z.to_nat (m - 1))
      ["Jan"; "Feb"; "Mar"; "Apr"; "May"; "Jun";
       "Jul"; "Aug"; "Sep"; "Oct"; "Nov"; "Dec"]%string EmptyString.

(** The [stdTZ] element: the zone's name, or its offset as -0700 when the
    name is empty. *)
Definition zone_text (zi : zone_info) : string :=
  if String.eqb (zi_name zi) EmptyString then
    let zone := Z.quot (zi_offset zi) 60 in
    let sign := if zone <? 0 then "-"%string else "+"%string in
    let hh := appendInt2 (Z.abs zone / 60) in
    let mm := appendInt2 (Z.abs zone mod 60) in
    (sign ++ hh ++ mm)%string
  else zi_name zi.

(** [t.Format("02 Jan 06 15:04 MST")] *)
Definition Format (t : time) : string :=
  let zi := loc_lookup (loc t) (unix t) in
  let '(year, month, day, hour, min) := wall_clock t in
  let yy := appendInt2 (Z.abs year mod 100) in
  (appendInt2 day ++ " " ++ month_abbr month ++ " " ++ yy ++ " " ++
   appendInt2 hour ++ ":" ++ appendInt2 min ++ " " ++ zone_text zi)%string.

Definition crlf : string := String "013" (String "010" EmptyString).

Definition header : string :=
  ("Almaty Time,Tournament,Region,Broadcast,Original Time,Original Date" ++ crlf)%string.

(** [fmt.Sprintf("%v,%s,%s,%s,%v,%s\r\n", ...)] for one record. *)
Definition line (tr : TypedTranslation.t) : string :=
  (Format (TypedTranslation.AlmatyTime tr) ++ "," ++
   TypedTranslation.Tournament tr ++ "," ++ TypedTranslation.Region tr ++ "," ++
   TypedTranslation.Broadcast tr ++ "," ++
   Format (TypedTranslation.OriginalTime tr) ++ "," ++
   TypedTranslation.OriginalDate tr ++ crlf)%string.

(** [csv := header; for _, translation := range res { csv += ... }] *)
Definition reportCsv (res : list TypedTranslation.t) : string :=
  fold_left (fun csv tr => (csv ++ line tr)%string) res header.

End Report.

(** * Inputs and observations used by the properties *)

Definition result_map {A B} (f : A -> B) (r : result A) : result B :=
  match r with Ok a => Ok (f a) | Err e => Err e end.

(** A computation that can fail only the way [time.Parse] fails. *)
Definition only_parse_errors {A} (r : result A) : Prop :=
  forall e, r = Err e -> e = ErrParse.

(** A fragment whose one row carries the label [dateBody] twice. *)
Definition two_dates_fragment : string :=
  "<table><tbody><tr><td class='dateBody'>first</td><td class='dateBody'>last</td></tr></tbody></table>".

(** The record of the spec's example: 03-15-2024, 6:00 PM Pacific time. *)
Definition summer_showdown : Translation.t :=
  Translation.mk "03-15-2024" "Summer Showdown" "NA" "6:00 PM PT" "Twitch".

(** A record whose time is the bare marker "PT". *)
Definition bare_marker : Translation.t :=
  Translation.mk "03-15-2024" "Summer Showdown" "NA" "PT" "Twitch".

(** A record whose time carries an abbreviation no zone table knows. *)
Definition unknown_abbreviation : Translation.t :=
  Translation.mk "03-15-2024" "Summer Showdown" "NA" "6:00 PM XXX" "Twitch".

(** A content block holding the fragment [s] at
    richTextEditor.articleRawHtml. *)
Definition article_block (blk : json) (s : string) : Prop :=
  exists bm rm, blk = JObject bm /\
    Navigator.lookup bm "richTextEditor" = Some (JObject rm) /\
    Navigator.lookup rm "articleRawHtml" = Some (JString s).

(** A tab whose content blocks hold the fragments [ss], in order. *)
Definition tab_articles (tab : json) (ss : list string) : Prop :=
  exists tm bl, tab = JObject tm /\
    Navigator.lookup tm "blocks" = Some (JArray bl) /\
    Forall2 article_block bl ss.

(** A block map without the marker key "tabs". *)
Definition unmarked_block (b : json) : Prop :=
  exists m, b = JObject m /\ Navigator.lookup m "tabs" = None.

Definition article (s : string) : json :=
  JObject [("richTextEditor", JObject [("articleRawHtml", JString s)])]%string.

(** A page: a banner block, the schedule block, then a block that is not
    even a map; the schedule has two tabs with three fragments. *)
Definition sample_page : list (string * json) :=
  [("buildId", JString "x");
   ("props", JObject [("pageProps", JObject
     [("blocks", JArray
       [JObject [("banner", JObject [("title", JString "Schedule")])];
        JObject [("id", JNumber 7);
                 ("tabs", JObject [("tabs", JArray
                    [JObject [("title", JString "Week 1");
                              ("blocks", JArray [article "f1"; article "f2"])];
                     JObject [("blocks", JArray [article "f3"])]])])];
        JNull])])])]%string.

(** A fragment with a bare ampersand in a cell. *)
Definition ampersand_fragment : string :=
  "<table><tbody><tr><td class='tournamentBody'>A&B</td></tr></tbody></table>".

(** A fragment with a declaration and an ampersand in a CDATA section. *)
Definition cdata_ampersand_fragment : string :=
  "<?xml version='1.0'?><table><tbody><tr><td class='tournamentBody'><![CDATA[A&B]]></td></tr></tbody></table>".

(** [nd] with the nodes [xs] put among its children, after the first [k]. *)
Definition insert_children (k : nat) (xs : list GoXml.node) (nd : GoXml.node)
  : GoXml.node :=
  match nd with
  | GoXml.Elem n a cs => GoXml.Elem n a (firstn k cs ++ xs ++ skipn k cs)
  | GoXml.Text d => GoXml.Text d
  end.

(** The elements left open after [GoXml.build] reads the tokens [toks]
    from the open elements [stk], or [None] when it stops within them (an
    error, or the first element closed). *)
Fixpoint open_after (stk : list GoXml.frame) (toks : list GoXml.token)
  : option (list GoXml.frame) :=
  match toks with
  | [] => Some stk
  | t :: rest =>
      match t with
      | GoXml.TErr => None
      | GoXml.TStart n a => open_after ((n, a, []) :: stk) rest
      | GoXml.TEnd n =>
          match stk with
          | [] => None
          | (m, a, cs) :: stk' =>
              if String.eqb n m then
                match stk' with
                | [] => None
                | f :: stk'' => open_after (GoXml.add_child (GoXml.Elem m a (rev cs)) f :: stk'') rest
                end
              else None
          end
      | GoXml.TChar d =>
          match stk with
          | [] => open_after [] rest
          | f :: stk' => open_after (GoXml.add_child (GoXml.Text d) f :: stk') rest
          end
      | GoXml.TOther => open_after stk rest
      end
  end.

(** A fragment whose head leaves a [tr] unclosed, and the same fragment
    with an empty head. *)
Definition malformed_head_fragment : string :=
  "<table><thead><tr></thead><tbody><tr><td class='dateBody'>03-15-2024</td></tr></tbody></table>".
Definition empty_head_fragment : string :=
  "<table><thead></thead><tbody><tr><td class='dateBody'>03-15-2024</td></tr></tbody></table>".

(** The start of a fragment up to its head: a declaration, the table
    element and a first child; a well-formed head, with an ampersand, and
    a body. *)
Definition sample_prefix : string :=
  "<?xml version='1.0' encoding='UTF-8'?> <table class='schedule'><!-- week 12 --><caption>Week 12</caption>".
Definition sample_head : string :=
  " <thead><tr><th>Date</th><th>Q&A</th></tr></thead>".
Definition sample_body : string :=
  "<tbody><tr><td class='dateBody'>03-15-2024</td></tr></tbody></table>".

(** Orderings by an integer key: sorted, the elements of one key in
    order, the stable merge of two sequences, and a sequence made of sorted
    blocks of [bs] elements (the state of [stable_func] between rounds). *)
Definition key_sorted {A} (key : A -> Z) (l : list A) : Prop :=
  StronglySorted (fun x y => key x <= key y) l.
Definition key_class {A} (key : A -> Z) (k : Z) (l : list A) : list A :=
  filter (fun x => key x =? k) l.
Definition stable_merge {A} (key : A -> Z) (u v w : list A) : Prop :=
  key_sorted key w /\
  forall k, key_class key k w = key_class key k u ++ key_class key k v.
Inductive sorted_blocks {A} (key : A -> Z) (bs : nat) : list A -> Prop :=
  | sorted_blocks_last l :
      (List.length l <= bs)%nat -> key_sorted key l -> sorted_blocks key bs l
  | sorted_blocks_cons b l :
      List.length b = bs -> key_sorted key b -> sorted_blocks key bs l ->
      sorted_blocks key bs (b ++ l).

(** One fragment with three rows: the second, at 6:00 PM Pacific time
    (01:00 UTC the next day), and the third, at 1:00 AM UTC that day, are
    at the same instant; the first row is an hour later. *)
Definition tie_fragment : string :=
  "<table><tbody><tr><td class='dateBody'>03-15-2024</td><td class='tournamentBody'>First</td><td class='timeBody'>7:00 PM PT</td></tr><tr><td class='dateBody'>03-15-2024</td><td class='tournamentBody'>Second</td><td class='timeBody'>6:00 PM PT</td></tr><tr><td class='dateBody'>03-16-2024</td><td class='tournamentBody'>Third</td><td class='timeBody'>1:00 AM UTC</td></tr></tbody></table>".

Definition tie_page : list (string * json) :=
  [("props", JObject [("pageProps", JObject
     [("blocks", JArray
       [JObject [("tabs", JObject [("tabs", JArray
          [JObject [("blocks", JArray [article tie_fragment])]])])]])])])]%string.

(** A page whose blocks are [before], then a schedule block with one tab
    holding the fragments [frags]. *)
Definition schedule_page (before : list json) (frags : list string)
  : list (string * json) :=
  [("props", JObject [("pageProps", JObject
     [("blocks", JArray
       (before ++ [JObject [("tabs", JObject [("tabs", JArray
          [JObject [("blocks", JArray (map article frags))]])])]]))])])]%string.

(** A page with a banner block and no schedule block. *)
Definition no_schedule_page : list (string * json) :=
  [("props", JObject [("pageProps", JObject
     [("blocks", JArray
       [JObject [("banner", JObject [("title", JString "Schedule")])]])])])]%string.

(** A fragment cut short after its [tbody] start tag. *)
Definition truncated_fragment : string := "<table><tbody>".

(** A fragment whose second row has the hour 13 with PM and whose third
    row is the bare marker. *)
Definition bad_hour_fragment : string :=
  "<table><tbody><tr><td class='dateBody'>03-15-2024</td><td class='timeBody'>6:00 PM PT</td></tr><tr><td class='dateBody'>03-15-2024</td><td class='timeBody'>13:00 PM PT</td></tr><tr><td class='dateBody'>03-15-2024</td><td class='timeBody'>PT</td></tr></tbody></table>".

(** Text without the byte '&', and the parts of the decoder's state,
    tokens, trees and records that are all such text. *)
Definition amp_free (s : string) : Prop := GoStrings.contains_char s "&" = false.

Definition attrs_amp_free (a : list (string * string)) : Prop :=
  Forall (fun p => amp_free (fst p) /\ amp_free (snd p)) a.

Definition lex_amp_free (st : GoXml.lexstate) : Prop :=
  match st with
  | GoXml.LText raw => amp_free raw
  | GoXml.LStartName n | GoXml.LEndName n | GoXml.LEndSpace n => amp_free n
  | GoXml.LInTag n a | GoXml.LSlash n a => amp_free n /\ attrs_amp_free a
  | GoXml.LAttrName n a an | GoXml.LAttrEq n a an | GoXml.LAttrQuote n a an =>
      amp_free n /\ attrs_amp_free a /\ amp_free an
  | GoXml.LAttrVal n a an _ raw =>
      amp_free n /\ attrs_amp_free a /\ amp_free an /\ amp_free raw
  | GoXml.LCData raw _ _ => amp_free raw
  | _ => True
  end.

Definition token_amp_free (t : GoXml.token) : Prop :=
  match t with
  | GoXml.TStart n a => amp_free n /\ attrs_amp_free a
  | GoXml.TEnd n => amp_free n
  | GoXml.TChar d => amp_free d
  | _ => True
  end.

#[warnings="-register-all"]
Inductive node_amp_free : GoXml.node -> Prop :=
  | node_amp_free_elem n a cs :
      amp_free n -> attrs_amp_free a -> Forall node_amp_free cs ->
      node_amp_free (GoXml.Elem n a cs)
  | node_amp_free_text d : amp_free d -> node_amp_free (GoXml.Text d).

Definition frame_amp_free (f : GoXml.frame) : Prop :=
  let '(n, a, cs) := f in amp_free n /\ attrs_amp_free a /\ Forall node_amp_free cs.

Definition td_amp_free (td : Td) : Prop := amp_free (Key td) /\ amp_free (Value td).

Definition translation_amp_free (t : Translation.t) : Prop :=
  amp_free (Translation.Date t) /\ amp_free (Translation.Tournament t) /\
  amp_free (Translation.Region t) /\ amp_free (Translation.Time t) /\
  amp_free (Translation.Broadcast t).

(** How many times the character [c] occurs in [s]. *)
Fixpoint count_char (c : ascii) (s : string) : nat :=
  match s with
  | EmptyString => 0
  | String d s' => (if Ascii.eqb d c then 1 else 0) + count_char c s'
  end.

(** The name of the zone in force at [t] in [t]'s location: what the
    [MST] element of a layout prints when it is not empty. *)
Definition zone_name (t : GoTime.time) : string :=
  GoTime.zi_name (GoTime.loc_lookup (GoTime.loc t) (GoTime.unix t)).

(** The commas and line feeds of the fields one CSV line copies verbatim. *)
Definition field_chars (c : ascii) (tr : TypedTranslation.t) : nat :=
  count_char c (zone_name (TypedTranslation.AlmatyTime tr)) +
  count_char c (TypedTranslation.Tournament tr) +
  count_char c (TypedTranslation.Region tr) +
  count_char c (TypedTranslation.Broadcast tr) +
  count_char c (zone_name (TypedTranslation.OriginalTime tr)) +
  count_char c (TypedTranslation.OriginalDate tr).

(** The five classes [ToTranslation] reads. *)
Definition field_names : list string :=
  ["dateBody"; "tournamentBody"; "regionBody"; "timeBody"; "broadcastBody"]%string.

Definition known_cell (td : Td) : bool := existsb (String.eqb (Key td)) field_names.

(** * Properties *)

Ltac split_ifs :=
  repeat match goal with
  | |- context [if ?b then _ else _] => destruct b
  end.

(** ** Row lookup *)

Lemma get_field_tds_app_skip (pre rest : list Td) (name : string) :
  Forall (fun t => Key t <> name) pre ->
  get_field_tds (pre ++ rest) name = get_field_tds rest name.
Proof.
  induction 1 as [|t pre' Hne _ IH]; [reflexivity|].
  simpl. destruct (String.eqb_spec (Key t) name); [contradiction|exact IH].
Qed.

(** C3 (as stated, refuted): with [dateBody] twice in a row, the record's
    date is the text of the first cell, not of the last one. *)
Lemma C3_last_occurrence_counterexample :
  result_map (map Translation.Date) (parseArticleRawHtml two_dates_fragment)
    = Ok ["first"%string] /\
  result_map (map Translation.Date) (parseArticleRawHtml two_dates_fragment)
    <> Ok ["last"%string].
Proof. vm_compute. split; [reflexivity | discriminate]. Qed.

(** C3 (amended): when a label occurs more than once among a row's cells,
    [GetField] returns the text of the first occurrence in parse order, and
    that is the value [ToTranslation] stores for it. *)
Theorem C3_GetField_first_occurrence (pre post : list Td) (td : Td) (name : string) :
  Key td = name ->
  Forall (fun t => Key t <> name) pre ->
  GetField (mkTr (pre ++ td :: post)) name = Value td /\
  (name = "dateBody"%string ->
   Translation.Date (ToTranslation (mkTr (pre ++ td :: post))) = Value td).
Proof.
  intros Hk Hpre.
  assert (H : GetField (mkTr (pre ++ td :: post)) name = Value td).
  { unfold GetField; simpl. rewrite get_field_tds_app_skip by exact Hpre.
    simpl. rewrite Hk, String.eqb_refl. reflexivity. }
  split; [exact H|]. intros ->. exact H.
Qed.

Lemma C3_GetField_first_occurrence_witness :
  let pre := [mkTd "regionBody" "NA"] in
  let post := [mkTd "dateBody" "last"] in
  let td := mkTd "dateBody" "first" in
  GetField (mkTr (pre ++ td :: post)) "dateBody" = Value td /\
  ("dateBody"%string = "dateBody"%string ->
   Translation.Date (ToTranslation (mkTr (pre ++ td :: post))) = Value td).
Proof.
  intros pre post td.
  apply (C3_GetField_first_occurrence pre post td "dateBody").
  - reflexivity.
  - constructor; [discriminate | constructor].
Defined.

(** C4: a label that no cell of the row carries yields the empty string;
    [GetField] is a total function, it cannot fail. *)
Theorem C4_GetField_missing_is_empty (tr : Tr) (name : string) :
  (forall td, List.In td (Tr_Td tr) -> Key td <> name) ->
  GetField tr name = EmptyString.
Proof.
  unfold GetField. destruct tr as [tds]; simpl.
  induction tds as [|t tds IH]; intros Hnot; [reflexivity|].
  simpl. destruct (String.eqb_spec (Key t) name).
  - exfalso. apply (Hnot t); [left; reflexivity | assumption].
  - apply IH. intros td Hin. apply Hnot. right. exact Hin.
Qed.

Lemma C4_GetField_missing_is_empty_witness :
  GetField (mkTr [mkTd "dateBody" "03-15-2024"]) "broadcastBody" = EmptyString.
Proof.
  apply C4_GetField_missing_is_empty.
  intros td [<-|[]]. discriminate.
Defined.


(** ** Time resolution *)

Section TimeFacts.
Import GoStrings GoTime GoParse.

(** C6: the Almaty time of a resolved record is the same instant as its
    source time ([Equal] holds and the Unix seconds agree); the conversion
    replaces only the location, which becomes Asia/Almaty. *)
Theorem C6_almaty_same_instant (local : location) (r : Translation.t)
  (tt : TypedTranslation.t) :
  ToTypedTranslation local r = Ok tt ->
  Equal (TypedTranslation.AlmatyTime tt) (TypedTranslation.OriginalTime tt) = true /\
  unix (TypedTranslation.AlmatyTime tt) = unix (TypedTranslation.OriginalTime tt) /\
  loc (TypedTranslation.AlmatyTime tt) = almatyLocation.
Proof.
  unfold ToTypedTranslation.
  destruct (if has_suffix (Translation.Time r) "PT" then _ else _) as [t|e];
    cbn [bind]; [|discriminate].
  intros H; injection H as <-; cbn.
  unfold Equal. rewrite Z.eqb_refl. auto.
Qed.

Lemma C6_almaty_same_instant_witness :
  exists tt, ToTypedTranslation UTC summer_showdown = Ok tt /\
  Equal (TypedTranslation.AlmatyTime tt) (TypedTranslation.OriginalTime tt) = true /\
  unix (TypedTranslation.AlmatyTime tt) = unix (TypedTranslation.OriginalTime tt) /\
  loc (TypedTranslation.AlmatyTime tt) = almatyLocation.
Proof.
  destruct (ToTypedTranslation UTC summer_showdown) as [tt|e] eqn:E.
  - exists tt. split; [reflexivity|].
    exact (C6_almaty_same_instant UTC summer_showdown tt E).
  - assert (Hok : match ToTypedTranslation UTC summer_showdown with
                  | Ok _ => true | Err _ => false end = true)
      by (vm_compute; reflexivity).
    rewrite E in Hok. discriminate Hok.
Defined.

(** Every failure of [time.Parse] is a parse error, never a runtime panic. *)
Lemma skip_fuel_errors (f : nat) (v p : string) :
  only_parse_errors (skip_fuel f v p).
Proof.
  revert v p. induction f as [|f IH]; intros v p e H; cbn [skip_fuel] in H;
    [discriminate|].
  destruct p as [|c p']; [discriminate|].
  destruct (Ascii.eqb_spec c " ") as [->|Hc].
  - destruct v as [|c' v']; [exact (IH _ _ e H)|].
    destruct (Ascii.eqb c' " "); [exact (IH _ _ e H)|]. injection H as <-; auto.
  - assert (Hm : forall T (x y : T), match c with " "%char => x | _ => y end = y).
    { intros T x y. destruct c as [[] [] [] [] [] [] [] []]; try reflexivity.
      exfalso. apply Hc. reflexivity. }
    rewrite Hm in H.
    destruct v as [|c' v']; [injection H as <-; auto|].
    destruct (Ascii.eqb c' c); [exact (IH _ _ e H)|]. injection H as <-; auto.
Qed.

Lemma getnum_errors (s : string) (f : bool) : only_parse_errors (getnum s f).
Proof.
  intros e. unfold getnum. destruct s as [|c0 [|c1 r]]; split_ifs;
    intros H; try discriminate; injection H as <-; auto.
Qed.

Lemma parse_chunk_errors (c : chunk) (v : string) (st : pstate) :
  only_parse_errors (parse_chunk c v st).
Proof.
  intros e. destruct c; cbn [parse_chunk].
  - unfold skip. destruct (skip_fuel _ v s) as [v'|e'] eqn:E; cbn [bind];
      intros H; [discriminate|].
    injection H as <-. exact (skip_fuel_errors _ _ _ e' E).
  - split_ifs; [intros H; injection H as <-; auto|].
    destruct (atoi _); intros H; [discriminate|injection H as <-; auto].
  - destruct (getnum v true) as [mv|e'] eqn:E; cbn [bind];
      [split_ifs; intros H; [injection H as <-; auto|discriminate]|].
    intros H; injection H as <-; exact (getnum_errors _ _ _ E).
  - destruct (getnum v true) as [mv|e'] eqn:E; cbn [bind]; [intros H; discriminate|].
    intros H; injection H as <-; exact (getnum_errors _ _ _ E).
  - destruct (getnum v false) as [mv|e'] eqn:E; cbn [bind];
      [split_ifs; intros H; [injection H as <-; auto|discriminate]|].
    intros H; injection H as <-; exact (getnum_errors _ _ _ E).
  - destruct (getnum v true) as [mv|e'] eqn:E; cbn [bind];
      [split_ifs; intros H; [injection H as <-; auto|discriminate]|].
    intros H; injection H as <-; exact (getnum_errors _ _ _ E).
  - split_ifs; intros H; try discriminate; injection H as <-; auto.
  - split_ifs; [intros H; discriminate|].
    destruct (parseTimeZone v); intros H; [discriminate|injection H as <-; auto].
Qed.

Lemma parse_chunks_errors (l : list chunk) (v : string) (st : pstate) :
  only_parse_errors (parse_chunks l v st).
Proof.
  revert v st. induction l as [|c l IH]; intros v st e; cbn [parse_chunks].
  - destruct v; intros H; [discriminate|injection H as <-; auto].
  - destruct (parse_chunk c v st) as [vs|e'] eqn:E; cbn [bind].
    + apply IH.
    + intros H; injection H as <-. exact (parse_chunk_errors _ _ _ _ E).
Qed.

Lemma parse_errors (l : list chunk) (v : string) (d local : location) :
  only_parse_errors (parse l v d local).
Proof.
  intros e. unfold parse.
  destruct (parse_chunks l v init_pstate) as [st|e'] eqn:E; cbn [bind].
  - destruct (_ || _); [intros H; injection H as <-; auto|].
    destruct (z st); [discriminate|].
    destruct (negb _); [|discriminate].
    destruct (lookupName _ _ _); discriminate.
  - intros H; injection H as <-. exact (parse_chunks_errors _ _ _ _ E).
Qed.

(** The chunks other than the zone abbreviation leave the zone alone. *)
Lemma parse_chunk_keeps_zone (c : chunk) (v v' : string) (st st' : pstate) :
  c <> StdTZ ->
  parse_chunk c v st = Ok (v', st') ->
  z st' = z st /\ zoneName st' = zoneName st.
Proof.
  intros Hc. destruct c; cbn [parse_chunk].
  - destruct (skip v s); cbn [bind]; intros H; [|discriminate].
    injection H as _ <-; auto.
  - split_ifs; [discriminate|].
    destruct (atoi _); intros H; [|discriminate]. injection H as _ <-; auto.
  - destruct (getnum v true); cbn [bind]; [|discriminate].
    split_ifs; intros H; [discriminate|]. injection H as _ <-; auto.
  - destruct (getnum v true); cbn [bind]; [|discriminate].
    intros H; injection H as _ <-; auto.
  - destruct (getnum v false); cbn [bind]; [|discriminate].
    split_ifs; intros H; [discriminate|]. injection H as _ <-; auto.
  - destruct (getnum v true); cbn [bind]; [|discriminate].
    split_ifs; intros H; [discriminate|]. injection H as _ <-; auto.
  - split_ifs; intros H; try discriminate; injection H as _ <-; auto.
  - contradiction.
Qed.

Lemma parse_chunks_keeps_zone (l : list chunk) (v : string) (st st' : pstate) :
  Forall (fun c => c <> StdTZ) l ->
  parse_chunks l v st = Ok st' ->
  z st' = z st /\ zoneName st' = zoneName st.
Proof.
  intros Hl. revert v st. induction Hl as [|c l Hc _ IH]; intros v st; cbn [parse_chunks].
  - destruct v; intros H; [|discriminate]. injection H as <-; auto.
  - destruct (parse_chunk c v st) as [[v1 st1]|e] eqn:E; cbn [bind]; [|discriminate].
    intros H. destruct (IH _ _ H) as [H1 H2].
    destruct (parse_chunk_keeps_zone c v v1 st st1 Hc E) as [H3 H4].
    cbn [fst snd] in H1, H2. split; congruence.
Qed.

Lemma Date_loc (y mo d h mi s : Z) (l : location) : loc (Date y mo d h mi s l) = l.
Proof. unfold Date. cbv zeta. destruct (_ =? 0); reflexivity. Qed.

(** A time parsed in a location with a layout that has no zone element
    is in that location. *)
Lemma ParseInLocation_pt_loc (v : string) (l : location) (t : time) :
  ParseInLocation layout_pt v l = Ok t -> loc t = l.
Proof.
  unfold ParseInLocation, parse.
  destruct (parse_chunks layout_pt v init_pstate) as [st|e] eqn:E; cbn [bind];
    [|discriminate].
  destruct (parse_chunks_keeps_zone layout_pt v init_pstate st) as [Hz Hn];
    [repeat constructor; discriminate | exact E |].
  destruct (_ || _); [discriminate|].
  rewrite Hz, Hn. cbn. intros H; injection H as <-. apply Date_loc.
Qed.

(** C10: a time text ending in "PT" makes the record fail with a slice
    bounds panic (not a time-parse error) exactly when it is shorter than
    three bytes, that is when it is the bare marker "PT". *)
Theorem C10_short_pt_slice_panic (local : location) (r : Translation.t) :
  has_suffix (Translation.Time r) "PT" = true ->
  (ToTypedTranslation local r = Err ErrSliceOutOfRange <->
   (String.length (Translation.Time r) < 3)%nat).
Proof.
  intros Hs. unfold ToTypedTranslation. cbv zeta. rewrite Hs. unfold slice_to.
  destruct (Nat.lt_ge_cases (String.length (Translation.Time r)) 3) as [Hl|Hl].
  - replace ((0 <=? Z.of_nat (String.length (Translation.Time r)) - 3) &&
             (Z.of_nat (String.length (Translation.Time r)) - 3 <=?
              Z.of_nat (String.length (Translation.Time r)))) with false.
    + cbn [bind]. tauto.
    + symmetry. apply andb_false_intro1. apply Z.leb_gt. lia.
  - replace ((0 <=? Z.of_nat (String.length (Translation.Time r)) - 3) &&
             (Z.of_nat (String.length (Translation.Time r)) - 3 <=?
              Z.of_nat (String.length (Translation.Time r)))) with true.
    + cbn [bind].
      destruct (ParseInLocation _ _ laLocation) as [t|e] eqn:E; cbn [bind].
      * split; [discriminate | lia].
      * rewrite (parse_errors _ _ _ _ e E). split; [discriminate | lia].
    + symmetry. apply andb_true_intro. split; apply Z.leb_le; lia.
Qed.

Lemma C10_short_pt_slice_panic_witness :
  ToTypedTranslation UTC bare_marker = Err ErrSliceOutOfRange /\
  (ToTypedTranslation UTC bare_marker = Err ErrSliceOutOfRange <->
   (String.length (Translation.Time bare_marker) < 3)%nat).
Proof.
  assert (H : ToTypedTranslation UTC bare_marker = Err ErrSliceOutOfRange <->
              (String.length (Translation.Time bare_marker) < 3)%nat)
    by (apply C10_short_pt_slice_panic; vm_compute; reflexivity).
  split; [apply H; cbn; lia | exact H].
Defined.

(** C9: a time text ending in "PT" is resolved by dropping its last three
    bytes (the marker and the space before it) and parsing
    "date time-of-day" with the layout "01-02-2006 3:04 PM" in
    America/Los_Angeles; the result is the source instant, located in
    America/Los_Angeles. *)
Theorem C9_pt_parsed_in_los_angeles (local : location) (r : Translation.t) :
  has_suffix (Translation.Time r) "PT" = true ->
  (3 <= String.length (Translation.Time r))%nat ->
  result_map TypedTranslation.OriginalTime (ToTypedTranslation local r) =
    ParseInLocation layout_pt
      (Translation.Date r ++ " " ++
       substring 0 (String.length (Translation.Time r) - 3) (Translation.Time r))
      laLocation /\
  (forall t, ParseInLocation layout_pt
      (Translation.Date r ++ " " ++
       substring 0 (String.length (Translation.Time r) - 3) (Translation.Time r))
      laLocation = Ok t -> loc t = laLocation).
Proof.
  intros Hs Hl. split; [|intros t; apply ParseInLocation_pt_loc].
  unfold ToTypedTranslation. cbv zeta. rewrite Hs. unfold slice_to.
  replace ((0 <=? Z.of_nat (String.length (Translation.Time r)) - 3) &&
           (Z.of_nat (String.length (Translation.Time r)) - 3 <=?
            Z.of_nat (String.length (Translation.Time r)))) with true
    by (symmetry; apply andb_true_intro; split; apply Z.leb_le; lia).
  cbn [bind].
  replace (Z.to_nat (Z.of_nat (String.length (Translation.Time r)) - 3))
    with (String.length (Translation.Time r) - 3)%nat by lia.
  destruct (ParseInLocation _ _ laLocation); reflexivity.
Qed.

(** On the spec's example the source instant is 2024-03-15 18:00 in
    America/Los_Angeles (PDT, so 2024-03-16 01:00 UTC). *)
Lemma C9_pt_parsed_in_los_angeles_witness :
  (result_map TypedTranslation.OriginalTime (ToTypedTranslation UTC summer_showdown) =
    ParseInLocation layout_pt
      (Translation.Date summer_showdown ++ " " ++
       substring 0 (String.length (Translation.Time summer_showdown) - 3)
         (Translation.Time summer_showdown))
      laLocation /\
   (forall t, ParseInLocation layout_pt
      (Translation.Date summer_showdown ++ " " ++
       substring 0 (String.length (Translation.Time summer_showdown) - 3)
         (Translation.Time summer_showdown))
      laLocation = Ok t -> loc t = laLocation)) /\
  result_map (fun tt => (unix (TypedTranslation.OriginalTime tt),
                         wall_clock (TypedTranslation.OriginalTime tt),
                         loc_name (loc (TypedTranslation.OriginalTime tt))))
    (ToTypedTranslation UTC summer_showdown)
  = Ok (1710550800, (2024, 3, 15, 18, 0), "America/Los_Angeles"%string).
Proof.
  split.
  - apply C9_pt_parsed_in_los_angeles; [vm_compute; reflexivity | cbn; lia].
  - vm_compute. reflexivity.
Defined.

End TimeFacts.

(** ** Zone abbreviations in [time.Parse] *)

Section AbbreviationFacts.
Import GoStrings GoTime GoParse.


Lemma substring_full (s : string) : substring 0 (String.length s) s = s.
Proof. induction s as [|c s IH]; cbn; [reflexivity|]. now rewrite IH. Qed.

Lemma length_app (v w : string) :
  String.length (v ++ w) = (String.length v + String.length w)%nat.
Proof. induction v as [|c v IH]; cbn; [reflexivity|]. now rewrite IH. Qed.

Lemma substring_prefix_app (n : nat) (v w : string) :
  (n <= String.length v)%nat -> substring 0 n (v ++ w) = substring 0 n v.
Proof.
  revert n. induction v as [|c v IH]; intros n Hn; cbn in Hn |- *.
  - replace n with 0%nat by lia. destruct w; reflexivity.
  - destruct n as [|n]; [reflexivity|]. cbn. rewrite IH by lia. reflexivity.
Qed.

Lemma drop_0 (s : string) : drop 0 s = s.
Proof. unfold drop. rewrite Nat.sub_0_r. apply substring_full. Qed.

Lemma drop_app (n : nat) (v w : string) :
  (n <= String.length v)%nat -> drop n (v ++ w) = (drop n v ++ w)%string.
Proof.
  revert n. induction v as [|c v IH]; intros [|n] Hn; cbn in Hn.
  - now rewrite !drop_0.
  - lia.
  - now rewrite !drop_0.
  - unfold drop in *. cbn. apply IH. lia.
Qed.

Lemma space_match {T} (c : ascii) (x y : T) :
  c <> " "%char -> match c with " "%char => x | _ => y end = y.
Proof.
  intros Hc. destruct c as [[] [] [] [] [] [] [] []]; try reflexivity.
  exfalso. apply Hc. reflexivity.
Qed.

Lemma cutspace_app (v w : string) :
  cutspace v <> EmptyString -> cutspace (v ++ w) = (cutspace v ++ w)%string.
Proof.
  induction v as [|c v IH]; cbn; [congruence|].
  destruct (Ascii.eqb_spec c " ") as [->|Hc]; [exact IH|].
  rewrite !(space_match c _ _ Hc). reflexivity.
Qed.

Lemma skip_fuel_empty (f : nat) (p v' : string) :
  skip_fuel f EmptyString p = Ok v' -> v' = EmptyString.
Proof.
  revert p. induction f as [|f IH]; intros p H; cbn [skip_fuel] in H.
  - injection H as <-; reflexivity.
  - destruct p as [|c p]; [injection H as <-; reflexivity|].
    destruct (Ascii.eqb_spec c " ") as [->|Hc].
    + exact (IH _ H).
    + rewrite (space_match c _ _ Hc) in H. discriminate.
Qed.

Lemma skip_fuel_extend (f : nat) (v p w v' : string) :
  skip_fuel f v p = Ok v' -> v' <> EmptyString ->
  skip_fuel f (v ++ w) p = Ok (v' ++ w)%string.
Proof.
  revert v p v'. induction f as [|f IH]; intros v p v' H Hne; cbn [skip_fuel] in H |- *.
  - congruence.
  - destruct p as [|c p]; [congruence|].
    destruct (Ascii.eqb_spec c " ") as [->|Hc].
    + destruct v as [|c' v].
      * apply skip_fuel_empty in H. contradiction.
      * cbn [append]. destruct (Ascii.eqb c' " ") eqn:Ec; [|discriminate].
        change (String c' (v ++ w)) with (String c' v ++ w)%string.
        rewrite cutspace_app; [exact (IH _ _ _ H Hne)|].
        intros He. rewrite He in H. apply skip_fuel_empty in H. contradiction.
    + rewrite (space_match c _ _ Hc) in H. rewrite (space_match c _ _ Hc).
      destruct v as [|c' v]; [discriminate|].
      cbn [append]. destruct (Ascii.eqb c' c); [exact (IH _ _ _ H Hne)|discriminate].
Qed.

Lemma getnum_extend (v w v' : string) (f : bool) (n : Z) :
  getnum v f = Ok (n, v') -> v' <> EmptyString ->
  getnum (v ++ w) f = Ok (n, v' ++ w)%string.
Proof.
  unfold getnum. destruct v as [|c0 [|c1 r]]; cbn [append]; intros H Hne.
  - discriminate.
  - destruct (is_digit c0); [|discriminate]. destruct f; [discriminate|].
    injection H as _ <-. contradiction.
  - destruct (is_digit c0); [|discriminate].
    destruct (is_digit c1); [injection H as <- <-; reflexivity|].
    destruct f; [discriminate|]. injection H as <- <-; reflexivity.
Qed.

Lemma parse_chunk_extend (c : chunk) (v w v' : string) (st st' : pstate) :
  c <> StdTZ ->
  parse_chunk c v st = Ok (v', st') -> v' <> EmptyString ->
  parse_chunk c (v ++ w) st = Ok (v' ++ w, st')%string.
Proof.
  intros Hc H Hne. destruct c; cbn [parse_chunk] in H |- *.
  - unfold skip in H |- *. destruct (skip_fuel _ v s) as [v1|e] eqn:E; cbn [bind] in H;
      [|discriminate]. injection H as <- <-.
    rewrite (skip_fuel_extend _ _ _ w _ E Hne). reflexivity.
  - destruct (Nat.ltb_spec (String.length v) 4); [discriminate|].
    destruct v as [|c0 v]; [cbn in *; lia|].
    rewrite length_app.
    replace (starts_with_digit (String c0 v ++ w)) with (is_digit c0) by reflexivity.
    cbn [starts_with_digit] in H.
    destruct (Nat.ltb_spec (String.length (String c0 v) + String.length w) 4); [lia|].
    rewrite orb_false_l in H |- *. destruct (negb (is_digit c0)); [discriminate|].
    rewrite substring_prefix_app by lia.
    destruct (atoi _); [|discriminate]. injection H as <- <-.
    rewrite drop_app by lia. reflexivity.
  - destruct (getnum v true) as [[n v1]|e] eqn:E; cbn [bind fst snd] in H; [|discriminate].
    destruct ((n <=? 0) || (12 <? n)) eqn:Eb; [discriminate|]. injection H as <- <-.
    rewrite (getnum_extend _ w _ _ _ E Hne). cbn [bind fst snd]. rewrite Eb. reflexivity.
  - destruct (getnum v true) as [[n v1]|e] eqn:E; cbn [bind fst snd] in H; [|discriminate].
    injection H as <- <-. rewrite (getnum_extend _ w _ _ _ E Hne). reflexivity.
  - destruct (getnum v false) as [[n v1]|e] eqn:E; cbn [bind fst snd] in H; [|discriminate].
    destruct ((n <? 0) || (12 <? n)) eqn:Eb; [discriminate|]. injection H as <- <-.
    rewrite (getnum_extend _ w _ _ _ E Hne). cbn [bind fst snd]. rewrite Eb. reflexivity.
  - destruct (getnum v true) as [[n v1]|e] eqn:E; cbn [bind fst snd] in H; [|discriminate].
    destruct ((n <? 0) || (60 <=? n)) eqn:Eb; [discriminate|]. injection H as <- <-.
    rewrite (getnum_extend _ w _ _ _ E Hne). cbn [bind fst snd]. rewrite Eb. reflexivity.
  - destruct (Nat.ltb_spec (String.length v) 2); [discriminate|].
    rewrite length_app.
    destruct (Nat.ltb_spec (String.length v + String.length w) 2); [lia|].
    rewrite substring_prefix_app by lia. rewrite drop_app by lia.
    destruct (String.eqb _ "PM"); [injection H as <- <-; reflexivity|].
    destruct (String.eqb _ "AM"); [injection H as <- <-; reflexivity|discriminate].
  - contradiction.
Qed.

Lemma parse_chunk_PM_extend (v w v' : string) (st st' : pstate) :
  parse_chunk StdPM v st = Ok (v', st') ->
  parse_chunk StdPM (v ++ w) st = Ok (v' ++ w, st')%string.
Proof.
  cbn [parse_chunk]. intros H.
  destruct (Nat.ltb_spec (String.length v) 2); [discriminate|].
  rewrite length_app.
  destruct (Nat.ltb_spec (String.length v + String.length w) 2); [lia|].
  rewrite substring_prefix_app by lia. rewrite drop_app by lia.
  destruct (String.eqb _ "PM"); [injection H as <- <-; reflexivity|].
  destruct (String.eqb _ "AM"); [injection H as <- <-; reflexivity|discriminate].
Qed.

Lemma parse_chunks_cons_extend (c : chunk) (l l2 : list chunk) (w : string) (st' : pstate) :
  c <> StdTZ ->
  (forall s s', parse_chunks l EmptyString s <> Ok s') ->
  (forall v st, parse_chunks l v st = Ok st' ->
                parse_chunks (l ++ l2) (v ++ w) st = parse_chunks l2 w st') ->
  forall v st, parse_chunks (c :: l) v st = Ok st' ->
  parse_chunks ((c :: l) ++ l2) (v ++ w) st = parse_chunks l2 w st'.
Proof.
  intros Hc Hempty IH v st. cbn [parse_chunks app].
  destruct (parse_chunk c v st) as [[v1 s1]|e] eqn:E; cbn [bind fst snd]; [|discriminate].
  intros H.
  assert (Hne : v1 <> EmptyString) by (intros ->; exact (Hempty _ _ H)).
  rewrite (parse_chunk_extend c v w v1 st s1 Hc E Hne). cbn [bind fst snd].
  exact (IH _ _ H).
Qed.

Lemma parse_chunks_PM_extend (l2 : list chunk) (w : string) (st' : pstate) :
  forall v st, parse_chunks [StdPM] v st = Ok st' ->
  parse_chunks ([StdPM] ++ l2) (v ++ w) st = parse_chunks l2 w st'.
Proof.
  intros v st. cbn [parse_chunks app].
  destruct (parse_chunk StdPM v st) as [[v1 s1]|e] eqn:E; cbn [bind fst snd]; [|discriminate].
  destruct v1; [|discriminate]. intros H; injection H as <-.
  rewrite (parse_chunk_PM_extend v w EmptyString st s1 E). reflexivity.
Qed.

(** A value accepted by "01-02-2006 3:04 PM" can be followed by more
    text for more chunks. *)
Lemma parse_chunks_layout_pt_extend (l2 : list chunk) (v w : string) (st st' : pstate) :
  parse_chunks layout_pt v st = Ok st' ->
  parse_chunks (layout_pt ++ l2) (v ++ w) st = parse_chunks l2 w st'.
Proof.
  revert v st. unfold layout_pt.
  repeat (apply parse_chunks_cons_extend;
          [discriminate | intros s s'; cbn; discriminate | ]).
  apply parse_chunks_PM_extend.
Qed.


Lemma string_app_assoc (x y z : string) : (x ++ (y ++ z) = (x ++ y) ++ z)%string.
Proof. induction x as [|c x IH]; cbn; [reflexivity|]. now rewrite IH. Qed.

Lemma upper_eqb_false (a x : ascii) :
  is_upper a = true -> is_upper x = false -> Ascii.eqb a x = false.
Proof. intros Ha Hx. destruct (Ascii.eqb_spec a x) as [->|]; congruence. Qed.

Lemma parseTimeZone_upper3 (a b c : ascii) :
  is_upper a = true -> is_upper b = true -> is_upper c = true ->
  parseTimeZone (String a (String b (String c EmptyString))) = Some 3%nat.
Proof.
  intros Ha Hb Hc. unfold parseTimeZone. cbn [String.length substring].
  cbn [Nat.ltb Nat.leb andb].
  destruct (String.eqb _ "GMT"); [reflexivity|].
  unfold has_sign. rewrite !(upper_eqb_false a) by (assumption || reflexivity).
  cbn [orb count_upper]. rewrite Ha, Hb, Hc. reflexivity.
Qed.

Lemma tz_chunks_upper3 (a b c : ascii) (st : pstate) :
  is_upper a = true -> is_upper b = true -> is_upper c = true ->
  String a (String b (String c EmptyString)) <> "UTC"%string ->
  parse_chunks [Lit " "; StdTZ] (String " " (String a (String b (String c EmptyString)))) st
  = Ok (set_zoneName st (String a (String b (String c EmptyString)))).
Proof.
  intros Ha Hb Hc Hu.
  cbn [parse_chunks parse_chunk]. unfold skip. cbn [String.length skip_fuel].
  cbn [Ascii.eqb Bool.eqb cutspace].
  rewrite (space_match a) by (intros ->; discriminate Ha).
  cbn [skip_fuel bind fst snd parse_chunk String.length substring Nat.leb andb].
  destruct (String.eqb_spec (String a (String b (String c EmptyString))) "UTC");
    [contradiction|].
  cbn [andb]. rewrite parseTimeZone_upper3 by assumption.
  reflexivity.
Qed.


Lemma lookupName_absent (l : location) (name : string) (sec : Z) :
  Forall (fun zn => fst zn <> name) (loc_zone l) ->
  lookupName l name sec = None.
Proof.
  intros Hl. unfold lookupName.
  assert (H1 : forall f, find (fun zn => String.eqb (fst zn) name && f zn) (loc_zone l) = None).
  { intros f. induction Hl as [|zn zs Hz _ IH]; [reflexivity|]. cbn.
    destruct (String.eqb_spec (fst zn) name); [contradiction|exact IH]. }
  rewrite H1. clear H1.
  induction Hl as [|zn zs Hz _ IH]; [reflexivity|]. cbn.
  destruct (String.eqb_spec (fst zn) name); [contradiction|exact IH].
Qed.

(** C2 (amended): [time.Parse] does not reject an abbreviation it does
    not know.  A time text without the "PT" marker that ends in three
    upper-case letters other than "UTC", absent from the zone table of the
    process's local zone, is resolved: its date and time of day are read as
    UTC (offset 0) and the instant is placed in a made-up zone of that name
    with offset 0. *)
Theorem C2_unknown_abbreviation_fixed_zone (local : location) (r : Translation.t)
  (hm : string) (a b c : ascii) (t : time) :
  has_suffix (Translation.Time r) "PT" = false ->
  Translation.Time r = (hm ++ " " ++ String a (String b (String c EmptyString)))%string ->
  is_upper a = true -> is_upper b = true -> is_upper c = true ->
  String a (String b (String c EmptyString)) <> "UTC"%string ->
  Forall (fun zn => fst zn <> String a (String b (String c EmptyString))) (loc_zone local) ->
  ParseInLocation layout_pt (Translation.Date r ++ " " ++ hm) UTC = Ok t ->
  result_map TypedTranslation.OriginalTime (ToTypedTranslation local r) =
    Ok (mkTime (unix t) (FixedZone (String a (String b (String c EmptyString))) 0)).
Proof.
  intros Hs HT Ha Hb Hc Hu Hz Ht.
  unfold ToTypedTranslation. cbv zeta. rewrite Hs, HT.
  unfold ParseInLocation, Parse, parse in *.
  destruct (parse_chunks layout_pt (Translation.Date r ++ " " ++ hm) init_pstate)
    as [st|e] eqn:E; cbn [bind] in Ht; [|discriminate].
  destruct (parse_chunks_keeps_zone layout_pt (Translation.Date r ++ " " ++ hm)%string init_pstate st) as [Hz0 Hn0];
    [repeat constructor; discriminate | exact E |].
  unfold layout_mst.
  rewrite (string_app_assoc " " hm), (string_app_assoc (Translation.Date r) (" " ++ hm)).
  rewrite (parse_chunks_layout_pt_extend _ _ _ _ _ E).
  change (" " ++ String a (String b (String c EmptyString)))%string
    with (String " " (String a (String b (String c EmptyString)))).
  rewrite tz_chunks_upper3 by assumption. cbn [bind].
  destruct st as [y mo d h mi pm am zz zn]. cbn in Hz0, Hn0. subst zz zn.
  cbn [set_zoneName year month day hour min pmSet amSet z zoneName] in Ht |- *.
  destruct (_ || _); [discriminate|].
  cbn in Ht. injection Ht as <-.
  rewrite lookupName_absent by exact Hz. cbn. reflexivity.
Qed.

(** C2 (as stated, refuted): "6:00 PM XXX" does not fail; it resolves to
    2024-03-15 18:00 UTC in a zone named "XXX", whether the process runs
    in UTC or in America/Los_Angeles. *)
Lemma C2_unknown_abbreviation_counterexample :
  result_map (fun tt => (unix (TypedTranslation.OriginalTime tt),
                         loc_name (loc (TypedTranslation.OriginalTime tt))))
    (ToTypedTranslation UTC unknown_abbreviation)
  = Ok (1710525600, "XXX"%string) /\
  result_map (fun tt => (unix (TypedTranslation.OriginalTime tt),
                         loc_name (loc (TypedTranslation.OriginalTime tt))))
    (ToTypedTranslation laLocation unknown_abbreviation)
  = Ok (1710525600, "XXX"%string).
Proof. split; vm_compute; reflexivity. Qed.

Lemma C2_unknown_abbreviation_fixed_zone_witness :
  result_map TypedTranslation.OriginalTime
    (ToTypedTranslation laLocation unknown_abbreviation) =
  Ok (mkTime (unix (mkTime 1710525600 UTC)) (FixedZone "XXX" 0)).
Proof.
  apply (C2_unknown_abbreviation_fixed_zone laLocation unknown_abbreviation
           "6:00 PM" "X" "X" "X" (mkTime 1710525600 UTC)).
  - vm_compute. reflexivity.
  - reflexivity.
  - reflexivity.
  - reflexivity.
  - reflexivity.
  - discriminate.
  - repeat constructor; cbn; discriminate.
  - vm_compute. reflexivity.
Defined.

End AbbreviationFacts.

(** ** The document navigator *)

Lemma map_result_app {A B} (f : A -> result B) (xs ys : list A) :
  map_result f (xs ++ ys) =
  (a <- map_result f xs ;; b <- map_result f ys ;; Ok (a ++ b)).
Proof.
  induction xs as [|x xs IH]; cbn [app map_result bind].
  - destruct (map_result f ys); reflexivity.
  - destruct (f x); cbn [bind]; [|reflexivity].
    rewrite IH. destruct (map_result f xs); cbn [bind]; [|reflexivity].
    destruct (map_result f ys); reflexivity.
Qed.

Lemma find_tabs_scan (pre post : list json) (tb tabsm : list (string * json)) :
  Forall unmarked_block pre ->
  Navigator.lookup tb "tabs" = Some (JObject tabsm) ->
  Navigator.find_tabs (pre ++ JObject tb :: post) = Navigator.getSlice tabsm "tabs".
Proof.
  intros Hpre Htb. induction Hpre as [|b pre [m [-> Hm]] _ IH]; cbn [app Navigator.find_tabs].
  - cbn [Navigator.as_map bind]. rewrite Htb. reflexivity.
  - cbn [Navigator.as_map bind]. rewrite Hm. exact IH.
Qed.

Lemma loop_blocks_articles {A} (f : string -> result (list A)) (bl : list json)
  (ss : list string) :
  Forall2 article_block bl ss ->
  Navigator.loop_blocks A f bl = result_map (@List.concat A) (map_result f ss).
Proof.
  induction 1 as [|blk s bl ss [bm [rm [-> [H1 H2]]]] _ IH];
    cbn [Navigator.loop_blocks map_result]; [reflexivity|].
  cbn [Navigator.as_map bind Navigator.getString]. rewrite H1.
  cbn [Navigator.as_map bind]. rewrite H2. cbn [Navigator.as_string bind].
  destruct (f s); cbn [bind]; [|reflexivity].
  rewrite IH. destruct (map_result f ss); reflexivity.
Qed.

Lemma loop_tabs_articles {A} (f : string -> result (list A)) (tabs : list json)
  (sss : list (list string)) :
  Forall2 tab_articles tabs sss ->
  Navigator.loop_tabs A f tabs = result_map (@List.concat A) (map_result f (List.concat sss)).
Proof.
  induction 1 as [|tab ss tabs sss [tm [bl [-> [H1 H2]]]] _ IH];
    cbn [Navigator.loop_tabs map_result List.concat]; [reflexivity|].
  cbn [Navigator.as_map bind]. rewrite H1. cbn [Navigator.as_slice bind].
  rewrite (loop_blocks_articles f bl ss H2), IH, map_result_app.
  destruct (map_result f ss); cbn [bind result_map]; [|reflexivity].
  destruct (map_result f (List.concat sss)); cbn [bind result_map]; [|reflexivity].
  rewrite List.concat_app. reflexivity.
Qed.

Lemma map_result_singleton (xs : list string) :
  map_result (fun s => Ok [s]) xs = Ok (map (fun s => [s]) xs).
Proof. induction xs as [|x xs IH]; cbn; [reflexivity|]. rewrite IH. reflexivity. Qed.

Lemma concat_singletons {A} (xs : list A) : List.concat (map (fun s => [s]) xs) = xs.
Proof. induction xs as [|x xs IH]; cbn; [reflexivity|]. rewrite IH. reflexivity. Qed.

(** C7: the navigator scans the block list for the first map with the key
    "tabs", whatever its position and whatever the blocks after it; the
    fragments are those of the tabs' content blocks, tab by tab and block
    by block in source order, and [parsePage] parses them in that order
    and concatenates their rows.  The blocks before the schedule block must
    be maps: [block.(map[string]any)] panics on anything else. *)
Theorem C7_navigator_scan_by_key (jsonMap pp tb tabsm : list (string * json))
  (pre post tabs : list json) (sss : list (list string)) :
  Navigator.getMap jsonMap ["props"; "pageProps"]%string = Ok pp ->
  Navigator.lookup pp "blocks" = Some (JArray (pre ++ JObject tb :: post)) ->
  Forall unmarked_block pre ->
  Navigator.lookup tb "tabs" = Some (JObject tabsm) ->
  Navigator.lookup tabsm "tabs" = Some (JArray tabs) ->
  Forall2 tab_articles tabs sss ->
  Navigator.fragments jsonMap = Ok (List.concat sss) /\
  parsePage jsonMap = result_map (@List.concat Translation.t)
                        (map_result parseArticleRawHtml (List.concat sss)).
Proof.
  intros Hpp Hbl Hpre Htb Htabs Hsss.
  assert (Hgen : forall A (f : string -> result (list A)),
             Navigator.parse_page_with A f jsonMap =
             result_map (@List.concat A) (map_result f (List.concat sss))).
  { intros A f. unfold Navigator.parse_page_with. rewrite Hpp. cbn [bind].
    unfold Navigator.getSlice at 1. rewrite Hbl. cbn [Navigator.as_slice bind].
    rewrite (find_tabs_scan pre post tb tabsm Hpre Htb).
    unfold Navigator.getSlice. rewrite Htabs. cbn [Navigator.as_slice bind].
    exact (loop_tabs_articles f tabs sss Hsss). }
  split.
  - unfold Navigator.fragments. rewrite Hgen, map_result_singleton.
    cbn [result_map]. rewrite concat_singletons. reflexivity.
  - unfold parsePage. apply Hgen.
Qed.

Lemma C7_navigator_scan_by_key_witness :
  Navigator.fragments sample_page = Ok (List.concat [["f1"; "f2"]; ["f3"]])%string /\
  parsePage sample_page = result_map (@List.concat Translation.t)
    (map_result parseArticleRawHtml (List.concat [["f1"; "f2"]; ["f3"]]))%string.
Proof.
  eapply (C7_navigator_scan_by_key sample_page _ _ _
            [JObject [("banner", JObject [("title", JString "Schedule")])]]%string
            [JNull]).
  - reflexivity.
  - reflexivity.
  - repeat constructor. eexists. split; reflexivity.
  - reflexivity.
  - reflexivity.
  - repeat constructor; do 2 eexists; (split; [reflexivity|]); (split; [reflexivity|]);
      repeat constructor; do 2 eexists; repeat split.
Defined.

(** ** Escaping of bare ampersands *)

(** C1 (a defect of the code): [strings.ReplaceAll(articleRaw, "&", "amp;")]
    deletes each ampersand instead of escaping it.  The cell "A&B" is read
    back as "Aamp;B", with no ampersand left, whereas escaping to "&amp;"
    would have given "A&B" back. *)
Lemma C1_ampersand_dropped :
  result_map (map Translation.Tournament) (parseArticleRawHtml ampersand_fragment)
    = Ok ["Aamp;B"%string] /\
  GoStrings.contains_char "Aamp;B" "&" = false /\
  result_map (fun t => map (fun tr => GetField tr "tournamentBody") (HtmlTable.TBody t))
    (HtmlTable.Unmarshal (GoStrings.replace_all_char ampersand_fragment "&" "&amp;"))
    = Ok ["A&B"%string].
Proof. vm_compute. repeat split; reflexivity. Qed.

(** ** The head section of a table *)

Section XmlFacts.
Import GoXml.

Lemma replace_all_char_app (s1 s2 : string) (old : ascii) (new : string) :
  GoStrings.replace_all_char (s1 ++ s2) old new =
  (GoStrings.replace_all_char s1 old new ++ GoStrings.replace_all_char s2 old new)%string.
Proof.
  induction s1 as [|c s1 IH]; cbn; [reflexivity|].
  destruct (Ascii.eqb c old); rewrite IH; [apply string_app_assoc|reflexivity].
Qed.

Lemma lex_run_app (st : lexstate) (s1 s2 : string) :
  lex_run st (s1 ++ s2) =
  let '(st1, t1) := lex_run st s1 in
  let '(st2, t2) := lex_run st1 s2 in (st2, t1 ++ t2).
Proof.
  revert st. induction s1 as [|c s1 IH]; intros st; cbn [append lex_run].
  - destruct (lex_run st s2); reflexivity.
  - destruct (lex_step st c) as [sa ta]. rewrite IH.
    destruct (lex_run sa s1) as [sb tb]. destruct (lex_run sb s2) as [sc tc].
    rewrite app_assoc. reflexivity.
Qed.

Lemma build_nest (ts R : list token) (stk1 : list frame) (nd : node)
  (rem : list token) (f : frame) (stk : list frame) :
  stk1 <> [] ->
  build stk1 ts = Ok (nd, rem) ->
  build (stk1 ++ f :: stk) (ts ++ R) = build (add_child nd f :: stk) (rem ++ R).
Proof.
  revert stk1. induction ts as [|t ts IH]; intros stk1 Hne H; cbn [build] in H;
    [discriminate|].
  cbn [app build]. destruct t as [n a|n|d| |].
  - exact (IH ((n, a, []) :: stk1) ltac:(discriminate) H).
  - destruct stk1 as [|[[m a] cs] stk1']; [contradiction|].
    cbn [app]. destruct (String.eqb n m); [|discriminate].
    destruct stk1' as [|g stk''].
    + injection H as <- <-. reflexivity.
    + exact (IH (add_child (Elem m a (rev cs)) g :: stk'') ltac:(discriminate) H).
  - destruct stk1 as [|fr stk1']; [contradiction|].
    exact (IH (add_child (Text d) fr :: stk1') ltac:(discriminate) H).
  - exact (IH stk1 Hne H).
  - discriminate.
Qed.

Lemma firstn_length_app {B} (l1 l2 : list B) : firstn (List.length l1) (l1 ++ l2)%list = l1.
Proof. induction l1 as [|x l1 IH]; cbn; [reflexivity|]. rewrite IH. reflexivity. Qed.

Lemma skipn_length_app {B} (l1 l2 : list B) : skipn (List.length l1) (l1 ++ l2)%list = l2.
Proof. induction l1 as [|x l1 IH]; cbn; [reflexivity|]. exact IH. Qed.

(** Children [xs] pushed on the bottom frame, below the newer children
    [cs] and above the older ones [cs0], end up after the first
    [length cs0] children of the element read. *)
Lemma build_bottom_insert (R : list token) (stk : list frame) (n : string)
  (a : list (string * string)) (cs xs cs0 : list node) :
  build (stk ++ [(n, a, cs ++ xs ++ cs0)]) R =
  result_map (fun r => (insert_children (List.length cs0) (rev xs) (fst r), snd r))
    (build (stk ++ [(n, a, cs ++ cs0)]) R).
Proof.
  revert stk cs. induction R as [|t R IH]; intros stk cs; cbn [build]; [reflexivity|].
  destruct t as [m b|m|d| |].
  - exact (IH ((m, b, []) :: stk) cs).
  - destruct stk as [|[[k b] ks] stk'].
    + cbn [app]. destruct (String.eqb m n); [|reflexivity].
      cbn [result_map fst snd insert_children].
      rewrite !rev_app_distr, <- (length_rev cs0), !app_assoc,
        firstn_length_app, skipn_length_app, <- !app_assoc.
      reflexivity.
    + cbn [app]. destruct (String.eqb m k); [|reflexivity].
      destruct stk' as [|g stk''].
      * exact (IH [] (Elem k b (rev ks) :: cs)).
      * exact (IH (add_child (Elem k b (rev ks)) g :: stk'') cs).
  - destruct stk as [|fr stk'].
    + exact (IH [] (Text d :: cs)).
    + exact (IH (add_child (Text d) fr :: stk') cs).
  - exact (IH stk cs).
  - reflexivity.
Qed.

(** A complete element, with text and ignored tokens before it, read
    inside an open element becomes its child. *)
Lemma build_skip (th : list token) (nd : node) :
  build [] th = Ok (nd, []) ->
  exists pre : list node,
    Forall (fun c => exists d, c = Text d) pre /\
    forall n a cs stk R,
      build ((n, a, cs) :: stk) (th ++ R) = build ((n, a, nd :: pre ++ cs) :: stk) R.
Proof.
  induction th as [|t th IH]; intros H; cbn [build] in H; [discriminate|].
  destruct t as [m b|m|d| |].
  - exists []. split; [constructor|]. intros n a cs stk R. cbn [app build].
    pose proof (build_nest th R [(m, b, [])] nd [] (n, a, cs) stk
                  ltac:(discriminate) H) as HN.
    exact HN.
  - discriminate.
  - destruct (IH H) as [pre [Hpre Hb]].
    exists (pre ++ [Text d]). split.
    + apply Forall_app. split; [exact Hpre|]. repeat constructor. eexists; reflexivity.
    + intros n a cs stk R. cbn [app build add_child].
      rewrite Hb, <- app_assoc. reflexivity.
  - destruct (IH H) as [pre [Hpre Hb]].
    exists pre. split; [exact Hpre|]. intros n a cs stk R. exact (Hb n a cs stk R).
  - discriminate.
Qed.

Lemma open_after_build (stk stk' : list frame) (toks R : list token) :
  open_after stk toks = Some stk' -> build stk (toks ++ R) = build stk' R.
Proof.
  revert stk. induction toks as [|t toks IH]; intros stk H; cbn [open_after] in H.
  - injection H as <-. reflexivity.
  - cbn [app build]. destruct t as [n a|n|d| |].
    + exact (IH _ H).
    + destruct stk as [|[[m a] cs] stk1]; [discriminate|].
      destruct (String.eqb n m); [|discriminate].
      destruct stk1 as [|g stk2]; [discriminate|]. exact (IH _ H).
    + destruct stk as [|g stk1]; exact (IH _ H).
    + exact (IH _ H).
    + discriminate.
Qed.

(** Children that [HtmlTable] skips, put anywhere among the table's
    children, change nothing. *)
Lemma unmarshal_table_insert (k : nat) (xs : list node) (nd : node) :
  Forall (fun c => match c with
                   | Text _ => True
                   | Elem m _ _ => local_name m <> "tbody"%string
                   end) xs ->
  HtmlTable.unmarshal_table (insert_children k xs nd) = HtmlTable.unmarshal_table nd.
Proof.
  intros Hxs. destruct nd as [n a cs|d]; [|reflexivity].
  cbn [insert_children HtmlTable.unmarshal_table].
  destruct (String.eqb (local_name n) "table"); [|reflexivity].
  rewrite !flat_map_app.
  match goal with
  | |- context [flat_map ?g xs] => replace (flat_map g xs) with (@nil Tr)
  end.
  - rewrite app_nil_l, <- flat_map_app, firstn_skipn. reflexivity.
  - induction Hxs as [|x xs Hx _ IH]; [reflexivity|].
    cbn [flat_map]. rewrite <- IH, app_nil_r.
    destruct x as [m b cs'|d]; [|reflexivity].
    apply String.eqb_neq in Hx. rewrite Hx. reflexivity.
Qed.

End XmlFacts.

(** C8 (amended): a head section that is well-formed markup has no effect.
    Let the fragment be [pre ++ hd ++ rest], where the decoder reads [pre]
    (after the ampersand replacement) up to a point between tokens at
    which exactly the table element is open, for instance "<table>" or
    "<table>" followed by complete children, and reads [hd] as one
    complete element whose local name is [thead], possibly after text,
    comments, processing instructions or directives.  Then the fragment
    gives the same result, records or failure, as [pre ++ rest]. *)
Theorem C8_wellformed_head_ignored (pre hd rest : string) (tp th : list GoXml.token)
  (f : GoXml.frame) (n : string) (a : list (string * string)) (kids : list GoXml.node) :
  GoXml.lex_run (GoXml.LText EmptyString) (GoStrings.replace_all_char pre "&" "amp;")
    = (GoXml.LText EmptyString, tp) ->
  open_after [] tp = Some [f] ->
  GoXml.lex_run (GoXml.LText EmptyString) (GoStrings.replace_all_char hd "&" "amp;")
    = (GoXml.LText EmptyString, th) ->
  GoXml.build [] th = Ok (GoXml.Elem n a kids, []) ->
  GoXml.local_name n = "thead"%string ->
  parseArticleRawHtml (pre ++ hd ++ rest) = parseArticleRawHtml (pre ++ rest).
Proof.
  intros Hpre Hopen Hhd Hbuild Hname.
  unfold parseArticleRawHtml, HtmlTable.Unmarshal, GoXml.tokenize. cbv zeta.
  rewrite !replace_all_char_app, !lex_run_app, Hpre. cbv beta iota zeta.
  rewrite lex_run_app, Hhd. cbv beta iota zeta.
  destruct (GoXml.lex_run (GoXml.LText EmptyString) (GoStrings.replace_all_char rest "&" "amp;"))
    as [st2 t2].
  rewrite <- !app_assoc.
  rewrite !(open_after_build [] [f] tp _ Hopen).
  destruct (build_skip th _ Hbuild) as [pre_nodes [Hpre_nodes Hskip]].
  destruct f as [[fn fa] fcs].
  rewrite Hskip.
  pose proof (build_bottom_insert (t2 ++ GoXml.lex_finish st2) [] fn fa []
                (GoXml.Elem n a kids :: pre_nodes) fcs) as HB.
  cbn [app] in HB. unfold GoXml.frame in *. rewrite HB.
  destruct (GoXml.build [(fn, fa, fcs)] (t2 ++ GoXml.lex_finish st2)) as [[nd rem]|e];
    cbn [result_map bind fst snd]; [|reflexivity].
  rewrite unmarshal_table_insert; [reflexivity|].
  apply Forall_rev. constructor.
  - rewrite Hname. discriminate.
  - eapply Forall_impl; [|exact Hpre_nodes]. intros c [d ->]. exact I.
Qed.

(** C8 (as stated, refuted): the head is not ignored when malformed.  An
    unclosed [tr] in the head makes [xml.Unmarshal] fail ("element <tr>
    closed by </thead>"), so the fragment aborts the run, while the same
    body with an empty head gives its record. *)
Lemma C8_malformed_head_counterexample :
  parseArticleRawHtml malformed_head_fragment = Err ErrParse /\
  result_map (map Translation.Date) (parseArticleRawHtml empty_head_fragment)
    = Ok ["03-15-2024"%string].
Proof. vm_compute. split; reflexivity. Qed.

Lemma C8_wellformed_head_ignored_witness :
  parseArticleRawHtml (sample_prefix ++ sample_head ++ sample_body) =
  parseArticleRawHtml (sample_prefix ++ sample_body).
Proof.
  apply (C8_wellformed_head_ignored sample_prefix sample_head sample_body
           (snd (GoXml.lex_run (GoXml.LText EmptyString)
                   (GoStrings.replace_all_char sample_prefix "&" "amp;")))
           (snd (GoXml.lex_run (GoXml.LText EmptyString)
                   (GoStrings.replace_all_char sample_head "&" "amp;")))
           ("table"%string, [("class"%string, "schedule"%string)],
            [GoXml.Elem "caption" [] [GoXml.Text "Week 12"]])
           "thead" []
           [GoXml.Elem "tr" [] [GoXml.Elem "th" [] [GoXml.Text "Date"];
                                GoXml.Elem "th" [] [GoXml.Text "Qamp;A"]]]).
  - vm_compute. reflexivity.
  - vm_compute. reflexivity.
  - vm_compute. reflexivity.
  - vm_compute. reflexivity.
  - vm_compute. reflexivity.
Defined.

(** ** The order of the records *)

Section SortFacts.
Variable A : Type.
Variable key : A -> Z.
Local Abbreviation less := (fun x y : A => key x <? key y).
Local Abbreviation sorted := (key_sorted key).
Local Abbreviation kc := (key_class key).
Local Abbreviation sub := (GoSort.sub A).

Lemma sorted_app (l1 l2 : list A) :
  sorted (l1 ++ l2) <->
  sorted l1 /\ sorted l2 /\ (forall x y, In x l1 -> In y l2 -> key x <= key y).
Proof.
  unfold key_sorted; induction l1 as [|a l1 IH]; simpl.
  - split; [intros H; repeat split; [constructor | exact H | tauto] | tauto].
  - split.
    + intros H; inversion H as [|? ? T1 T2]; subst.
      apply IH in T1 as (S1 & S2 & S3). rewrite Forall_forall in T2.
      repeat split; auto.
      * constructor; auto. rewrite Forall_forall; intros; apply T2, in_or_app; auto.
      * intros x y [<-|Hx] Hy; [apply T2, in_or_app; auto | auto].
    + intros (S1 & S2 & S3). inversion S1 as [|? ? T1 T2]; subst. constructor.
      * apply IH; repeat split; auto.
      * rewrite Forall_forall; intros y Hy; apply in_app_or in Hy as [Hy|Hy].
        -- rewrite Forall_forall in T2; auto.
        -- apply S3; simpl; auto.
Qed.

Lemma sorted_firstn (l : list A) n : sorted l -> sorted (firstn n l).
Proof. intros H. rewrite <- (firstn_skipn n l) in H. apply sorted_app in H; tauto. Qed.

Lemma sorted_skipn (l : list A) n : sorted l -> sorted (skipn n l).
Proof. intros H. rewrite <- (firstn_skipn n l) in H. apply sorted_app in H; tauto. Qed.

Lemma sorted_sub (l : list A) i j : sorted l -> sorted (sub l i j).
Proof. intros H. apply sorted_firstn, sorted_skipn, H. Qed.

Lemma sorted_nth (l : list A) x0 i j :
  sorted l -> (i <= j < List.length l)%nat -> key (nth i l x0) <= key (nth j l x0).
Proof.
  unfold key_sorted; revert i j; induction l as [|a l IH]; intros i j H Hij;
    simpl in *; [lia|].
  inversion H as [|? ? T1 T2]; subst. rewrite Forall_forall in T2.
  destruct i as [|i], j as [|j]; try lia.
  - apply T2, nth_In; lia.
  - apply IH; auto; lia.
Qed.

Lemma key_class_in x k (l : list A) : In x (kc k l) <-> In x l /\ key x = k.
Proof. unfold key_class; rewrite filter_In, Z.eqb_eq; tauto. Qed.

Lemma key_class_app k (l1 l2 : list A) : kc k (l1 ++ l2) = kc k l1 ++ kc k l2.
Proof. apply filter_app. Qed.

Lemma in_sub (d : list A) i j x :
  In x (sub d i j) -> exists c, (i <= c < j)%nat /\ (c < List.length d)%nat /\ nth c d x = x.
Proof.
  intros H. apply (In_nth _ _ x) in H as (c & Hc & Hn).
  unfold GoSort.sub in *. rewrite length_firstn, length_skipn in Hc.
  rewrite nth_firstn, nth_skipn in Hn.
  destruct (Nat.ltb_spec c (j - i)); [|lia].
  exists (i + c)%nat; repeat split; try lia; auto.
Qed.

Lemma in_firstn_idx (d : list A) n x :
  In x (firstn n d) -> exists c, (c < n)%nat /\ (c < List.length d)%nat /\ nth c d x = x.
Proof.
  intros H. apply (In_nth _ _ x) in H as (c & Hc & Hn).
  rewrite length_firstn in Hc. rewrite nth_firstn in Hn.
  destruct (Nat.ltb_spec c n); [|lia].
  exists c; repeat split; try lia; auto.
Qed.

Lemma in_skipn_idx (d : list A) n x :
  In x (skipn n d) -> exists c, (n <= c < List.length d)%nat /\ nth c d x = x.
Proof.
  intros H. apply (In_nth _ _ x) in H as (c & Hc & Hn).
  rewrite length_skipn in Hc. rewrite nth_skipn in Hn.
  exists (n + c)%nat; split; [lia | auto].
Qed.

Lemma skipn_sub (d : list A) i j : (i <= j)%nat -> skipn i d = sub d i j ++ skipn j d.
Proof.
  intros H. unfold GoSort.sub. rewrite <- (firstn_skipn (j - i) (skipn i d)) at 1.
  f_equal. rewrite skipn_skipn. f_equal; lia.
Qed.

Lemma firstn_sub (d : list A) i j : (i <= j)%nat -> firstn j d = firstn i d ++ sub d i j.
Proof.
  intros H. rewrite <- (firstn_skipn i (firstn j d)) at 1.
  rewrite firstn_firstn, skipn_firstn_comm. f_equal. f_equal; lia.
Qed.

Lemma sub_diag (d : list A) i : sub d i i = [].
Proof. unfold GoSort.sub. rewrite Nat.sub_diag. reflexivity. Qed.

Lemma length_sub (d : list A) i j :
  (j <= List.length d)%nat -> List.length (sub d i j) = (j - i)%nat.
Proof. intros H. unfold GoSort.sub. rewrite length_firstn, length_skipn. lia. Qed.

Lemma lessAt_nth (d : list A) i j x0 :
  (i < List.length d)%nat -> (j < List.length d)%nat ->
  GoSort.lessAt A less d i j = (key (nth i d x0) <? key (nth j d x0)).
Proof.
  intros Hi Hj. unfold GoSort.lessAt.
  rewrite (nth_error_nth' d x0 Hi), (nth_error_nth' d x0 Hj). reflexivity.
Qed.

Lemma search_spec fuel i j p :
  (i <= j)%nat -> (j - i <= fuel)%nat ->
  (forall x y, (i <= x <= y)%nat -> (y < j)%nat -> p y = true -> p x = true) ->
  (i <= GoSort.search fuel i j p <= j)%nat /\
  (forall c, (i <= c < GoSort.search fuel i j p)%nat -> p c = true) /\
  (forall c, (GoSort.search fuel i j p <= c < j)%nat -> p c = false).
Proof.
  revert i j; induction fuel as [|fuel IH]; intros i j Hij Hf Hmono; cbn [GoSort.search].
  - repeat split; intros; lia.
  - destruct (Nat.ltb_spec i j) as [Hlt|Hge]; [|repeat split; intros; lia].
    assert (Hh : (i <= (i + j) / 2 < j)%nat).
    { split; [apply Nat.div_le_lower_bound | apply Nat.Div0.div_lt_upper_bound]; lia. }
    set (h := ((i + j) / 2)%nat) in *.
    destruct (p h) eqn:Ph.
    + destruct (IH (S h) j) as (B & T & F); try lia.
      { intros x y Hx Hy; apply Hmono; lia. }
      split; [lia | split; [|exact F]].
      intros c Hc. destruct (Nat.le_gt_cases c h).
      * apply (Hmono c h); auto; lia.
      * apply T; lia.
    + destruct (IH i h) as (B & T & F); try lia.
      { intros x y Hx Hy; apply Hmono; lia. }
      split; [lia | split; [exact T|]].
      intros c Hc. destruct (Nat.lt_ge_cases c h).
      * apply F; lia.
      * destruct (p c) eqn:Pc; auto. rewrite (Hmono h c) in Ph; auto; lia.
Qed.

Lemma sm_in (u v w : list A) x : stable_merge key u v w -> In x w -> In x u \/ In x v.
Proof.
  intros [_ H] Hx. assert (Hk : In x (kc (key x) w)) by (apply key_class_in; auto).
  rewrite H in Hk. apply in_app_or in Hk as [Hk|Hk]; apply key_class_in in Hk; tauto.
Qed.

Lemma sm_nil_l (v : list A) : sorted v -> stable_merge key [] v v.
Proof. intros H; split; auto. Qed.

Lemma sm_nil_r (u : list A) : sorted u -> stable_merge key u [] u.
Proof. intros H; split; auto. intros k; simpl; rewrite app_nil_r; reflexivity. Qed.

Lemma sm_app (u v : list A) :
  sorted u -> sorted v -> (forall x y, In x u -> In y v -> key x <= key y) ->
  stable_merge key u v (u ++ v).
Proof. intros; split; [apply sorted_app; auto | intros; apply filter_app]. Qed.

Lemma sm_split (u1 u2 v1 v2 w1 w2 : list A) :
  stable_merge key u1 v1 w1 -> stable_merge key u2 v2 w2 ->
  sorted (u1 ++ u2) -> sorted (v1 ++ v2) ->
  (forall x y, In x u1 -> In y v2 -> key x <= key y) ->
  (forall x y, In x v1 -> In y u2 -> key x < key y) ->
  stable_merge key (u1 ++ u2) (v1 ++ v2) (w1 ++ w2).
Proof.
  intros H1 H2 Su Sv C1 C2.
  apply sorted_app in Su as (Su1 & Su2 & Su12).
  apply sorted_app in Sv as (Sv1 & Sv2 & Sv12).
  split.
  - apply sorted_app; split; [apply H1 | split; [apply H2 |]].
    intros x y Hx Hy.
    destruct (sm_in _ _ _ _ H1 Hx), (sm_in _ _ _ _ H2 Hy); auto.
    specialize (C2 x y H H0); lia.
  - intros k. rewrite !key_class_app.
    destruct H1 as [_ K1], H2 as [_ K2].
    rewrite K1, K2. rewrite !app_assoc. f_equal.
    rewrite <- !app_assoc. f_equal.
    destruct (kc k v1) as [|x l1] eqn:E1; [rewrite app_nil_r; auto|].
    destruct (kc k u2) as [|y l2] eqn:E2; [rewrite app_nil_r; reflexivity|].
    assert (Hx : In x (kc k v1)) by (rewrite E1; left; auto).
    assert (Hy : In y (kc k u2)) by (rewrite E2; left; auto).
    apply key_class_in in Hx as [Hx Kx]. apply key_class_in in Hy as [Hy Ky].
    specialize (C2 x y Hx Hy). lia.
Qed.

Lemma sorted_short (l : list A) : (List.length l <= 1)%nat -> sorted l.
Proof.
  unfold key_sorted. intros H. destruct l as [|a [|b l]].
  - constructor.
  - repeat constructor.
  - simpl in H. lia.
Qed.

Lemma sorted_firstn_idx (d : list A) m x0 i j :
  sorted (firstn m d) -> (i <= j)%nat -> (j < m)%nat -> (j < List.length d)%nat ->
  key (nth i d x0) <= key (nth j d x0).
Proof.
  intros H Hij Hjm Hjd.
  pose proof (sorted_nth _ x0 i j H) as K. rewrite length_firstn, !nth_firstn in K.
  destruct (Nat.ltb_spec i m), (Nat.ltb_spec j m); try lia. all: apply K; lia.
Qed.

Lemma sorted_skipn_idx (d : list A) m x0 i j :
  sorted (skipn m d) -> (m <= i <= j)%nat -> (j < List.length d)%nat ->
  key (nth i d x0) <= key (nth j d x0).
Proof.
  intros H Hij Hjd.
  pose proof (sorted_nth _ x0 (i - m) (j - m) H) as K.
  rewrite length_skipn, !nth_skipn in K.
  replace (m + (i - m))%nat with i in K by lia.
  replace (m + (j - m))%nat with j in K by lia. apply K; lia.
Qed.

Lemma nth_default (d : list A) c a b : (c < List.length d)%nat -> nth c d a = nth c d b.
Proof. apply nth_indep. Qed.

Lemma firstn_app_len (l1 l2 : list A) k : List.length l1 = k -> firstn k (l1 ++ l2) = l1.
Proof.
  intros <-. rewrite firstn_app, firstn_all, Nat.sub_diag. simpl. apply app_nil_r.
Qed.

Lemma skipn_app_len (l1 l2 : list A) k : List.length l1 = k -> skipn k (l1 ++ l2) = l2.
Proof. intros <-. rewrite skipn_app, skipn_all, Nat.sub_diag. reflexivity. Qed.

Lemma nil_of_length (l : list A) : List.length l = 0%nat -> l = [].
Proof. destruct l; simpl; auto; discriminate. Qed.

Lemma key_class_split k x rest (l : list A) :
  kc k l = x :: rest ->
  exists la lb, l = la ++ x :: lb /\ kc k la = [] /\ kc k lb = rest.
Proof.
  induction l as [|y l IH]; intros H; [discriminate|].
  unfold key_class in H |- *. simpl in H. destruct (key y =? k) eqn:Ey.
  - injection H as <- <-. exists [], l. repeat split; auto.
  - destruct (IH H) as (la & lb & -> & H1 & H2).
    exists (y :: la), lb. repeat split; auto. simpl. rewrite Ey. exact H1.
Qed.

Lemma key_class_perm (l1 l2 : list A) :
  (forall k, kc k l1 = kc k l2) -> Permutation l1 l2.
Proof.
  revert l2; induction l1 as [|x l1 IH]; intros l2 H.
  - destruct l2 as [|y l2]; auto.
    specialize (H (key y)). unfold key_class in H. simpl in H.
    rewrite Z.eqb_refl in H. discriminate.
  - assert (Hx := H (key x)). unfold key_class in Hx at 1. simpl in Hx.
    rewrite Z.eqb_refl in Hx. symmetry in Hx.
    destruct (key_class_split _ _ _ _ Hx) as (la & lb & -> & H1 & H2).
    apply Permutation_cons_app, IH. intros k.
    specialize (H k). rewrite key_class_app in H |- *.
    unfold key_class in H at 1. simpl in H. fold (kc k l1) in H.
    replace (kc k (x :: lb)) with ((if key x =? k then [x] else []) ++ kc k lb) in H
      by (unfold key_class; simpl; destruct (key x =? k); reflexivity).
    destruct (Z.eqb_spec (key x) k) as [Ek|Hk].
    + subst k. rewrite H1 in H |- *. simpl in H |- *. injection H as ->.
      reflexivity.
    + exact H.
Qed.

Lemma sm_length (u v w : list A) :
  stable_merge key u v w -> List.length w = (List.length u + List.length v)%nat.
Proof.
  intros [_ H]. rewrite <- List.length_app. apply Permutation_length, key_class_perm.
  intros k. rewrite key_class_app. apply H.
Qed.

(** Inserting [data[a]] into the sorted [data[a+1:b]]. *)
Lemma symMerge_insert_first (d : list A) :
  (1 < List.length d)%nat -> sorted (skipn 1 d) ->
  stable_merge key (firstn 1 d) (skipn 1 d)
    (sub d 1 (GoSort.search (List.length d) 1 (List.length d)
                (fun h => GoSort.lessAt A less d h 0)) ++
     firstn 1 d ++
     skipn (GoSort.search (List.length d) 1 (List.length d)
              (fun h => GoSort.lessAt A less d h 0)) d).
Proof.
  intros Hb Hv.
  set (i := GoSort.search _ _ _ _).
  assert (x0 : A) by (destruct d as [|a ?]; [simpl in Hb; lia | exact a]).
  destruct (search_spec (List.length d) 1 (List.length d)
              (fun h => GoSort.lessAt A less d h 0)) as (B & T & F); try lia.
  { intros x y Hx Hy P. cbv beta in P |- *. rewrite (lessAt_nth _ _ _ x0) in P by lia. rewrite (lessAt_nth _ _ _ x0) by lia.
    apply Z.ltb_lt in P. apply Z.ltb_lt.
    pose proof (sorted_skipn_idx d 1 x0 x y Hv). lia. }
  fold i in B, T, F.
  assert (E : stable_merge key ([] ++ firstn 1 d) (sub d 1 i ++ skipn i d)
                (sub d 1 i ++ (firstn 1 d ++ skipn i d))).
  { apply sm_split.
    - apply sm_nil_l. apply sorted_firstn, Hv.
    - apply sm_app.
      + apply sorted_short. rewrite length_firstn. lia.
      + replace i with (i - 1 + 1)%nat by lia. rewrite <- skipn_skipn.
        apply sorted_skipn, Hv.
      + intros x y Hx Hy.
        apply in_firstn_idx in Hx as (c & Hc & _ & <-).
        apply in_skipn_idx in Hy as (c' & Hc' & <-).
        replace c with 0%nat by lia.
        specialize (F c' ltac:(lia)). rewrite (lessAt_nth _ _ _ x0) in F by lia.
        apply Z.ltb_ge in F.
        rewrite (nth_default d 0 x x0), (nth_default d c' y x0) by lia. lia.
    - apply sorted_short. cbn [app]. rewrite length_firstn. lia.
    - rewrite <- skipn_sub by lia. exact Hv.
    - intros x y [].
    - intros x y Hx Hy.
      apply in_sub in Hx as (c & Hc & Hcd & <-).
      apply in_firstn_idx in Hy as (c' & Hc' & _ & <-).
      replace c' with 0%nat by lia.
      specialize (T c ltac:(lia)). rewrite (lessAt_nth _ _ _ x0) in T by lia.
      apply Z.ltb_lt in T.
      rewrite (nth_default d 0 y x0), (nth_default d c x x0) by lia. lia. }
  simpl app in E at 1. rewrite <- skipn_sub in E by lia. exact E.
Qed.

(** Inserting [data[m]] into the sorted [data[a:m]]. *)
Lemma symMerge_insert_last (d : list A) m :
  (0 < m)%nat -> (List.length d - m = 1)%nat -> sorted (firstn m d) ->
  stable_merge key (firstn m d) (skipn m d)
    (firstn (GoSort.search (List.length d) 0 m
               (fun h => negb (GoSort.lessAt A less d m h))) d ++
     skipn m d ++
     sub d (GoSort.search (List.length d) 0 m
              (fun h => negb (GoSort.lessAt A less d m h))) m).
Proof.
  intros Hm Hb Hu.
  set (i := GoSort.search _ _ _ _).
  assert (x0 : A) by (destruct d as [|a ?]; [simpl in Hb; lia | exact a]).
  destruct (search_spec (List.length d) 0 m
              (fun h => negb (GoSort.lessAt A less d m h))) as (B & T & F); try lia.
  { intros x y Hx Hy P. cbv beta in P |- *. rewrite (lessAt_nth _ _ _ x0) in P by lia. rewrite (lessAt_nth _ _ _ x0) by lia.
    apply negb_true_iff, Z.ltb_ge in P. apply negb_true_iff, Z.ltb_ge.
    pose proof (sorted_firstn_idx d m x0 x y Hu). lia. }
  fold i in B, T, F.
  assert (E : stable_merge key (firstn i d ++ sub d i m) (skipn m d ++ [])
                ((firstn i d ++ skipn m d) ++ sub d i m)).
  { apply sm_split.
    - apply sm_app.
      + replace (firstn i d) with (firstn i (firstn m d))
          by (rewrite firstn_firstn; f_equal; lia).
        apply sorted_firstn, Hu.
      + apply sorted_short. rewrite length_skipn. lia.
      + intros x y Hx Hy.
        apply in_firstn_idx in Hx as (c & Hc & _ & <-).
        apply in_skipn_idx in Hy as (c' & Hc' & <-).
        replace c' with m by lia.
        specialize (T c ltac:(lia)). rewrite (lessAt_nth _ _ _ x0) in T by lia.
        apply negb_true_iff, Z.ltb_ge in T.
        rewrite (nth_default d m y x0), (nth_default d c x x0) by lia. lia.
    - apply sm_nil_r. unfold GoSort.sub. rewrite <- skipn_firstn_comm.
      apply sorted_skipn, Hu.
    - rewrite <- firstn_sub by lia. exact Hu.
    - apply sorted_short. rewrite List.length_app, length_skipn. simpl. lia.
    - intros x y _ [].
    - intros x y Hx Hy.
      apply in_skipn_idx in Hx as (c & Hc & <-).
      apply in_sub in Hy as (c' & Hc' & Hcd & <-).
      replace c with m by lia.
      specialize (F c' ltac:(lia)). rewrite (lessAt_nth _ _ _ x0) in F by lia.
      apply negb_false_iff, Z.ltb_lt in F.
      rewrite (nth_default d m x x0), (nth_default d c' y x0) by lia. lia. }
  rewrite app_nil_r, <- app_assoc, <- firstn_sub in E by lia. exact E.
Qed.

(** The two conditions under which the merge splits at [start]. *)
Lemma merge_cond_left (d : list A) m s e x0 :
  sorted (firstn m d) -> sorted (skipn m d) ->
  (1 <= s <= m)%nat -> (m <= e < List.length d)%nat ->
  key (nth (s - 1) d x0) <= key (nth e d x0) ->
  forall x y, In x (firstn s d) -> In y (skipn e d) -> key x <= key y.
Proof.
  intros Hu Hv Hs He K x y Hx Hy.
  apply in_firstn_idx in Hx as (c & Hc & Hcd & <-).
  apply in_skipn_idx in Hy as (c' & Hc' & <-).
  pose proof (sorted_firstn_idx d m x0 c (s - 1) Hu ltac:(lia) ltac:(lia) ltac:(lia)).
  pose proof (sorted_skipn_idx d m x0 e c' Hv ltac:(lia) ltac:(lia)).
  rewrite (nth_default d c x x0), (nth_default d c' y x0) by lia. lia.
Qed.

Lemma merge_cond_right (d : list A) m s e x0 :
  sorted (firstn m d) -> sorted (skipn m d) ->
  (s < m)%nat -> (m < e <= List.length d)%nat ->
  key (nth (e - 1) d x0) < key (nth s d x0) ->
  forall x y, In x (sub d m e) -> In y (sub d s m) -> key x < key y.
Proof.
  intros Hu Hv Hs He K x y Hx Hy.
  apply in_sub in Hx as (c & Hc & Hcd & <-).
  apply in_sub in Hy as (c' & Hc' & Hcd' & <-).
  pose proof (sorted_skipn_idx d m x0 c (e - 1) Hv ltac:(lia) ltac:(lia)).
  pose proof (sorted_firstn_idx d m x0 s c' Hu ltac:(lia) ltac:(lia) ltac:(lia)).
  rewrite (nth_default d c x x0), (nth_default d c' y x0) by lia. lia.
Qed.

Lemma symMerge_spec fuel : forall (d : list A) m,
  (List.length d <= fuel)%nat -> (0 < m < List.length d)%nat ->
  sorted (firstn m d) -> sorted (skipn m d) ->
  stable_merge key (firstn m d) (skipn m d) (GoSort.symMerge A less fuel d m).
Proof.
  induction fuel as [|fuel IH]; intros d m Hf Hm Hu Hv; [lia|].
  assert (x0 : A) by (destruct d as [|a ?]; [simpl in Hm; lia | exact a]).
  cbn [GoSort.symMerge].
  destruct (Nat.eqb_spec m 1) as [->|Hm1].
  { apply symMerge_insert_first; auto; lia. }
  destruct (Nat.eqb_spec (List.length d - m) 1) as [Hb1|Hb1].
  { apply symMerge_insert_last; auto; lia. }
  set (b := List.length d) in *.
  assert (Hm2 : (2 <= m)%nat) by lia. assert (Hbm : (m + 2 <= b)%nat) by lia.
  clear Hm1 Hb1.
  set (mid := (b / 2)%nat) in *.
  assert (Hmid : (2 * mid <= b <= 2 * mid + 1)%nat).
  { subst mid. pose proof (Nat.div_mod b 2 ltac:(lia)).
    pose proof (Nat.mod_upper_bound b 2 ltac:(lia)). lia. }
  clearbody mid.
  set (n := (mid + m)%nat) in *.
  assert (Hn : n = (mid + m)%nat) by reflexivity. clearbody n.
  destruct (if (mid <? m)%nat then ((n - b)%nat, mid) else (0%nat, m)) as [lo r] eqn:Elr.
  assert (Hlr : (lo <= r <= m)%nat /\ (r <= mid)%nat /\ (n <= b + lo)%nat /\
                (lo = 0 \/ n = b + lo)%nat /\ (r = m \/ n = r + m)%nat /\
                (m + r <= n)%nat /\
                (forall c, (lo <= c < r)%nat -> (m + c + 1 <= n <= b + c)%nat)).
  { destruct (Nat.ltb_spec mid m); injection Elr as <- <-;
      repeat split; try lia; intros c Hc; lia. }
  destruct Hlr as (Hlr1 & Hlr2 & Hlr3 & Hlr4 & Hlr5 & Hlr6 & Hlr7).
  clear Elr.
  set (p := fun c => negb (GoSort.lessAt A less d (n - 1 - c) c)).
  destruct (search_spec b lo r p) as (SB & ST & SF);
    [clear - Hlr1 Hbm; lia | clear - Hlr1 Hbm; lia | |].
  { intros x y Hx Hy P. unfold p in P |- *. cbv beta in P |- *.
    pose proof (Hlr7 x ltac:(clear - Hx Hy; lia)) as Ix.
    pose proof (Hlr7 y ltac:(clear - Hx Hy; lia)) as Iy.
    rewrite (lessAt_nth _ _ _ x0) in P by (clear - Iy Hx Hy Hlr1 Hbm; lia).
    rewrite (lessAt_nth _ _ _ x0) by (clear - Ix Hx Hy Hlr1 Hbm; lia).
    apply negb_true_iff, Z.ltb_ge in P. apply negb_true_iff, Z.ltb_ge.
    pose proof (sorted_firstn_idx d m x0 x y Hu ltac:(clear - Hx; lia)
                  ltac:(clear - Hy Hlr1; lia) ltac:(clear - Hy Hlr1 Hbm; lia)).
    pose proof (sorted_skipn_idx d m x0 (n - 1 - y) (n - 1 - x) Hv
                  ltac:(clear - Hx Iy; lia) ltac:(clear - Ix; lia)).
    lia. }
  set (s := GoSort.search b lo r p) in *.
  clearbody s. unfold p in ST, SF. clear p.
  (* the two conditions the search establishes *)
  assert (C1 : forall x y, In x (firstn s d) -> In y (skipn (n - s) d) -> key x <= key y).
  { destruct (Nat.eq_dec s lo) as [Es|Ns].
    - intros x y Hx Hy. destruct Hlr4 as [Z|Z].
      + rewrite Es, Z in Hx. destruct Hx.
      + replace (n - s)%nat with b in Hy by (clear - Es Z; lia).
        subst b. rewrite skipn_all in Hy. destruct Hy.
    - assert (I : (n - 1 - (s - 1) = n - s)%nat) by (clear - SB Ns Hlr7 Hlr1; lia).
      pose proof (Hlr7 (s - 1)%nat ltac:(clear - SB Ns; lia)) as Hi.
      specialize (ST (s - 1)%nat ltac:(clear - SB Ns; lia)). cbv beta in ST.
      rewrite I in ST. rewrite (lessAt_nth _ _ _ x0) in ST by (clear - Hi I SB Ns Hlr1 Hbm; lia).
      apply negb_true_iff, Z.ltb_ge in ST.
      apply (merge_cond_left d m s (n - s) x0 Hu Hv);
        [clear - SB Ns Hlr1; lia | clear - Hi SB Ns; lia | exact ST]. }
  assert (C2 : forall x y, In x (sub d m (n - s)) -> In y (sub d s m) -> key x < key y).
  { destruct (Nat.eq_dec s r) as [Es|Ns].
    - intros x y Hx Hy. destruct Hlr5 as [Z|Z].
      + rewrite Es, Z, sub_diag in Hy. destruct Hy.
      + replace (n - s)%nat with m in Hx by (clear - Es Z; lia).
        rewrite sub_diag in Hx. destruct Hx.
    - assert (I : (n - 1 - s = n - s - 1)%nat) by (clear - SB Ns Hlr7 Hlr1; lia).
      pose proof (Hlr7 s ltac:(clear - SB Ns; lia)) as Hi.
      specialize (SF s ltac:(clear - SB Ns; lia)). cbv beta in SF.
      rewrite I in SF. rewrite (lessAt_nth _ _ _ x0) in SF by (clear - Hi I SB Ns Hlr1 Hbm; lia).
      apply negb_false_iff, Z.ltb_lt in SF.
      apply (merge_cond_right d m s (n - s) x0 Hu Hv);
        [clear - SB Ns Hlr1; lia | clear - Hi SB Ns; lia | exact SF]. }
  assert (Hs : (s <= m)%nat /\ (s <= mid)%nat /\ (n <= b + s)%nat /\ (m + s <= n)%nat)
    by (clear - SB Hlr1 Hlr2 Hlr3 Hlr6; lia).
  clear ST SF Hlr1 Hlr2 Hlr3 Hlr4 Hlr5 Hlr6 Hlr7 SB lo r.
  destruct Hs as (Hs1 & Hs2 & Hs3 & Hs4).
  set (e := (n - s)%nat) in *.
  assert (He : (e + s = n)%nat) by (subst e; lia). clearbody e.
  set (u1 := firstn s d) in *. set (u2 := sub d s m) in *.
  set (v1 := sub d m e) in *. set (v2 := skipn e d) in *.
  assert (Lu1 : List.length u1 = s) by (subst u1; rewrite length_firstn; lia).
  assert (Lu2 : List.length u2 = (m - s)%nat) by (subst u2; rewrite length_sub; lia).
  assert (Lv1 : List.length v1 = (e - m)%nat) by (subst v1; rewrite length_sub; lia).
  assert (Lv2 : List.length v2 = (b - e)%nat) by (subst v2; rewrite length_skipn; lia).
  assert (Du : firstn m d = u1 ++ u2) by (apply firstn_sub; lia).
  assert (Dv : skipn m d = v1 ++ v2) by (apply skipn_sub; lia).
  assert (Su1 : sorted u1).
  { subst u1. replace (firstn s d) with (firstn s (firstn m d))
      by (rewrite firstn_firstn; f_equal; lia). apply sorted_firstn, Hu. }
  assert (Su2 : sorted u2).
  { subst u2. unfold GoSort.sub. rewrite <- skipn_firstn_comm. apply sorted_skipn, Hu. }
  assert (Sv1 : sorted v1) by (subst v1; apply sorted_firstn, Hv).
  assert (Sv2 : sorted v2).
  { subst v2. replace e with (e - m + m)%nat by lia. rewrite <- skipn_skipn.
    apply sorted_skipn, Hv. }
  (* the rotation *)
  assert (D1 : (if (s <? m)%nat && (m <? e)%nat then GoSort.rotate A d s m e else d)
               = u1 ++ v1 ++ u2 ++ v2).
  { subst u1 u2 v1 v2.
    destruct (Nat.ltb_spec s m), (Nat.ltb_spec m e); simpl; try reflexivity.
    - assert (Em : e = m) by lia. rewrite Em, sub_diag. simpl.
      rewrite <- (firstn_skipn s d) at 1. f_equal. apply skipn_sub; lia.
    - assert (Es : s = m) by lia. rewrite Es, sub_diag. simpl.
      rewrite <- (firstn_skipn m d) at 1. f_equal. apply skipn_sub; lia.
    - assert (Es : s = m) by lia. rewrite Es, sub_diag. simpl.
      rewrite <- (firstn_skipn m d) at 1. f_equal. apply skipn_sub; lia. }
  rewrite D1. clear D1.
  assert (F1 : firstn mid (u1 ++ v1 ++ u2 ++ v2) = u1 ++ v1).
  { rewrite app_assoc. apply firstn_app_len. rewrite List.length_app. lia. }
  assert (K1 : skipn mid (u1 ++ v1 ++ u2 ++ v2) = u2 ++ v2).
  { rewrite app_assoc. apply skipn_app_len. rewrite List.length_app. lia. }
  rewrite F1, K1.
  (* the merge of the left halves *)
  assert (D2 : exists w1, stable_merge key u1 v1 w1 /\ List.length w1 = mid /\
    (if (0 <? s)%nat && (s <? mid)%nat
     then GoSort.symMerge A less fuel (u1 ++ v1) s ++ u2 ++ v2
     else u1 ++ v1 ++ u2 ++ v2) = w1 ++ u2 ++ v2).
  { destruct (Nat.ltb_spec 0 s), (Nat.ltb_spec s mid); simpl.
    - exists (GoSort.symMerge A less fuel (u1 ++ v1) s).
      assert (Hw : stable_merge key u1 v1 (GoSort.symMerge A less fuel (u1 ++ v1) s)).
      { pose proof (IH (u1 ++ v1) s) as W.
        rewrite firstn_app_len, skipn_app_len in W by auto.
        apply W; auto; rewrite List.length_app; lia. }
      split; [exact Hw | split; [rewrite (sm_length _ _ _ Hw); lia | reflexivity]].
    - exists u1. assert (Ev : v1 = []) by (apply nil_of_length; lia). rewrite Ev.
      split; [apply sm_nil_r; auto | split; [lia | reflexivity]].
    - exists v1. assert (Eu : u1 = []) by (apply nil_of_length; lia). rewrite Eu.
      split; [apply sm_nil_l; auto | split; [lia | reflexivity]].
    - exfalso; lia. }
  destruct D2 as (w1 & W1 & Lw1 & D2). rewrite D2. clear D2.
  assert (F2 : firstn mid (w1 ++ u2 ++ v2) = w1) by (apply firstn_app_len; auto).
  assert (K2 : skipn mid (w1 ++ u2 ++ v2) = u2 ++ v2) by (apply skipn_app_len; auto).
  rewrite F2, K2.
  (* the merge of the right halves *)
  assert (D3 : exists w2, stable_merge key u2 v2 w2 /\
    (if (mid <? e)%nat && (e <? b)%nat
     then w1 ++ GoSort.symMerge A less fuel (u2 ++ v2) (e - mid)
     else w1 ++ u2 ++ v2) = w1 ++ w2).
  { destruct (Nat.ltb_spec mid e), (Nat.ltb_spec e b); simpl.
    - exists (GoSort.symMerge A less fuel (u2 ++ v2) (e - mid)). split; [|reflexivity].
      pose proof (IH (u2 ++ v2) (e - mid)%nat) as W.
      rewrite firstn_app_len, skipn_app_len in W by lia.
      apply W; auto; rewrite List.length_app; lia.
    - exists u2. assert (Ev : v2 = []) by (apply nil_of_length; lia). rewrite Ev.
      rewrite app_nil_r. split; [apply sm_nil_r; auto | reflexivity].
    - exists v2. assert (Eu : u2 = []) by (apply nil_of_length; lia). rewrite Eu.
      split; [apply sm_nil_l; auto | reflexivity].
    - exists v2. assert (Eu : u2 = []) by (apply nil_of_length; lia). rewrite Eu.
      split; [apply sm_nil_l; auto | reflexivity]. }
  destruct D3 as (w2 & W2 & D3). rewrite D3. clear D3.
  rewrite Du, Dv.
  apply sm_split; auto; [rewrite <- Du; exact Hu | rewrite <- Dv; exact Hv].
Qed.


Lemma key_class_in_app (u v w : list A) x :
  (forall k, kc k w = kc k u ++ kc k v) -> In x w -> In x u \/ In x v.
Proof.
  intros H Hx. assert (Hk : In x (kc (key x) w)) by (apply key_class_in; auto).
  rewrite H in Hk. apply in_app_or in Hk as [Hk|Hk]; apply key_class_in in Hk; tauto.
Qed.

Lemma sink_spec x (r : list A) :
  sorted (rev r) ->
  sorted (rev (GoSort.sink A less x r)) /\
  forall k, kc k (rev (GoSort.sink A less x r)) = kc k (rev r) ++ kc k [x].
Proof.
  induction r as [|y r IH]; intros H; [split; [apply sorted_short; auto | reflexivity]|].
  simpl in H. apply sorted_app in H as (H1 & _ & H3).
  cbn [GoSort.sink]. destruct (Z.ltb_spec (key x) (key y)) as [Lt|Ge].
  - destruct (IH H1) as (S & K). cbn [rev]. split.
    + apply sorted_app; split; [exact S | split; [apply sorted_short; auto|]].
      intros z w Hz [<-|[]].
      destruct (key_class_in_app _ _ _ z K Hz) as [Hz'|[<-|[]]].
      * apply H3; simpl; auto.
      * lia.
    + intros k. rewrite key_class_app, K. simpl rev. rewrite !key_class_app.
      rewrite <- !app_assoc. f_equal.
      unfold key_class; simpl.
      destruct (Z.eqb_spec (key x) k), (Z.eqb_spec (key y) k); simpl; auto; lia.
  - cbn [rev]. split.
    + apply sorted_app; split; [|split; [apply sorted_short; auto|]].
      { apply sorted_app; split; [exact H1 | split; [apply sorted_short; auto|]].
        intros; apply H3; auto. }
      intros z w Hz [<-|[]]. simpl in Hz. apply in_app_or in Hz as [Hz|[<-|[]]].
      * specialize (H3 z y Hz ltac:(simpl; auto)). lia.
      * lia.
    + intros k. rewrite key_class_app. reflexivity.
Qed.

Lemma insertion_fold_spec (d r : list A) :
  sorted (rev r) ->
  sorted (rev (fold_left (fun r x => GoSort.sink A less x r) d r)) /\
  forall k, kc k (rev (fold_left (fun r x => GoSort.sink A less x r) d r)) =
            kc k (rev r) ++ kc k d.
Proof.
  revert r; induction d as [|x d IH]; intros r H.
  - split; auto. intros k. simpl. rewrite app_nil_r. reflexivity.
  - simpl. destruct (sink_spec x r H) as (S & K).
    destruct (IH _ S) as (S' & K'). split; auto.
    intros k. rewrite K', K, <- app_assoc. f_equal.
    rewrite <- key_class_app. reflexivity.
Qed.

Lemma insertionSort_spec (d : list A) :
  sorted (GoSort.insertionSort A less d) /\
  forall k, kc k (GoSort.insertionSort A less d) = kc k d.
Proof.
  unfold GoSort.insertionSort.
  destruct (insertion_fold_spec d [] ltac:(apply sorted_short; auto)) as (S & K).
  split; auto.
Qed.

Lemma same_classes_length (l l' : list A) :
  (forall k, kc k l = kc k l') -> List.length l = List.length l'.
Proof. intros H. apply Permutation_length, key_class_perm, H. Qed.

Lemma sorted_blocks_of_sorted bs (l : list A) :
  (0 < bs)%nat -> sorted l -> sorted_blocks key bs l.
Proof.
  intros Hbs. remember (List.length l) as len eqn:E.
  revert l E; induction len as [len IH] using lt_wf_ind; intros l E H.
  destruct (Nat.le_gt_cases len bs).
  - apply sorted_blocks_last; auto; lia.
  - rewrite <- (firstn_skipn bs l). apply sorted_blocks_cons.
    + rewrite length_firstn; lia.
    + apply sorted_firstn, H.
    + apply (IH (List.length (skipn bs l))); auto.
      * rewrite length_skipn; lia.
      * apply sorted_skipn, H.
Qed.

Lemma sorted_blocks_inv bs (l : list A) :
  sorted_blocks key bs l -> (bs <= List.length l)%nat ->
  sorted (firstn bs l) /\ sorted_blocks key bs (skipn bs l).
Proof.
  intros H Hl. destruct H as [l Hle Hs|b l Hb Hs Hr].
  - rewrite firstn_all2, skipn_all2 by lia. split; auto.
    apply sorted_blocks_last; [simpl; lia | apply sorted_short; auto].
  - rewrite firstn_app_len, skipn_app_len by auto. auto.
Qed.

Lemma sorted_blocks_short bs (l : list A) :
  sorted_blocks key bs l -> (List.length l <= bs)%nat -> sorted l.
Proof.
  intros H Hl. destruct H as [l Hle Hs|b l Hb Hs Hr]; auto.
  rewrite List.length_app in Hl. rewrite (nil_of_length l) by lia. rewrite app_nil_r. auto.
Qed.

Lemma insertion_blocks_spec bs fuel (d : list A) :
  (0 < bs)%nat ->
  sorted_blocks key bs (GoSort.insertion_blocks A less fuel bs d) /\
  forall k, kc k (GoSort.insertion_blocks A less fuel bs d) = kc k d.
Proof.
  intros Hbs. revert d; induction fuel as [|fuel IH]; intros d; cbn [GoSort.insertion_blocks].
  - destruct (insertionSort_spec d) as (S & K). split; auto.
    apply sorted_blocks_of_sorted; auto.
  - destruct (Nat.leb_spec bs (List.length d)); [|simpl].
    + rewrite (proj2 (Nat.ltb_lt 0 bs) Hbs). simpl.
      destruct (insertionSort_spec (firstn bs d)) as (S & K).
      destruct (IH (skipn bs d)) as (S' & K'). split.
      * apply sorted_blocks_cons; auto.
        rewrite (same_classes_length _ _ K), length_firstn. lia.
      * intros k. rewrite key_class_app, K, K', <- key_class_app, firstn_skipn. reflexivity.
    + destruct (insertionSort_spec d) as (S & K). split; auto.
      apply sorted_blocks_of_sorted; auto.
Qed.

Lemma merge_round_spec bs fuel (d : list A) :
  (0 < bs)%nat -> (List.length d <= fuel)%nat -> sorted_blocks key bs d ->
  sorted_blocks key (2 * bs) (GoSort.merge_round A less fuel bs d) /\
  forall k, kc k (GoSort.merge_round A less fuel bs d) = kc k d.
Proof.
  intros Hbs. revert d; induction fuel as [|fuel IH]; intros d Hf Hd;
    cbn [GoSort.merge_round].
  - rewrite (nil_of_length d) by lia. split; auto.
    apply sorted_blocks_last; [simpl; lia | apply sorted_short; auto].
  - rewrite (proj2 (Nat.ltb_lt 0 bs) Hbs), andb_true_r.
    destruct (Nat.leb_spec (2 * bs) (List.length d)) as [Hle|Hgt].
    + destruct (sorted_blocks_inv _ _ Hd ltac:(lia)) as (S1 & B1).
      destruct (sorted_blocks_inv _ _ B1 ltac:(rewrite length_skipn; lia)) as (S2 & B2).
      rewrite skipn_skipn in B2. replace (bs + bs)%nat with (2 * bs)%nat in B2 by lia.
      set (c := firstn (2 * bs) d).
      assert (Hc1 : firstn bs c = firstn bs d)
        by (subst c; rewrite firstn_firstn; f_equal; lia).
      assert (Hc2 : skipn bs c = firstn bs (skipn bs d))
        by (subst c; rewrite skipn_firstn_comm; f_equal; lia).
      assert (Lc : List.length c = (2 * bs)%nat) by (subst c; rewrite length_firstn; lia).
      pose proof (symMerge_spec (2 * bs) c bs ltac:(lia) ltac:(lia)) as W.
      rewrite Hc1, Hc2 in W. specialize (W S1 S2).
      rewrite <- Hc1, <- Hc2 in W.
      destruct (IH (skipn (2 * bs) d) ltac:(rewrite length_skipn; lia) B2) as (S' & K').
      split.
      * apply sorted_blocks_cons; auto; [|apply W].
        rewrite (sm_length _ _ _ W), <- List.length_app, firstn_skipn. exact Lc.
      * intros k. rewrite key_class_app, K'. destruct W as [_ W]. rewrite W.
        rewrite <- !key_class_app, firstn_skipn. subst c.
        rewrite firstn_skipn. reflexivity.
    + destruct (Nat.ltb_spec bs (List.length d)) as [Hlt|Hge].
      * destruct (sorted_blocks_inv _ _ Hd ltac:(lia)) as (S1 & B1).
        pose proof (sorted_blocks_short _ _ B1 ltac:(rewrite length_skipn; lia)) as S2.
        pose proof (symMerge_spec (List.length d) d bs ltac:(lia) ltac:(lia) S1 S2) as W.
        split.
        -- apply sorted_blocks_last; [|apply W].
           rewrite (sm_length _ _ _ W), <- List.length_app, firstn_skipn. lia.
        -- intros k. destruct W as [_ W]. rewrite W, <- key_class_app, firstn_skipn.
           reflexivity.
      * split; auto. apply sorted_blocks_last; [lia|].
        apply (sorted_blocks_short bs); auto.
Qed.

Lemma merge_rounds_spec fuel bs (d : list A) :
  (0 < bs)%nat -> (List.length d <= fuel + bs)%nat -> sorted_blocks key bs d ->
  sorted (GoSort.merge_rounds A less fuel bs d) /\
  forall k, kc k (GoSort.merge_rounds A less fuel bs d) = kc k d.
Proof.
  revert bs d; induction fuel as [|fuel IH]; intros bs d Hbs Hl Hd;
    cbn [GoSort.merge_rounds].
  - split; auto. apply (sorted_blocks_short bs); auto.
  - destruct (Nat.ltb_spec bs (List.length d)).
    + destruct (merge_round_spec bs (List.length d) d Hbs ltac:(lia) Hd) as (B & K).
      pose proof (same_classes_length _ _ K) as L.
      destruct (IH (2 * bs)%nat (GoSort.merge_round A less (List.length d) bs d) ltac:(lia) ltac:(lia) B) as (S' & K').
      split; auto. intros k. rewrite K', K. reflexivity.
    + split; auto. apply (sorted_blocks_short bs); auto.
Qed.

(** [sort.SliceStable] sorts by the key and keeps the order of the
    elements of each key. *)
Lemma SliceStable_spec (d : list A) :
  sorted (GoSort.SliceStable A less d) /\
  forall k, kc k (GoSort.SliceStable A less d) = kc k d.
Proof.
  unfold GoSort.SliceStable.
  destruct (insertion_blocks_spec 20 (List.length d) d ltac:(lia)) as (B & K).
  pose proof (same_classes_length _ _ K) as L.
  destruct (merge_rounds_spec (List.length d) 20 (GoSort.insertion_blocks A less (List.length d) 20 d) ltac:(lia) ltac:(lia) B) as (S & K').
  split; auto. intros k. rewrite K', K. reflexivity.
Qed.

End SortFacts.

(** C5: whenever the run produces its record sequence, that sequence is the
    records of the parsed rows, in navigation and row order, sorted
    ascending by the Almaty instant, and for every instant the records at
    that instant appear in the same relative order as before the sort. *)
Theorem C5_main_records_stable_sort (local : GoTime.location)
    (jsonMap : list (string * json)) (out : list TypedTranslation.t) :
  main_records local jsonMap = Ok out ->
  exists translations res,
    parsePage jsonMap = Ok translations /\
    map_result (ToTypedTranslation local) translations = Ok res /\
    Sorted (fun x y => GoTime.unix (TypedTranslation.AlmatyTime x) <=
                       GoTime.unix (TypedTranslation.AlmatyTime y)) out /\
    Permutation res out /\
    forall k,
      filter (fun x => GoTime.unix (TypedTranslation.AlmatyTime x) =? k) out =
      filter (fun x => GoTime.unix (TypedTranslation.AlmatyTime x) =? k) res.
Proof.
  unfold main_records. intros H.
  destruct (parsePage jsonMap) as [translations|e] eqn:E1; cbn [bind] in H;
    [|discriminate H].
  destruct (map_result (ToTypedTranslation local) translations) as [res|e] eqn:E2;
    cbn [bind] in H; [|discriminate H].
  injection H as <-. exists translations, res.
  split; [reflexivity|]. split; [exact E2|].
  destruct (SliceStable_spec TypedTranslation.t
              (fun x => GoTime.unix (TypedTranslation.AlmatyTime x)) res) as (S & K).
  split; [|split].
  - apply StronglySorted_Sorted, S.
  - symmetry.
    exact (key_class_perm _ (fun x => GoTime.unix (TypedTranslation.AlmatyTime x)) _ _ K).
  - exact K.
Qed.

Lemma C5_main_records_stable_sort_witness :
  exists out, main_records GoTime.UTC tie_page = Ok out /\
    List.map TypedTranslation.Tournament out = ["Second"; "Third"; "First"]%string /\
    exists translations res,
      parsePage tie_page = Ok translations /\
      map_result (ToTypedTranslation GoTime.UTC) translations = Ok res /\
      Sorted (fun x y => GoTime.unix (TypedTranslation.AlmatyTime x) <=
                         GoTime.unix (TypedTranslation.AlmatyTime y)) out /\
      Permutation res out /\
      forall k,
        filter (fun x => GoTime.unix (TypedTranslation.AlmatyTime x) =? k) out =
        filter (fun x => GoTime.unix (TypedTranslation.AlmatyTime x) =? k) res.
Proof.
  assert (Hn : result_map (List.map TypedTranslation.Tournament) (main_records GoTime.UTC tie_page)
               = Ok ["Second"; "Third"; "First"]%string) by (vm_compute; reflexivity).
  destruct (main_records GoTime.UTC tie_page) as [out|e] eqn:E; [|discriminate Hn].
  exists out. split; [reflexivity|]. split; [injection Hn as Hn; exact Hn|].
  exact (C5_main_records_stable_sort GoTime.UTC tie_page out E).
Defined.

(** ** The JSON text of the page *)

Section PageTextFacts.
Import GoStrings GoParse PageText.

Lemma has_prefix_app (x y sub : string) :
  (String.length sub <= String.length x)%nat ->
  has_prefix (x ++ y) sub = has_prefix x sub.
Proof.
  revert x. induction sub as [|c sub IH]; intros x H.
  - destruct (x ++ y)%string, x; reflexivity.
  - destruct x as [|d x]; cbn in H; [lia|]. cbn. rewrite IH by lia. reflexivity.
Qed.

Lemma has_prefix_app_true (x y sub : string) :
  has_prefix x sub = true -> has_prefix (x ++ y) sub = true.
Proof.
  revert x. induction sub as [|c sub IH]; intros x H.
  - destruct (x ++ y)%string; reflexivity.
  - destruct x as [|d x]; cbn in H |- *; [discriminate|].
    apply andb_prop in H as [H1 H2]. rewrite H1, (IH x H2). reflexivity.
Qed.

Lemma drop_nil (n : nat) : drop n EmptyString = EmptyString.
Proof. destruct n; reflexivity. Qed.

Lemma drop_drop (n m : nat) (s : string) : drop m (drop n s) = drop (n + m) s.
Proof.
  revert n. induction s as [|c s IH]; intros n.
  - rewrite !drop_nil. reflexivity.
  - destruct n as [|n]; [rewrite drop_0; reflexivity|]. exact (IH n).
Qed.

Lemma length_drop (n : nat) (s : string) :
  String.length (drop n s) = (String.length s - n)%nat.
Proof.
  revert n. induction s as [|c s IH]; intros n.
  - rewrite drop_nil. reflexivity.
  - destruct n as [|n]; [rewrite drop_0; cbn; lia|]. exact (IH n).
Qed.

Lemma drop_length (s : string) : drop (String.length s) s = EmptyString.
Proof. induction s as [|c s IH]; [reflexivity|exact IH]. Qed.

Lemma substring_drop (k : nat) (s : string) :
  (k <= String.length s)%nat -> (substring 0 k s ++ drop k s)%string = s.
Proof.
  revert k. induction s as [|c s IH]; intros k Hk.
  - cbn in Hk. replace k with 0%nat by lia. reflexivity.
  - destruct k as [|k]; [rewrite drop_0; reflexivity|].
    cbn in Hk |- *. f_equal. apply IH. lia.
Qed.

Lemma length_substring_0 (k : nat) (s : string) :
  (k <= String.length s)%nat -> String.length (substring 0 k s) = k.
Proof.
  revert k. induction s as [|c s IH]; intros k Hk.
  - cbn in Hk. replace k with 0%nat by lia. reflexivity.
  - destruct k as [|k]; [reflexivity|]. cbn in Hk |- *. f_equal. apply IH. lia.
Qed.

Lemma index_from_ge (s sub : string) (i : Z) :
  index_from s sub i = -1 \/ i <= index_from s sub i.
Proof.
  revert i. induction s as [|c s IH]; intros i; cbn [index_from].
  - destruct (has_prefix EmptyString sub); [right; lia|left; reflexivity].
  - destruct (has_prefix (String c s) sub); [right; lia|].
    destruct (IH (i + 1)); [left|right]; lia.
Qed.

Lemma index_from_app (x y sub : string) (i : Z) (k : nat) :
  0 <= i ->
  index_from x sub i = i + Z.of_nat k ->
  (k + String.length sub <= String.length x)%nat ->
  index_from (x ++ y) sub i = i + Z.of_nat k.
Proof.
  revert i k. induction x as [|c x IH]; intros i k Hi Hx Hk.
  - cbn in Hk. destruct sub as [|c0 sub]; [|cbn in Hk; lia].
    replace k with 0%nat by lia. destruct y; cbn; lia.
  - change (String c x ++ y)%string with (String c (x ++ y)).
    cbn [index_from] in Hx |- *.
    replace (has_prefix (String c (x ++ y)) sub) with (has_prefix (String c x) sub)
      by (symmetry; apply (has_prefix_app (String c x) y sub); cbn in Hk |- *; lia).
    destruct (has_prefix (String c x) sub) eqn:E; [exact Hx|].
    destruct k as [|k].
    + destruct (index_from_ge x sub (i + 1)); lia.
    + rewrite (IH (i + 1) k); [lia|lia|rewrite Hx; lia|cbn in Hk; lia].
Qed.

Lemma Index_app (x y sub : string) (k : nat) :
  Index x sub = Z.of_nat k ->
  (k + String.length sub <= String.length x)%nat ->
  Index (x ++ y) sub = Z.of_nat k.
Proof.
  unfold Index. intros H1 H2.
  pose proof (index_from_app x y sub 0 k ltac:(lia) ltac:(rewrite H1; lia) H2). lia.
Qed.

Lemma index_from_none (s sub : string) (i : Z) :
  0 <= i ->
  index_from s sub i = -1 <->
  (forall n, (n <= String.length s)%nat -> has_prefix (drop n s) sub = false).
Proof.
  revert i. induction s as [|c s IH]; intros i Hi; cbn [index_from].
  - split.
    + intros H n Hn. cbn in Hn. replace n with 0%nat by lia. rewrite drop_0.
      destruct (has_prefix EmptyString sub); [lia|reflexivity].
    + intros H. specialize (H 0%nat (le_n _)). rewrite drop_0 in H. rewrite H.
      reflexivity.
  - destruct (has_prefix (String c s) sub) eqn:E.
    + split; [lia|]. intros H. specialize (H 0%nat ltac:(lia)).
      rewrite drop_0, E in H. discriminate.
    + rewrite (IH (i + 1)) by lia. split.
      * intros H [|n] Hn; [rewrite drop_0; exact E|]. apply H. cbn in Hn. lia.
      * intros H n Hn. apply (H (S n)). cbn. lia.
Qed.

Lemma index_from_found (s sub : string) (i : Z) (k : nat) :
  0 <= i ->
  index_from s sub i = i + Z.of_nat k ->
  forall n, (n < k)%nat -> has_prefix (drop n s) sub = false.
Proof.
  revert i k. induction s as [|c s IH]; intros i k Hi Hx n Hn; cbn [index_from] in Hx.
  - destruct (has_prefix EmptyString sub); lia.
  - destruct (has_prefix (String c s) sub) eqn:E; [lia|].
    destruct k as [|k]; [lia|].
    destruct n as [|n]; [rewrite drop_0; exact E|].
    apply (IH (i + 1) k); [lia|rewrite Hx; lia|lia].
Qed.

Lemma slice_from_ok (s : string) (n : nat) :
  (n <= String.length s)%nat -> slice_from s (Z.of_nat n) = Ok (drop n s).
Proof.
  intros H. unfold slice_from.
  replace ((0 <=? Z.of_nat n) && (Z.of_nat n <=? Z.of_nat (String.length s))) with true
    by (symmetry; apply andb_true_intro; split; apply Z.leb_le; lia).
  rewrite Nat2Z.id. reflexivity.
Qed.

Lemma slice_to_ok (s : string) (n : nat) :
  (n <= String.length s)%nat -> slice_to s (Z.of_nat n) = Ok (substring 0 n s).
Proof.
  intros H. unfold slice_to.
  replace ((0 <=? Z.of_nat n) && (Z.of_nat n <=? Z.of_nat (String.length s))) with true
    by (symmetry; apply andb_true_intro; split; apply Z.leb_le; lia).
  rewrite Nat2Z.id. reflexivity.
Qed.

(** The text after the start marker, cut at the first end tag. *)
Lemma jsonString_tail (j post : string) :
  Index (j ++ suffix) suffix = Z.of_nat (String.length j) ->
  (let suffixIdx := Index (j ++ suffix ++ post) suffix in
   slice_to (j ++ suffix ++ post) suffixIdx) = Ok j.
Proof.
  intros H. cbv zeta. rewrite string_app_assoc.
  rewrite (Index_app (j ++ suffix) post suffix (String.length j) H)
    by (rewrite length_app; lia).
  rewrite slice_to_ok by (rewrite !length_app; lia).
  rewrite substring_prefix_app, substring_prefix_app, substring_full
    by (rewrite ?length_app; lia).
  reflexivity.
Qed.

End PageTextFacts.

Section PageTextProps.
Import GoStrings GoParse PageText.

(** [parsePage] hands to [json.Unmarshal] the text between the first start
    marker and the first [</script>] after it. *)
Theorem jsonString_between_markers (pre j post : string) :
  Index (pre ++ prefix) prefix = Z.of_nat (String.length pre) ->
  Index (j ++ suffix) suffix = Z.of_nat (String.length j) ->
  jsonString (pre ++ prefix ++ j ++ suffix ++ post) = Ok j.
Proof.
  intros H1 H2. unfold jsonString. cbv zeta.
  rewrite (string_app_assoc pre prefix).
  rewrite (Index_app (pre ++ prefix) _ prefix (String.length pre) H1)
    by (rewrite length_app; lia).
  replace (Z.of_nat (String.length pre) + Z.of_nat (String.length prefix))
    with (Z.of_nat (String.length (pre ++ prefix))) by (rewrite length_app; lia).
  rewrite slice_from_ok by (rewrite !length_app; lia). cbn [bind].
  rewrite drop_app, drop_length by lia.
  exact (jsonString_tail j post H2).
Qed.

Lemma jsonString_between_markers_witness :
  jsonString ("<html><script>init()</script>" ++ prefix ++ "{}" ++ suffix ++
              "<script>x</script></html>") = Ok "{}"%string.
Proof.
  apply (jsonString_between_markers "<html><script>init()</script>" "{}"
           "<script>x</script></html>"); vm_compute; reflexivity.
Defined.

(** With the start marker first found at the end of [pre] and no
    [</script>] after it, [suffixIdx] is -1 and [bodyString[:suffixIdx]]
    panics, whatever [pre] contains. *)
Theorem jsonString_no_end_tag (pre post : string) :
  Index (pre ++ prefix) prefix = Z.of_nat (String.length pre) ->
  Index post suffix = -1 ->
  jsonString (pre ++ prefix ++ post) = Err ErrSliceOutOfRange.
Proof.
  intros H1 H2. unfold jsonString. cbv zeta.
  rewrite (string_app_assoc pre prefix).
  rewrite (Index_app (pre ++ prefix) _ prefix (String.length pre) H1)
    by (rewrite length_app; lia).
  replace (Z.of_nat (String.length pre) + Z.of_nat (String.length prefix))
    with (Z.of_nat (String.length (pre ++ prefix))) by (rewrite length_app; lia).
  rewrite slice_from_ok by (rewrite !length_app; lia). cbn [bind].
  rewrite drop_app, drop_length by lia.
  cbn [append]. unfold slice_to. rewrite H2. reflexivity.
Qed.

Lemma jsonString_no_end_tag_witness :
  jsonString ("<html><script>init()</script>" ++ prefix ++ "{}")%string
    = Err ErrSliceOutOfRange.
Proof.
  apply (jsonString_no_end_tag "<html><script>init()</script>" "{}");
    vm_compute; reflexivity.
Defined.

(** Without the start marker, [prefixIdx] is -1 and the code reads on from
    byte [len(prefix) - 1] of the page: no panic at this point. *)
Theorem jsonString_marker_absent (x j post : string) :
  Index (x ++ j ++ suffix ++ post) prefix = -1 ->
  String.length x = (String.length prefix - 1)%nat ->
  Index (j ++ suffix) suffix = Z.of_nat (String.length j) ->
  jsonString (x ++ j ++ suffix ++ post) = Ok j.
Proof.
  intros H1 H2 H3. unfold jsonString. cbv zeta. rewrite H1.
  assert (Lp : String.length prefix = 51%nat) by reflexivity.
  replace (-1 + Z.of_nat (String.length prefix)) with (Z.of_nat (String.length x))
    by (rewrite H2, Lp; reflexivity).
  rewrite slice_from_ok by (rewrite !length_app; lia). cbn [bind].
  rewrite drop_app, drop_length by lia.
  exact (jsonString_tail j post H3).
Qed.

Lemma jsonString_marker_absent_witness :
  jsonString ("<html><head><title>Overwatch League</title></head>" ++ "{}" ++
              suffix ++ "")%string = Ok "{}"%string.
Proof.
  apply jsonString_marker_absent; vm_compute; reflexivity.
Defined.

(** The JSON text never contains [</script>]. *)
Theorem jsonString_no_end_tag_inside (bodyString j : string) :
  jsonString bodyString = Ok j -> Index j suffix = -1.
Proof.
  unfold jsonString. cbv zeta. unfold slice_from at 1.
  destruct (_ && _); cbn [bind]; [|discriminate].
  set (b := drop _ bodyString). clearbody b.
  unfold slice_to. destruct (_ && _) eqn:C; [|discriminate].
  intros E. injection E as <-.
  apply andb_prop in C as [C1 C2]. apply Z.leb_le in C1, C2.
  set (k := Z.to_nat (Index b suffix)).
  assert (Hk : Index b suffix = Z.of_nat k) by (unfold k; rewrite Z2Nat.id; lia).
  assert (Kb : (k <= String.length b)%nat) by lia.
  clearbody k.
  assert (F := index_from_found b suffix 0 k ltac:(lia) ltac:(unfold Index in Hk; lia)).
  unfold Index. apply index_from_none; [lia|].
  rewrite length_substring_0 by exact Kb. intros n Hn.
  destruct (Nat.eq_dec n k) as [->|Hne].
  - rewrite <- (length_substring_0 k b Kb) at 1. rewrite drop_length. reflexivity.
  - destruct (has_prefix (drop n (substring 0 k b)) suffix) eqn:E; [|reflexivity].
    apply (has_prefix_app_true _ (drop k b)) in E.
    rewrite <- drop_app in E by (rewrite length_substring_0; lia).
    rewrite substring_drop in E by exact Kb.
    rewrite (F n) in E by lia. discriminate.
Qed.

Lemma jsonString_no_end_tag_inside_witness :
  Index "{}" suffix = -1.
Proof.
  apply (jsonString_no_end_tag_inside
           ("<html><script>init()</script>" ++ prefix ++ "{}" ++ suffix)%string).
  vm_compute. reflexivity.
Defined.

End PageTextProps.

(** ** Paths, blocks and fragments *)

Section NavigatorProps.
Import Navigator.

Lemma get_path_app (m : list (string * json)) (p q : list string) :
  p <> [] -> q <> [] ->
  getMap m (p ++ q) = (m' <- getMap m p ;; getMap m' q) /\
  getString m (p ++ q) = (m' <- getMap m p ;; getString m' q).
Proof.
  intros Hp Hq. revert m. induction p as [|k p IH]; intros m; [congruence|].
  destruct p as [|k' p].
  - destruct q as [|q0 q]; [congruence|]. split; reflexivity.
  - specialize (IH ltac:(discriminate)).
    change ((k :: k' :: p) ++ q) with (k :: k' :: (p ++ q)).
    cbn [getMap getString].
    destruct (as_map (lookup m k)) as [m'|e]; cbn [bind]; [|split; reflexivity].
    exact (IH m').
Qed.

(** [getMap] and [getString] follow a path one map at a time: a path split
    in two non-empty parts is the second part followed from the map the
    first part reaches. *)
Theorem getMap_getString_compose (m : list (string * json)) (p q : list string) :
  p <> [] -> q <> [] ->
  getMap m (p ++ q) = (m' <- getMap m p ;; getMap m' q) /\
  getString m (p ++ q) = (m' <- getMap m p ;; getString m' q).
Proof. exact (get_path_app m p q). Qed.

Lemma getMap_getString_compose_witness :
  getMap sample_page (["props"]%string ++ ["pageProps"]%string) =
    (m' <- getMap sample_page ["props"]%string ;; getMap m' ["pageProps"]%string) /\
  getString sample_page (["props"]%string ++ ["pageProps"]%string) =
    (m' <- getMap sample_page ["props"]%string ;; getString m' ["pageProps"]%string).
Proof. apply getMap_getString_compose; discriminate. Defined.

(** A key missing at any level of the path, the first one included, is a
    failed type assertion: the nil the map yields is not a map nor a
    string.  [m'] is the map at that level: [m] itself when the key comes
    first, else the map that the keys [p] before it reach. *)
Theorem getMap_getString_missing_key (m m' : list (string * json))
  (p q : list string) (k : string) :
  (p = [] /\ m' = m \/ getMap m p = Ok m') -> lookup m' k = None ->
  getMap m (p ++ k :: q) = Err ErrTypeAssertion /\
  getString m (p ++ k :: q) = Err ErrTypeAssertion.
Proof.
  intros [[-> ->]|H1] H2.
  - cbn [app]. destruct q; cbn [getMap getString]; rewrite H2; split; reflexivity.
  - destruct p as [|k0 p0]; [discriminate H1|].
    destruct (get_path_app m (k0 :: p0) (k :: q) ltac:(discriminate) ltac:(discriminate))
      as [E1 E2].
    rewrite E1, E2, H1. cbn [bind].
    destruct q; cbn [getMap getString]; rewrite H2; split; reflexivity.
Qed.

Lemma getMap_getString_missing_key_witness :
  (getMap sample_page ([] ++ ["data"; "x"]%string) = Err ErrTypeAssertion /\
   getString sample_page ([] ++ ["data"; "x"]%string) = Err ErrTypeAssertion) /\
  (getMap sample_page (["props"; "pageProps"]%string ++ ["tabs"; "x"]%string)
     = Err ErrTypeAssertion /\
   getString sample_page (["props"; "pageProps"]%string ++ ["tabs"; "x"]%string)
     = Err ErrTypeAssertion).
Proof.
  split.
  - apply (getMap_getString_missing_key sample_page sample_page [] ["x"]%string
             "data"%string); [left; split; reflexivity|].
    vm_compute. reflexivity.
  - destruct (getMap sample_page ["props"; "pageProps"]%string) as [pp|e] eqn:E.
    + apply (getMap_getString_missing_key sample_page pp ["props"; "pageProps"]%string
               ["x"]%string "tabs"%string); [right; exact E|].
      assert (Hl : match getMap sample_page ["props"; "pageProps"]%string with
                   | Ok pp => lookup pp "tabs" = None | Err _ => False end)
        by (vm_compute; reflexivity).
      rewrite E in Hl. exact Hl.
    + assert (Hok : match getMap sample_page ["props"; "pageProps"]%string with
                    | Ok _ => true | Err _ => false end = true)
        by (vm_compute; reflexivity).
      rewrite E in Hok. discriminate Hok.
Defined.

Lemma find_tabs_unmarked (blocks : list json) :
  Forall unmarked_block blocks -> find_tabs blocks = Ok [].
Proof.
  induction 1 as [|b blocks [m [-> Hm]] _ IH]; [reflexivity|].
  cbn [find_tabs as_map bind]. rewrite Hm. exact IH.
Qed.

(** Without a block that has the key "tabs", [tabsSlice] stays nil: the
    page gives no rows and the run no records, without a panic. *)
Theorem parsePage_without_schedule (local : GoTime.location)
  (jsonMap pp : list (string * json)) (blocks : list json) :
  getMap jsonMap ["props"; "pageProps"]%string = Ok pp ->
  lookup pp "blocks" = Some (JArray blocks) ->
  Forall unmarked_block blocks ->
  parsePage jsonMap = Ok [] /\ main_records local jsonMap = Ok [].
Proof.
  intros H1 H2 H3.
  assert (P : parsePage jsonMap = Ok []).
  { unfold parsePage, parse_page_with. rewrite H1. cbn [bind].
    unfold getSlice. rewrite H2. cbn [as_slice bind].
    rewrite (find_tabs_unmarked blocks H3). reflexivity. }
  split; [exact P|]. unfold main_records. rewrite P. reflexivity.
Qed.

Lemma parsePage_without_schedule_witness :
  parsePage no_schedule_page = Ok [] /\ main_records GoTime.UTC no_schedule_page = Ok [].
Proof.
  apply (parsePage_without_schedule GoTime.UTC no_schedule_page
           [("blocks", JArray [JObject [("banner", JObject [("title", JString "Schedule")])]])]%string
           [JObject [("banner", JObject [("title", JString "Schedule")])]]%string);
    [reflexivity|reflexivity|].
  repeat constructor. eexists. split; reflexivity.
Defined.

Lemma find_tabs_non_map (pre post : list json) (b : json) :
  Forall unmarked_block pre -> (forall m, b <> JObject m) ->
  find_tabs (pre ++ b :: post) = Err ErrTypeAssertion.
Proof.
  intros Hpre Hb. induction Hpre as [|b' pre [m [-> Hm]] _ IH].
  - cbn [app find_tabs]. destruct b; try reflexivity. exfalso. eapply Hb. reflexivity.
  - cbn [app find_tabs as_map bind]. rewrite Hm. exact IH.
Qed.

(** A block that is not a map, met before the schedule block, makes
    [block.(map[string]any)] panic: such blocks are not skipped. *)
Theorem parsePage_non_map_block (jsonMap pp : list (string * json))
  (pre post : list json) (b : json) :
  getMap jsonMap ["props"; "pageProps"]%string = Ok pp ->
  lookup pp "blocks" = Some (JArray (pre ++ b :: post)) ->
  Forall unmarked_block pre -> (forall m, b <> JObject m) ->
  parsePage jsonMap = Err ErrTypeAssertion.
Proof.
  intros H1 H2 H3 H4. unfold parsePage, parse_page_with. rewrite H1. cbn [bind].
  unfold getSlice. rewrite H2. cbn [as_slice bind].
  rewrite (find_tabs_non_map pre post b H3 H4). reflexivity.
Qed.

Lemma parsePage_non_map_block_witness :
  parsePage (schedule_page [JString "ad"] [tie_fragment]) = Err ErrTypeAssertion.
Proof.
  eapply (parsePage_non_map_block _ _ [] _ (JString "ad")); [reflexivity|reflexivity| |].
  - constructor.
  - discriminate.
Defined.

Lemma loop_blocks_fragments {A} (f : string -> result (list A)) (bl : list json)
  (ss : list string) :
  loop_blocks string (fun s => Ok [s]) bl = Ok ss ->
  loop_blocks A f bl = result_map (@List.concat A) (map_result f ss).
Proof.
  revert ss. induction bl as [|b bl IH]; intros ss H; cbn [loop_blocks] in H |- *.
  - injection H as <-. reflexivity.
  - destruct (as_map (Some b)) as [bm|e]; cbn [bind] in H |- *; [|discriminate].
    destruct (getString bm _) as [s|e]; cbn [bind] in H |- *; [|discriminate].
    destruct (loop_blocks string _ bl) as [ss'|e]; cbn [bind] in H; [|discriminate].
    injection H as <-. rewrite (IH ss' eq_refl). cbn [app map_result].
    destruct (f s) as [xs|e]; cbn [bind result_map]; [|reflexivity].
    destruct (map_result f ss'); cbn [bind result_map]; reflexivity.
Qed.

Lemma loop_tabs_fragments {A} (f : string -> result (list A)) (tabs : list json)
  (ss : list string) :
  loop_tabs string (fun s => Ok [s]) tabs = Ok ss ->
  loop_tabs A f tabs = result_map (@List.concat A) (map_result f ss).
Proof.
  revert ss. induction tabs as [|t tabs IH]; intros ss H; cbn [loop_tabs] in H |- *.
  - injection H as <-. reflexivity.
  - destruct (as_map (Some t)) as [tm|e]; cbn [bind] in H |- *; [|discriminate].
    destruct (as_slice (lookup tm "blocks")) as [bl|e]; cbn [bind] in H |- *;
      [|discriminate].
    destruct (loop_blocks string _ bl) as [xs0|e] eqn:E1; cbn [bind] in H;
      [|discriminate].
    destruct (loop_tabs string _ tabs) as [ys0|e] eqn:E2; cbn [bind] in H;
      [|discriminate].
    injection H as <-.
    rewrite (loop_blocks_fragments f bl xs0 E1), (IH ys0 eq_refl), map_result_app.
    destruct (map_result f xs0); cbn [bind result_map]; [|reflexivity].
    destruct (map_result f ys0); cbn [bind result_map]; [|reflexivity].
    rewrite List.concat_app. reflexivity.
Qed.

Lemma parse_page_with_fragments {A} (f : string -> result (list A))
  (jsonMap : list (string * json)) (ss : list string) :
  fragments jsonMap = Ok ss ->
  parse_page_with A f jsonMap = result_map (@List.concat A) (map_result f ss).
Proof.
  unfold fragments, parse_page_with.
  destruct (getMap jsonMap _) as [pp|e]; cbn [bind]; [|discriminate].
  destruct (getSlice pp "blocks") as [bl|e]; cbn [bind]; [|discriminate].
  destruct (find_tabs bl) as [tabs|e]; cbn [bind]; [|discriminate].
  apply loop_tabs_fragments.
Qed.

(** Whenever the walk of the page succeeds, [parsePage] is
    [parseArticleRawHtml] applied to each fragment in turn, the rows
    concatenated. *)
Theorem parsePage_by_fragments (jsonMap : list (string * json)) (ss : list string) :
  fragments jsonMap = Ok ss ->
  parsePage jsonMap = result_map (@List.concat Translation.t)
                                 (map_result parseArticleRawHtml ss).
Proof. apply parse_page_with_fragments. Qed.

Lemma parsePage_by_fragments_witness :
  parsePage tie_page = result_map (@List.concat Translation.t)
                                  (map_result parseArticleRawHtml [tie_fragment]).
Proof. apply parsePage_by_fragments. reflexivity. Defined.

End NavigatorProps.

(** ** The loops of [parsePage] and [main] *)

Lemma map_result_first_err {A B} (f : A -> result B) (pre : list A) (x : A)
  (post : list A) (e : go_error) :
  Forall (fun a => exists b, f a = Ok b) pre -> f x = Err e ->
  map_result f (pre ++ x :: post) = Err e.
Proof.
  intros Hpre Hx. induction Hpre as [|a pre [b Hb] _ IH]; cbn [app map_result].
  - rewrite Hx. reflexivity.
  - rewrite Hb. cbn [bind]. rewrite IH. reflexivity.
Qed.

Lemma map_result_Forall2 {A B} (f : A -> result B) (xs : list A) (ys : list B) :
  map_result f xs = Ok ys -> Forall2 (fun x y => f x = Ok y) xs ys.
Proof.
  revert ys. induction xs as [|x xs IH]; intros ys H; cbn [map_result] in H.
  - injection H as <-. constructor.
  - destruct (f x) as [y|e] eqn:E; cbn [bind] in H; [|discriminate].
    destruct (map_result f xs) as [ys'|e]; cbn [bind] in H; [|discriminate].
    injection H as <-. constructor; auto.
Qed.

Lemma ToTypedTranslation_fields (local : GoTime.location) (t : Translation.t)
  (r : TypedTranslation.t) :
  ToTypedTranslation local t = Ok r ->
  TypedTranslation.Tournament r = Translation.Tournament t /\
  TypedTranslation.Region r = Translation.Region t /\
  TypedTranslation.Broadcast r = Translation.Broadcast t /\
  TypedTranslation.OriginalDate r =
    (Translation.Date t ++ " " ++ Translation.Time t)%string /\
  TypedTranslation.AlmatyTime r =
    GoTime.In (TypedTranslation.OriginalTime r) GoTime.almatyLocation.
Proof.
  unfold ToTypedTranslation.
  destruct (if GoStrings.has_suffix (Translation.Time t) "PT" then _ else _) as [v|e];
    cbn [bind]; [|discriminate].
  intros H; injection H as <-. cbn. repeat split.
Qed.

(** The rows are parsed fragment by fragment: the first fragment
    [xml.Unmarshal] rejects makes the page fail with its error, whatever
    follows it. *)
Theorem parsePage_first_failing_fragment (jsonMap : list (string * json))
  (pre : list string) (s : string) (post : list string) (e : go_error) :
  Navigator.fragments jsonMap = Ok (pre ++ s :: post) ->
  Forall (fun s' => exists rows, parseArticleRawHtml s' = Ok rows) pre ->
  parseArticleRawHtml s = Err e ->
  parsePage jsonMap = Err e.
Proof.
  intros H1 H2 H3. unfold parsePage.
  rewrite (parse_page_with_fragments parseArticleRawHtml jsonMap _ H1).
  rewrite (map_result_first_err _ pre s post e H2 H3). reflexivity.
Qed.

Lemma parsePage_first_failing_fragment_witness :
  parsePage (schedule_page [] [tie_fragment; truncated_fragment; "f3"%string])
    = Err ErrParse.
Proof.
  apply (parsePage_first_failing_fragment _ [tie_fragment] truncated_fragment
           ["f3"%string] ErrParse).
  - reflexivity.
  - constructor; [|constructor].
    exists (match parseArticleRawHtml tie_fragment with Ok r => r | Err _ => [] end).
    vm_compute. reflexivity.
  - vm_compute. reflexivity.
Defined.

(** The records are resolved in row order: the first row whose date and
    time cannot be resolved makes the run fail with its error, whatever
    the rows after it. *)
Theorem main_records_first_failure (local : GoTime.location)
  (jsonMap : list (string * json)) (pre : list Translation.t) (t : Translation.t)
  (post : list Translation.t) (e : go_error) :
  parsePage jsonMap = Ok (pre ++ t :: post) ->
  Forall (fun t' => exists r, ToTypedTranslation local t' = Ok r) pre ->
  ToTypedTranslation local t = Err e ->
  main_records local jsonMap = Err e.
Proof.
  intros H1 H2 H3. unfold main_records. rewrite H1. cbn [bind].
  rewrite (map_result_first_err _ pre t post e H2 H3). reflexivity.
Qed.

Lemma main_records_first_failure_witness :
  main_records GoTime.UTC (schedule_page [] [bad_hour_fragment]) = Err ErrParse.
Proof.
  apply (main_records_first_failure GoTime.UTC _
           [Translation.mk "03-15-2024" "" "" "6:00 PM PT" ""]
           (Translation.mk "03-15-2024" "" "" "13:00 PM PT" "")
           [Translation.mk "03-15-2024" "" "" "PT" ""] ErrParse)%string.
  - vm_compute. reflexivity.
  - constructor; [|constructor].
    assert (Hok : match ToTypedTranslation GoTime.UTC
                          (Translation.mk "03-15-2024" "" "" "6:00 PM PT" "")%string with
                  | Ok _ => true | Err _ => false end = true)
      by (vm_compute; reflexivity).
    destruct (ToTypedTranslation GoTime.UTC
                (Translation.mk "03-15-2024" "" "" "6:00 PM PT" "")%string)
      as [r|e'] eqn:E; [exists r; reflexivity|discriminate Hok].
  - vm_compute. reflexivity.
Defined.

Lemma main_records_rows (local : GoTime.location)
  (jsonMap : list (string * json)) (out : list TypedTranslation.t) :
  main_records local jsonMap = Ok out ->
  exists translations res,
    parsePage jsonMap = Ok translations /\
    Permutation res out /\
    Forall2 (fun t r =>
      TypedTranslation.Tournament r = Translation.Tournament t /\
      TypedTranslation.Region r = Translation.Region t /\
      TypedTranslation.Broadcast r = Translation.Broadcast t /\
      TypedTranslation.OriginalDate r =
        (Translation.Date t ++ " " ++ Translation.Time t)%string /\
      TypedTranslation.AlmatyTime r =
        GoTime.In (TypedTranslation.OriginalTime r) GoTime.almatyLocation)
      translations res.
Proof.
  unfold main_records. intros H.
  destruct (parsePage jsonMap) as [translations|e]; cbn [bind] in H; [|discriminate].
  destruct (map_result (ToTypedTranslation local) translations) as [res|e] eqn:E;
    cbn [bind] in H; [|discriminate].
  injection H as <-. exists translations, res. split; [reflexivity|]. split.
  - destruct (SliceStable_spec TypedTranslation.t
                (fun x => GoTime.unix (TypedTranslation.AlmatyTime x)) res) as (_ & K).
    symmetry.
    exact (key_class_perm _ (fun x => GoTime.unix (TypedTranslation.AlmatyTime x)) _ _ K).
  - apply map_result_Forall2 in E.
    eapply Forall2_impl; [|exact E]. intros t r. apply ToTypedTranslation_fields.
Qed.

(** Each record of the run is built from one parsed row, one record per
    row: the tournament, region and broadcast are the row's, the original
    date is the row's date and time joined by a space, and the Almaty time
    is the original time moved to Asia/Almaty. *)
Theorem main_records_from_rows (local : GoTime.location)
  (jsonMap : list (string * json)) (out : list TypedTranslation.t) :
  main_records local jsonMap = Ok out ->
  exists translations res,
    parsePage jsonMap = Ok translations /\
    Permutation res out /\
    Forall2 (fun t r =>
      TypedTranslation.Tournament r = Translation.Tournament t /\
      TypedTranslation.Region r = Translation.Region t /\
      TypedTranslation.Broadcast r = Translation.Broadcast t /\
      TypedTranslation.OriginalDate r =
        (Translation.Date t ++ " " ++ Translation.Time t)%string /\
      TypedTranslation.AlmatyTime r =
        GoTime.In (TypedTranslation.OriginalTime r) GoTime.almatyLocation)
      translations res.
Proof. apply main_records_rows. Qed.

Lemma main_records_from_rows_witness :
  exists out, main_records GoTime.UTC tie_page = Ok out /\
  exists translations res,
    parsePage tie_page = Ok translations /\
    Permutation res out /\
    Forall2 (fun t r =>
      TypedTranslation.Tournament r = Translation.Tournament t /\
      TypedTranslation.Region r = Translation.Region t /\
      TypedTranslation.Broadcast r = Translation.Broadcast t /\
      TypedTranslation.OriginalDate r =
        (Translation.Date t ++ " " ++ Translation.Time t)%string /\
      TypedTranslation.AlmatyTime r =
        GoTime.In (TypedTranslation.OriginalTime r) GoTime.almatyLocation)
      translations res.
Proof.
  assert (Hok : match main_records GoTime.UTC tie_page with
                | Ok _ => true | Err _ => false end = true) by (vm_compute; reflexivity).
  destruct (main_records GoTime.UTC tie_page) as [out|e] eqn:E; [|discriminate Hok].
  exists out. split; [reflexivity|].
  exact (main_records_from_rows GoTime.UTC tie_page out E).
Defined.

(** ** Sorting a sorted sequence *)

Lemma sorted_classes_unique {A} (key : A -> Z) (l1 l2 : list A) :
  key_sorted key l1 -> key_sorted key l2 ->
  (forall k, key_class key k l1 = key_class key k l2) -> l1 = l2.
Proof.
  revert l2. induction l1 as [|x l1 IH]; intros l2 S1 S2 K.
  - destruct l2 as [|y l2]; [reflexivity|].
    specialize (K (key y)). unfold key_class in K. cbn in K.
    rewrite Z.eqb_refl in K. discriminate.
  - destruct l2 as [|y l2].
    + specialize (K (key x)). unfold key_class in K. cbn in K.
      rewrite Z.eqb_refl in K. discriminate.
    + unfold key_sorted in S1, S2.
      apply StronglySorted_inv in S1 as [S1 F1].
      apply StronglySorted_inv in S2 as [S2 F2].
      rewrite Forall_forall in F1, F2.
      assert (Ix : In x (y :: l2)).
      { apply (key_class_in A key x (key x)). rewrite <- K.
        apply key_class_in. split; [left; reflexivity|reflexivity]. }
      assert (Iy : In y (x :: l1)).
      { apply (key_class_in A key y (key y)). rewrite K.
        apply key_class_in. split; [left; reflexivity|reflexivity]. }
      assert (Exy : key x = key y).
      { destruct Ix as [<-|Ix]; [reflexivity|].
        destruct Iy as [->|Iy]; [reflexivity|].
        specialize (F1 y Iy). specialize (F2 x Ix). lia. }
      pose proof (K (key x)) as Kx. unfold key_class in Kx. cbn [filter] in Kx.
      rewrite Z.eqb_refl, <- Exy, Z.eqb_refl in Kx. injection Kx as <- Kx.
      f_equal. apply IH; auto. intros k. specialize (K k).
      unfold key_class in K |- *. cbn [filter] in K.
      destruct (key x =? k) eqn:Ek; [|exact K].
      apply Z.eqb_eq in Ek. subst k. exact Kx.
Qed.

(** [sort.SliceStable] leaves a sequence already sorted by the key as it is. *)
Theorem SliceStable_sorted_unchanged {A} (key : A -> Z) (d : list A) :
  key_sorted key d -> GoSort.SliceStable A (fun x y => key x <? key y) d = d.
Proof.
  intros S. destruct (SliceStable_spec A key d) as (S' & K).
  exact (sorted_classes_unique key _ _ S' S K).
Qed.

Lemma SliceStable_sorted_unchanged_witness :
  GoSort.SliceStable (Z * Z) (fun x y => fst x <? fst y)
    [(1, 0); (1, 1); (2, 0); (3, 5); (3, 4)] =
  [(1, 0); (1, 1); (2, 0); (3, 5); (3, 4)].
Proof.
  apply (SliceStable_sorted_unchanged (fun x : Z * Z => fst x)).
  unfold key_sorted. repeat constructor; cbn; lia.
Defined.

(** Sorting twice is sorting once. *)
Theorem SliceStable_idempotent {A} (key : A -> Z) (d : list A) :
  GoSort.SliceStable A (fun x y => key x <? key y)
    (GoSort.SliceStable A (fun x y => key x <? key y) d) =
  GoSort.SliceStable A (fun x y => key x <? key y) d.
Proof.
  destruct (SliceStable_spec A key d) as (S & _).
  destruct (SliceStable_spec A key (GoSort.SliceStable A (fun x y => key x <? key y) d))
    as (S' & K).
  exact (sorted_classes_unique key _ _ S' S K).
Qed.

(** ** No ampersand reaches a record *)

Section AmpFacts.
Import GoStrings GoXml.

Lemma contains_char_app (x y : string) (c : ascii) :
  contains_char (x ++ y) c = contains_char x c || contains_char y c.
Proof.
  induction x as [|d x IH]; cbn; [reflexivity|]. rewrite IH, orb_assoc. reflexivity.
Qed.

Lemma amp_free_app (x y : string) :
  amp_free x -> amp_free y -> amp_free (x ++ y).
Proof. unfold amp_free. intros H1 H2. rewrite contains_char_app, H1, H2. reflexivity. Qed.

Lemma amp_free_cons (c : ascii) (s : string) :
  Ascii.eqb c "&" = false -> amp_free s -> amp_free (String c s).
Proof. unfold amp_free. intros H1 H2. cbn. rewrite H1, H2. reflexivity. Qed.

Lemma amp_free_cons_inv (c : ascii) (s : string) :
  amp_free (String c s) -> Ascii.eqb c "&" = false /\ amp_free s.
Proof. unfold amp_free. cbn. intros H. apply orb_false_elim in H. exact H. Qed.

Lemma amp_free_empty : amp_free EmptyString.
Proof. reflexivity. Qed.

Lemma amp_free_snoc (s : string) (c : ascii) :
  amp_free s -> Ascii.eqb c "&" = false -> amp_free (snoc s c).
Proof.
  intros H1 H2. apply amp_free_app; [exact H1|]. apply amp_free_cons; auto.
  apply amp_free_empty.
Qed.

Lemma replace_all_amp_free (s : string) :
  amp_free (replace_all_char s "&" "amp;").
Proof.
  induction s as [|c s IH]; cbn [replace_all_char]; [reflexivity|].
  destruct (Ascii.eqb c "&") eqn:E.
  - apply amp_free_app; [reflexivity|exact IH].
  - apply amp_free_cons; auto.
Qed.

Lemma decode_fuel_amp_free (fuel : nat) (inattr : bool) (b0 b1 : ascii)
  (raw d : string) :
  amp_free raw -> decode_fuel fuel inattr b0 b1 raw = Some d -> amp_free d.
Proof.
  revert b0 b1 raw d. induction fuel as [|fuel IH]; intros b0 b1 raw d Hr H;
    cbn [decode_fuel] in H; [discriminate|].
  destruct raw as [|c rest]; [injection H as <-; reflexivity|].
  apply amp_free_cons_inv in Hr as [Hc Hr]. rewrite Hc in H.
  destruct (negb inattr && Ascii.eqb b0 "]" && Ascii.eqb b1 "]" && Ascii.eqb c ">");
    [discriminate|].
  destruct (decode_fuel fuel inattr b1 c rest) as [d'|] eqn:E; [|discriminate].
  specialize (IH b1 c rest d' Hr E).
  destruct (Ascii.eqb c "013"); [injection H as <-; apply amp_free_cons; auto|].
  destruct (Ascii.eqb b1 "013" && Ascii.eqb c "010"); injection H as <-; auto.
  apply amp_free_cons; auto.
Qed.

Lemma decode_amp_free (inattr : bool) (raw d : string) :
  amp_free raw -> decode inattr raw = Some d -> amp_free d.
Proof.
  unfold decode. intros Hr H.
  destruct (decode_fuel _ inattr "000" "000" raw) as [d'|] eqn:E; [|discriminate].
  destruct (text_ok d'); [injection H as <-|discriminate].
  exact (decode_fuel_amp_free _ _ _ _ _ _ Hr E).
Qed.

Lemma cr_fold_amp_free (b1 : ascii) (s : string) :
  amp_free s -> amp_free (cr_fold b1 s).
Proof.
  revert b1. induction s as [|c s IH]; intros b1 H; cbn [cr_fold]; [reflexivity|].
  apply amp_free_cons_inv in H as [Hc H].
  destruct (Ascii.eqb c "013"); [apply amp_free_cons; auto|].
  destruct (Ascii.eqb b1 "013" && Ascii.eqb c "010"); auto.
  apply amp_free_cons; auto.
Qed.

Lemma substring_amp_free (n m : nat) (s : string) :
  amp_free s -> amp_free (substring n m s).
Proof.
  revert n m. induction s as [|c s IH]; intros n m H.
  - destruct n, m; reflexivity.
  - apply amp_free_cons_inv in H as [Hc H]. destruct n as [|n].
    + destruct m as [|m]; cbn [substring]; [reflexivity|]. apply amp_free_cons; auto.
    + cbn [substring]. auto.
Qed.

Lemma chop2_amp_free (s : string) : amp_free s -> amp_free (chop2 s).
Proof. apply substring_amp_free. Qed.

Lemma attrs_amp_free_snoc (a : list (string * string)) (an v : string) :
  attrs_amp_free a -> amp_free an -> amp_free v -> attrs_amp_free (a ++ [(an, v)]).
Proof. intros H1 H2 H3. apply Forall_app. split; [exact H1|]. repeat constructor; auto. Qed.

Lemma amp_free_char (c : ascii) :
  Ascii.eqb c "&" = false -> amp_free (String c EmptyString).
Proof. intros H. apply amp_free_cons; auto. apply amp_free_empty. Qed.

Lemma lex_step_amp_free (st : lexstate) (c : ascii) :
  lex_amp_free st -> Ascii.eqb c "&" = false ->
  lex_amp_free (fst (lex_step st c)) /\ Forall token_amp_free (snd (lex_step st c)).
Proof.
  intros Hs Hc.
  destruct st; cbn [lex_step lex_amp_free] in Hs |- *;
    unfold step_intag, step_attreq, step_endspace, step_pibody, step_dir, lex_error;
    repeat match goal with
    | |- context [if ?b then _ else _] => destruct b
    | |- context [match ?o with Some _ => _ | None => _ end] => is_var o; destruct o
    | |- context [match decode ?ia ?r with _ => _ end] =>
        let D := fresh "D" in destruct (decode ia r) eqn:D
    | |- context [match ?r with EmptyString => _ | String _ _ => _ end] =>
        is_var r; destruct r
    end;
    cbn [fst snd lex_amp_free token_amp_free];
    repeat match goal with
    | H : _ /\ _ |- _ => destruct H
    | D : decode _ _ = Some _ |- _ =>
        apply decode_amp_free in D; [|assumption]
    end;
    repeat split; repeat constructor;
    auto using amp_free_snoc, amp_free_char, attrs_amp_free_snoc, amp_free_empty,
      cr_fold_amp_free, chop2_amp_free.
  all: cbn [token_amp_free]; auto using cr_fold_amp_free, chop2_amp_free.
Qed.

Lemma lex_run_amp_free (st : lexstate) (s : string) :
  lex_amp_free st -> amp_free s ->
  lex_amp_free (fst (lex_run st s)) /\ Forall token_amp_free (snd (lex_run st s)).
Proof.
  revert st. induction s as [|c s IH]; intros st Hst Hs; cbn [lex_run].
  - split; [exact Hst|constructor].
  - apply amp_free_cons_inv in Hs as [Hc Hs].
    pose proof (lex_step_amp_free st c Hst Hc) as [A B].
    destruct (lex_step st c) as [st1 t1]. cbn [fst snd] in A, B.
    pose proof (IH st1 A Hs) as [C D].
    destruct (lex_run st1 s) as [st2 t2]. cbn [fst snd] in C, D |- *.
    split; [exact C|]. apply Forall_app. auto.
Qed.

Lemma lex_finish_amp_free (st : lexstate) :
  lex_amp_free st -> Forall token_amp_free (lex_finish st).
Proof.
  intros H. destruct st; cbn [lex_finish]; repeat constructor.
  destruct raw as [|c raw]; [constructor|].
  destruct (decode false (String c raw)) as [d|] eqn:D; repeat constructor.
  cbn. exact (decode_amp_free _ _ _ H D).
Qed.

Lemma tokenize_amp_free (s : string) :
  amp_free s -> Forall token_amp_free (tokenize s).
Proof.
  intros H. unfold tokenize.
  pose proof (lex_run_amp_free (LText EmptyString) s amp_free_empty H) as [A B].
  destruct (lex_run (LText EmptyString) s) as [st ts]. cbn [fst snd] in A, B.
  apply Forall_app. split; [exact B|]. apply lex_finish_amp_free, A.
Qed.

Lemma add_child_amp_free (nd : node) (f : frame) :
  node_amp_free nd -> frame_amp_free f -> frame_amp_free (add_child nd f).
Proof.
  destruct f as [[n a] cs]. cbn. intros H (H1 & H2 & H3). repeat split; auto.
Qed.

Lemma build_amp_free (stk : list frame) (toks : list token) (nd : node)
  (rest : list token) :
  Forall frame_amp_free stk -> Forall token_amp_free toks ->
  build stk toks = Ok (nd, rest) -> node_amp_free nd.
Proof.
  revert stk. induction toks as [|t toks IH]; intros stk Hstk Ht H;
    cbn [build] in H; [discriminate|].
  pose proof (Forall_inv Ht) as Ht1. pose proof (Forall_inv_tail Ht) as Ht2.
  destruct t as [n a|n|d| |]; cbn [token_amp_free] in Ht1.
  - apply (IH ((n, a, []) :: stk)); auto.
    constructor; [|exact Hstk]. cbn. destruct Ht1. repeat split; auto.
  - destruct stk as [|[[m a] cs] stk']; [discriminate|].
    destruct (String.eqb n m); [|discriminate].
    pose proof (Forall_inv Hstk) as (F1 & F2 & F3).
    pose proof (Forall_inv_tail Hstk) as Hstk'.
    assert (Hnd : node_amp_free (Elem m a (rev cs)))
      by (constructor; auto; apply Forall_rev, F3).
    destruct stk' as [|f stk''].
    + injection H as <- _. exact Hnd.
    + apply (IH (add_child (Elem m a (rev cs)) f :: stk'')); auto.
      constructor; [|exact (Forall_inv_tail Hstk')].
      apply add_child_amp_free; [exact Hnd|exact (Forall_inv Hstk')].
  - destruct stk as [|f stk'].
    + exact (IH [] Hstk Ht2 H).
    + apply (IH (add_child (Text d) f :: stk')); auto.
      constructor; [|exact (Forall_inv_tail Hstk)].
      apply add_child_amp_free; [constructor; exact Ht1|exact (Forall_inv Hstk)].
  - exact (IH stk Hstk Ht2 H).
  - discriminate.
Qed.

Lemma class_attr_amp_free (a : list (string * string)) (acc : string) :
  attrs_amp_free a -> amp_free acc -> amp_free (HtmlTable.class_attr a acc).
Proof.
  revert acc. induction a as [|[n v] a IH]; intros acc Ha Hacc; cbn; [exact Hacc|].
  apply IH; [exact (Forall_inv_tail Ha)|].
  destruct (String.eqb (local_name n) "class"); [exact (proj2 (Forall_inv Ha))|exact Hacc].
Qed.

Lemma unmarshal_td_amp_free (a : list (string * string)) (cs : list node) :
  attrs_amp_free a -> Forall node_amp_free cs ->
  td_amp_free (HtmlTable.unmarshal_td a cs).
Proof.
  intros Ha Hcs. split; cbn [Key Value HtmlTable.unmarshal_td].
  - apply class_attr_amp_free; [exact Ha|apply amp_free_empty].
  - induction Hcs as [|nd cs Hnd _ IH]; cbn [fold_right]; [apply amp_free_empty|].
    destruct nd as [n a' cs'|d]; [exact IH|].
    apply amp_free_app; [|exact IH]. inversion Hnd. assumption.
Qed.

Lemma unmarshal_tr_amp_free (cs : list node) :
  Forall node_amp_free cs -> Forall td_amp_free (Tr_Td (HtmlTable.unmarshal_tr cs)).
Proof.
  intros Hcs. cbn [Tr_Td HtmlTable.unmarshal_tr]. apply Forall_forall. intros td Htd.
  apply in_flat_map in Htd as [nd [Hnd Htd]].
  rewrite Forall_forall in Hcs. specialize (Hcs nd Hnd).
  destruct nd as [n a cs'|d]; [|contradiction].
  destruct (String.eqb (local_name n) "td"); [|contradiction].
  destruct Htd as [<-|[]]. inversion Hcs. apply unmarshal_td_amp_free; assumption.
Qed.

Lemma unmarshal_tbody_amp_free (cs : list node) :
  Forall node_amp_free cs ->
  Forall (fun tr => Forall td_amp_free (Tr_Td tr)) (HtmlTable.unmarshal_tbody cs).
Proof.
  intros Hcs. unfold HtmlTable.unmarshal_tbody. apply Forall_forall. intros tr Htr.
  apply in_flat_map in Htr as [nd [Hnd Htr]].
  rewrite Forall_forall in Hcs. specialize (Hcs nd Hnd).
  destruct nd as [n a cs'|d]; [|contradiction].
  destruct (String.eqb (local_name n) "tr"); [|contradiction].
  destruct Htr as [<-|[]]. inversion Hcs. apply unmarshal_tr_amp_free; assumption.
Qed.

Lemma unmarshal_table_amp_free (nd : node) (t : HtmlTable.t) :
  node_amp_free nd -> HtmlTable.unmarshal_table nd = Ok t ->
  Forall (fun tr => Forall td_amp_free (Tr_Td tr)) (HtmlTable.TBody t).
Proof.
  intros Hnd H. destruct nd as [n a cs|d]; cbn [HtmlTable.unmarshal_table] in H;
    [|discriminate].
  destruct (String.eqb (local_name n) "table"); [|discriminate].
  injection H as <-. cbn [HtmlTable.TBody]. inversion Hnd as [? ? ? _ _ Hcs|]; subst.
  apply Forall_forall. intros tr Htr.
  apply in_flat_map in Htr as [c [Hc Htr]].
  rewrite Forall_forall in Hcs. specialize (Hcs c Hc).
  destruct c as [m b cs'|d]; [|contradiction].
  destruct (String.eqb (local_name m) "tbody"); [|contradiction].
  inversion Hcs as [? ? ? _ _ Hcs'|]; subst.
  exact (proj1 (Forall_forall _ _) (unmarshal_tbody_amp_free cs' Hcs') tr Htr).
Qed.

Lemma get_field_tds_amp_free (tds : list Td) (name : string) :
  Forall td_amp_free tds -> amp_free (get_field_tds tds name).
Proof.
  induction 1 as [|td tds [_ Hv] _ IH]; cbn [get_field_tds]; [apply amp_free_empty|].
  destruct (String.eqb (Key td) name); auto.
Qed.

Lemma ToTranslation_amp_free (tr : Tr) :
  Forall td_amp_free (Tr_Td tr) -> translation_amp_free (ToTranslation tr).
Proof.
  intros H. unfold translation_amp_free, ToTranslation, GetField. cbn.
  repeat split; apply get_field_tds_amp_free, H.
Qed.

Lemma parseArticleRawHtml_amp_free (s : string) (ts : list Translation.t) :
  parseArticleRawHtml s = Ok ts -> Forall translation_amp_free ts.
Proof.
  unfold parseArticleRawHtml, HtmlTable.Unmarshal.
  destruct (build [] (tokenize (replace_all_char s "&" "amp;"))) as [[nd rest]|e] eqn:B;
    cbn [bind]; [|discriminate].
  destruct (HtmlTable.unmarshal_table (fst (nd, rest))) as [t|e] eqn:U; cbn [bind];
    [|discriminate].
  intros H. injection H as <-.
  pose proof (build_amp_free [] _ nd rest (Forall_nil _)
                (tokenize_amp_free _ (replace_all_amp_free s)) B) as Hnd.
  pose proof (unmarshal_table_amp_free nd t Hnd U) as Ht.
  apply Forall_map. eapply Forall_impl; [|exact Ht]. apply ToTranslation_amp_free.
Qed.

End AmpFacts.

Lemma loop_blocks_Forall {A} (P : A -> Prop) (f : string -> result (list A))
  (bl : list json) (xs : list A) :
  (forall s ys, f s = Ok ys -> Forall P ys) ->
  Navigator.loop_blocks A f bl = Ok xs -> Forall P xs.
Proof.
  intros Hf. revert xs. induction bl as [|b bl IH]; intros xs H;
    cbn [Navigator.loop_blocks] in H.
  - injection H as <-. constructor.
  - destruct (Navigator.as_map (Some b)) as [bm|e]; cbn [bind] in H; [|discriminate].
    destruct (Navigator.getString bm _) as [s|e]; cbn [bind] in H; [|discriminate].
    destruct (f s) as [ys|e] eqn:E; cbn [bind] in H; [|discriminate].
    destruct (Navigator.loop_blocks A f bl) as [zs|e]; cbn [bind] in H; [|discriminate].
    injection H as <-. apply Forall_app. split; [exact (Hf s ys E)|exact (IH zs eq_refl)].
Qed.

Lemma loop_tabs_Forall {A} (P : A -> Prop) (f : string -> result (list A))
  (tabs : list json) (xs : list A) :
  (forall s ys, f s = Ok ys -> Forall P ys) ->
  Navigator.loop_tabs A f tabs = Ok xs -> Forall P xs.
Proof.
  intros Hf. revert xs. induction tabs as [|t tabs IH]; intros xs H;
    cbn [Navigator.loop_tabs] in H.
  - injection H as <-. constructor.
  - destruct (Navigator.as_map (Some t)) as [tm|e]; cbn [bind] in H; [|discriminate].
    destruct (Navigator.as_slice _) as [bl|e]; cbn [bind] in H; [|discriminate].
    destruct (Navigator.loop_blocks A f bl) as [ys|e] eqn:E; cbn [bind] in H;
      [|discriminate].
    destruct (Navigator.loop_tabs A f tabs) as [zs|e]; cbn [bind] in H; [|discriminate].
    injection H as <-. apply Forall_app.
    split; [exact (loop_blocks_Forall P f bl ys Hf E)|exact (IH zs eq_refl)].
Qed.

Lemma parsePage_amp_free (jsonMap : list (string * json)) (ts : list Translation.t) :
  parsePage jsonMap = Ok ts -> Forall translation_amp_free ts.
Proof.
  unfold parsePage, Navigator.parse_page_with.
  destruct (Navigator.getMap jsonMap _) as [pp|e]; cbn [bind]; [|discriminate].
  destruct (Navigator.getSlice pp "blocks") as [bl|e]; cbn [bind]; [|discriminate].
  destruct (Navigator.find_tabs bl) as [tabs|e]; cbn [bind]; [|discriminate].
  apply loop_tabs_Forall. apply parseArticleRawHtml_amp_free.
Qed.

(** [strings.ReplaceAll(articleRaw, "&", "amp;")] leaves no ampersand for
    the decoder to turn into one: no field of a parsed row contains '&',
    whether it comes from text, a CDATA section or an attribute.  (The
    decoder here reads names with ASCII bytes only.) *)
Theorem parseArticleRawHtml_no_ampersand (s : string) (ts : list Translation.t) :
  parseArticleRawHtml s = Ok ts -> Forall translation_amp_free ts.
Proof. apply parseArticleRawHtml_amp_free. Qed.

Lemma parseArticleRawHtml_no_ampersand_witness :
  exists ts, parseArticleRawHtml cdata_ampersand_fragment = Ok ts /\
             Forall translation_amp_free ts.
Proof.
  assert (Hok : match parseArticleRawHtml cdata_ampersand_fragment with
                | Ok _ => true | Err _ => false end = true) by (vm_compute; reflexivity).
  destruct (parseArticleRawHtml cdata_ampersand_fragment) as [ts|e] eqn:E; [|discriminate Hok].
  exists ts. split; [reflexivity|]. exact (parseArticleRawHtml_no_ampersand _ ts E).
Defined.

(** No record of the run has an ampersand in its tournament, region,
    broadcast or original date (names in the fragments read with ASCII
    bytes, as in [GoXml]). *)
Theorem main_records_no_ampersand (local : GoTime.location)
  (jsonMap : list (string * json)) (out : list TypedTranslation.t) :
  main_records local jsonMap = Ok out ->
  Forall (fun r => amp_free (TypedTranslation.Tournament r) /\
                   amp_free (TypedTranslation.Region r) /\
                   amp_free (TypedTranslation.Broadcast r) /\
                   amp_free (TypedTranslation.OriginalDate r)) out.
Proof.
  unfold main_records. intros H.
  destruct (parsePage jsonMap) as [translations|e] eqn:P; cbn [bind] in H;
    [|discriminate].
  destruct (map_result (ToTypedTranslation local) translations) as [res|e] eqn:E;
    cbn [bind] in H; [|discriminate].
  injection H as <-.
  apply parsePage_amp_free in P. apply map_result_Forall2 in E.
  destruct (SliceStable_spec TypedTranslation.t
              (fun x => GoTime.unix (TypedTranslation.AlmatyTime x)) res) as (_ & K).
  pose proof (key_class_perm _ (fun x => GoTime.unix (TypedTranslation.AlmatyTime x))
                _ _ K) as Hp.
  apply Forall_forall. intros x Hx. apply (Permutation_in _ Hp) in Hx.
  clear Hp K. revert P Hx.
  induction E as [|t r ts rs Etr _ IH]; intros P Hx; [contradiction|].
  destruct Hx as [<-|Hx]; [|exact (IH (Forall_inv_tail P) Hx)].
  destruct (ToTypedTranslation_fields local t r Etr) as (E1 & E2 & E3 & E4 & _).
  destruct (Forall_inv P) as (D & T & R & Ti & B).
  rewrite E1, E2, E3, E4. repeat split; auto.
  apply amp_free_app; [exact D|]. apply amp_free_app; [reflexivity|exact Ti].
Qed.

Lemma main_records_no_ampersand_witness :
  exists out, main_records GoTime.UTC tie_page = Ok out /\
  Forall (fun r => amp_free (TypedTranslation.Tournament r) /\
                   amp_free (TypedTranslation.Region r) /\
                   amp_free (TypedTranslation.Broadcast r) /\
                   amp_free (TypedTranslation.OriginalDate r)) out.
Proof.
  assert (Hok : match main_records GoTime.UTC tie_page with
                | Ok _ => true | Err _ => false end = true) by (vm_compute; reflexivity).
  destruct (main_records GoTime.UTC tie_page) as [out|e] eqn:E; [|discriminate Hok].
  exists out. split; [reflexivity|]. exact (main_records_no_ampersand _ _ out E).
Defined.

(** ** Separators of the CSV report *)

Lemma count_char_app (c : ascii) (x y : string) :
  count_char c (x ++ y) = (count_char c x + count_char c y)%nat.
Proof.
  induction x as [|d x IH]; [reflexivity|]. cbn [String.append count_char].
  rewrite IH. lia.
Qed.

Section CsvCount.
Import GoTime.
(** A separator below the digits that [Format] itself never prints. *)
Variable c : ascii.
Hypothesis c_low : (nat_of_ascii c < 48)%nat.
Hypothesis c_minus : c <> "-"%char.
Hypothesis c_plus : c <> "+"%char.
Hypothesis c_space : c <> " "%char.

Lemma eqb_c_false (d : ascii) : d <> c -> Ascii.eqb d c = false.
Proof. intros H. apply Ascii.eqb_neq. exact H. Qed.

Lemma count_char_high (s : string) :
  forallb (fun d => Nat.leb 48 (nat_of_ascii d)) (list_ascii_of_string s) = true ->
  count_char c s = 0%nat.
Proof.
  induction s as [|d s IH]; [reflexivity|]. cbn [list_ascii_of_string forallb].
  intros H. apply andb_true_iff in H as [Hd Hs]. apply Nat.leb_le in Hd.
  cbn [count_char]. rewrite IH by exact Hs.
  rewrite eqb_c_false; [reflexivity|]. intros ->. lia.
Qed.

Lemma digit_not_c (u : Z) : 0 <= u <= 9 -> Ascii.eqb (Report.digit u) c = false.
Proof.
  intros Hu. apply eqb_c_false. intros E.
  assert (Hn : nat_of_ascii (Report.digit u) = Z.to_nat (48 + u)).
  { unfold Report.digit. apply Ascii.nat_ascii_embedding. lia. }
  rewrite E in Hn. lia.
Qed.

Lemma decimal_fuel_count (fuel : nat) (u : Z) (acc : string) :
  0 <= u -> count_char c (Report.decimal_fuel fuel u acc) = count_char c acc.
Proof.
  revert u acc. induction fuel as [|fuel IH]; intros u acc Hu; [reflexivity|].
  cbn [Report.decimal_fuel]. destruct (u <? 10) eqn:E.
  - apply Z.ltb_lt in E. cbn [count_char]. rewrite digit_not_c by lia. reflexivity.
  - apply Z.ltb_ge in E. rewrite IH by (apply Z.div_pos; lia).
    cbn [count_char]. rewrite digit_not_c by (pose proof (Z.mod_pos_bound u 10); lia).
    reflexivity.
Qed.

Lemma appendInt2_count (x : Z) : count_char c (Report.appendInt2 x) = 0%nat.
Proof.
  unfold Report.appendInt2. rewrite count_char_app.
  assert (Hs : count_char c (if x <? 0 then "-"%string else EmptyString) = 0%nat).
  { destruct (x <? 0); cbn [count_char]; [rewrite eqb_c_false by congruence|]; reflexivity. }
  rewrite Hs. destruct (Z.abs x <? 100) eqn:E.
  - apply Z.ltb_lt in E. cbn [count_char].
    pose proof (Z.mod_pos_bound (Z.abs x) 10).
    assert (Z.abs x / 10 < 10) by (apply Z.div_lt_upper_bound; lia).
    assert (0 <= Z.abs x / 10) by (apply Z.div_pos; lia).
    rewrite !digit_not_c by lia. reflexivity.
  - rewrite decimal_fuel_count by lia. reflexivity.
Qed.

Lemma month_abbr_count (m : Z) : count_char c (Report.month_abbr m) = 0%nat.
Proof.
  unfold Report.month_abbr.
  destruct (nth_in_or_default (Z.to_nat (m - 1))
              ["Jan"; "Feb"; "Mar"; "Apr"; "May"; "Jun";
               "Jul"; "Aug"; "Sep"; "Oct"; "Nov"; "Dec"]%string EmptyString)
    as [Hin| ->]; [|reflexivity].
  apply count_char_high.
  repeat (destruct Hin as [<-|Hin]; [reflexivity|]). destruct Hin.
Qed.

Lemma zone_text_count (zi : zone_info) :
  count_char c (Report.zone_text zi) = count_char c (zi_name zi).
Proof.
  unfold Report.zone_text. destruct (String.eqb_spec (zi_name zi) EmptyString) as [E|_];
    [|reflexivity].
  rewrite E. cbn [count_char]. rewrite !count_char_app, !appendInt2_count.
  destruct (Z.quot (zi_offset zi) 60 <? 0); cbn [count_char];
    rewrite eqb_c_false by congruence; reflexivity.
Qed.

Lemma Format_count (t : time) : count_char c (Report.Format t) = count_char c (zone_name t).
Proof.
  unfold Report.Format, zone_name.
  destruct (wall_clock t) as [[[[year month] day] hour] min].
  rewrite !count_char_app, !appendInt2_count, month_abbr_count, zone_text_count.
  assert (Hcolon : Ascii.eqb ":" c = false).
  { apply eqb_c_false. intros E. rewrite <- E in c_low. cbv in c_low. lia. }
  cbn [count_char]. rewrite Hcolon, !eqb_c_false by congruence. lia.
Qed.

Lemma line_count (tr : TypedTranslation.t) :
  count_char c (Report.line tr) =
    (count_char c ","%string * 5 + count_char c Report.crlf + field_chars c tr)%nat.
Proof.
  unfold Report.line, field_chars. rewrite !count_char_app, !Format_count. lia.
Qed.

End CsvCount.

Lemma string_app_empty (s : string) : (s ++ EmptyString)%string = s.
Proof. induction s as [|d s IH]; [reflexivity|]. cbn. f_equal. exact IH. Qed.

Lemma fold_report (res : list TypedTranslation.t) (acc : string) :
  fold_left (fun csv tr => (csv ++ Report.line tr)%string) res acc =
  (acc ++ String.concat EmptyString (map Report.line res))%string.
Proof.
  revert acc. induction res as [|tr res IH]; intros acc; cbn [fold_left map].
  - cbn [String.concat]. symmetry. apply string_app_empty.
  - rewrite IH, <- string_app_assoc. f_equal.
    destruct res as [|tr' res]; cbn [String.concat map]; [|reflexivity].
    apply string_app_empty.
Qed.

Lemma count_char_concat {A} (c : ascii) (f : A -> string) (l : list A) :
  count_char c (String.concat EmptyString (map f l)) =
  list_sum (map (fun x => count_char c (f x)) l).
Proof.
  induction l as [|x l IH]; [reflexivity|].
  destruct l as [|y l]; [cbn; lia|].
  change (String.concat EmptyString (map f (x :: y :: l)))
    with (f x ++ String.concat EmptyString (map f (y :: l)))%string.
  rewrite count_char_app, IH. reflexivity.
Qed.

Lemma comma_ok :
  (nat_of_ascii "," < 48)%nat /\ ","%char <> "-"%char /\
  ","%char <> "+"%char /\ ","%char <> " "%char.
Proof. repeat split; [cbv; lia|discriminate..]. Qed.

Lemma lf_ok :
  (nat_of_ascii "010" < 48)%nat /\ "010"%char <> "-"%char /\
  "010"%char <> "+"%char /\ "010"%char <> " "%char.
Proof. repeat split; [cbv; lia|discriminate..]. Qed.

(** The fields of a report line are not quoted: a line has the five
    separating commas of the format, plus every comma of the two zone
    names, the tournament, the region, the broadcast and the original
    date. *)
Theorem reportCsv_line_commas (tr : TypedTranslation.t) :
  count_char "," (Report.line tr) = (5 + field_chars "," tr)%nat.
Proof.
  destruct comma_ok as (H1 & H2 & H3 & H4).
  rewrite (line_count "," H1 H2 H3 H4). reflexivity.
Qed.

(** The report has one line feed for the header and one per record, plus
    the line feeds the copied fields carry. *)
Theorem reportCsv_line_feeds (res : list TypedTranslation.t) :
  count_char "010" (Report.reportCsv res) =
  (S (List.length res) + list_sum (map (field_chars "010") res))%nat.
Proof.
  unfold Report.reportCsv. rewrite fold_report, count_char_app, count_char_concat.
  destruct lf_ok as (H1 & H2 & H3 & H4).
  replace (count_char "010" Report.header) with 1%nat by reflexivity.
  enough (E : list_sum (map (fun x => count_char "010" (Report.line x)) res) =
              (List.length res + list_sum (map (field_chars "010") res))%nat)
    by (rewrite E; reflexivity).
  induction res as [|tr res IH]; [reflexivity|].
  unfold list_sum in *. cbn [map fold_right List.length]. rewrite IH, (line_count "010" H1 H2 H3 H4).
  replace (count_char "010" ",") with 0%nat by reflexivity.
  replace (count_char "010" Report.crlf) with 1%nat by reflexivity. lia.
Qed.

(** ** Cells and zones *)

Lemma get_field_tds_filter (p : Td -> bool) (tds : list Td) (name : string) :
  (forall td, Key td = name -> p td = true) ->
  get_field_tds (filter p tds) name = get_field_tds tds name.
Proof.
  intros Hp. induction tds as [|td tds IH]; [reflexivity|]. cbn [filter get_field_tds].
  destruct (String.eqb_spec (Key td) name) as [E|E].
  - rewrite (Hp td E). cbn [get_field_tds]. rewrite (proj2 (String.eqb_eq _ _) E).
    reflexivity.
  - destruct (p td); cbn [get_field_tds]; [|exact IH].
    rewrite (proj2 (String.eqb_neq _ _) E). exact IH.
Qed.

(** Cells whose class is none of the five field names never change the
    row's translation: dropping them gives the same [Translation]. *)
Theorem ToTranslation_known_cells (tr : Tr) :
  ToTranslation (mkTr (filter known_cell (Tr_Td tr))) = ToTranslation tr.
Proof.
  unfold ToTranslation, GetField. cbn [Tr_Td].
  rewrite !get_field_tds_filter; [reflexivity|..];
    intros td E; unfold known_cell; rewrite E; reflexivity.
Qed.

